(** * CUDA API tracker: version resolver, symbol cache, boundary search,
      catalog and changelog builders

    Shallow embedding of [cuda_api_tracker.py] and [cuda_api_changelog.py].

    Conventions of the embedding:
    - Python [str] is [string] (a byte string; the tool's version tokens and
      symbol names are ASCII), a Python [set] of names is [gset string], a
      [dict] keyed by strings is [gmap string _], a [list] is [list].
    - A Python call that may raise is a computation in [outcome]:
      [Ok v] for a normal return, [Raise e] for an exception that leaves
      the function.  [sys.exit(n)] is the exception [SystemExit n].
    - [print] calls and [datetime.now()] carry no data the properties
      below read and are left out. *)

From stdpp Require Import gmap strings list sorting.
From Stdlib Require Import ZArith Ascii.

Open Scope string_scope.
Open Scope list_scope.

(** ** Exceptions and the error monad *)

Inductive exn : Type :=
| ValueError
| IndexError
| KeyError
| OSError
| SystemExit (code : Z).

Inductive outcome (A : Type) : Type :=
| Ok (a : A)
| Raise (e : exn).
Arguments Ok {A} a.
Arguments Raise {A} e.

#[global] Instance outcome_ret : MRet outcome := fun A a => Ok a.
#[global] Instance outcome_bind : MBind outcome := fun A B k m =>
  match m with
  | Ok a => k a
  | Raise e => Raise e
  end.

(** Unwrap an optional value, raising [e] on [None]. *)
Definition or_raise {A} (e : exn) (o : option A) : outcome A :=
  match o with
  | Some a => Ok a
  | None => Raise e
  end.

(** Exit status of the process for [sys.exit(main())]: the returned
    integer, the code of a [SystemExit], and 1 for an uncaught exception. *)
Definition exit_status (o : outcome Z) : Z :=
  match o with
  | Ok n => n
  | Raise (SystemExit n) => n
  | Raise _ => 1%Z
  end.

(** ** Python built-ins used by the source *)

Module Py.

(** [l.index(x)]: position of the first occurrence, [ValueError] when
    absent. *)
Fixpoint index_opt (x : string) (l : list string) : option nat :=
  match l with
  | [] => None
  | y :: l' => if decide (x = y) then Some 0 else S <$> index_opt x l'
  end.

Definition index (l : list string) (x : string) : outcome nat :=
  or_raise ValueError (index_opt x l).

(** [l[i]] for a non-negative [i]: [IndexError] out of range. *)
Definition getitem {A} (l : list A) (i : nat) : outcome A :=
  or_raise IndexError (l !! i).

(** [l[a:b]] for non-negative [a], [b]: slicing clamps, never raises. *)
Definition slice {A} (l : list A) (a b : nat) : list A :=
  drop a (take b l).

(** [v.startswith(t)]. *)
Definition startswith (v t : string) : bool := String.prefix t v.

(** [s.split(sep)] for a one-character separator. *)
Fixpoint split (sep : ascii) (s : string) : list string :=
  match s with
  | EmptyString => [EmptyString]
  | String c s' =>
      if decide (c = sep) then EmptyString :: split sep s'
      else match split sep s' with
           | h :: t => String c h :: t
           | [] => [String c EmptyString]
           end
  end.

(** [s.replace(a, b)] for one-character [a] and [b]. *)
Fixpoint replace (a b : ascii) (s : string) : string :=
  match s with
  | EmptyString => EmptyString
  | String c s' => String (if decide (c = a) then b else c) (replace a b s')
  end.

(** [s.rsplit(sep, 1)[0]]: what precedes the last [sep], the whole
    string when there is none. *)
Fixpoint has_char (sep : ascii) (s : string) : bool :=
  match s with
  | EmptyString => false
  | String c s' => bool_decide (c = sep) || has_char sep s'
  end.

Fixpoint rsplit1_head (sep : ascii) (s : string) : string :=
  match s with
  | EmptyString => EmptyString
  | String c s' =>
      if has_char sep s' then String c (rsplit1_head sep s')
      else if decide (c = sep) then EmptyString
      else String c s'
  end.

(** [int(s)] on an ASCII string: surrounding white space is dropped, one
    sign is allowed, then decimal digits, single underscores allowed
    between digits.  Anything else is a [ValueError]. *)
Definition is_digit (c : ascii) : bool :=
  let n := nat_of_ascii c in ((48 <=? n) && (n <=? 57))%nat.

Definition digit_val (c : ascii) : Z := Z.of_nat (nat_of_ascii c - 48).

Definition is_space (c : ascii) : bool :=
  let n := nat_of_ascii c in (((9 <=? n) && (n <=? 13)) || (n =? 32))%nat.

Fixpoint lstrip (s : string) : string :=
  match s with
  | EmptyString => EmptyString
  | String c s' => if is_space c then lstrip s' else s
  end.

Definition strip (s : string) : string :=
  String.rev (lstrip (String.rev (lstrip s))).

Fixpoint digits (acc : Z) (after_underscore : bool) (s : string) : option Z :=
  match s with
  | EmptyString => if after_underscore then None else Some acc
  | String c s' =>
      if is_digit c then digits (10 * acc + digit_val c) false s'
      else if decide (c = "_"%char) then
             if after_underscore then None else digits acc true s'
           else None
  end.

Definition unsigned (s : string) : option Z :=
  match s with
  | String c _ => if is_digit c then digits 0 false s else None
  | EmptyString => None
  end.

Definition int (s : string) : outcome Z :=
  or_raise ValueError
    match strip s with
    | String "-" r => Z.opp <$> unsigned r
    | String "+" r => unsigned r
    | r => unsigned r
    end.

(** [[f(x) for x in l]] with a fallible [f]: the first exception wins. *)
Fixpoint comprehension {A B} (f : A -> outcome B) (l : list A) : outcome (list B) :=
  match l with
  | [] => Ok []
  | x :: l' => y ← f x; ys ← comprehension f l'; Ok (y :: ys)
  end.

(** [x in s] for a set of names. *)
Definition contains (s : gset string) (x : string) : bool :=
  bool_decide (x ∈ s).

(** Truthiness of an optional string ([None] and the empty string are
    false). *)
Definition truthy (o : option string) : bool :=
  match o with
  | Some (String _ _) => true
  | _ => false
  end.

End Py.

(** ** The version list *)

(** [CUDA_VERSIONS], oldest first. *)
Definition CUDA_VERSIONS : list string :=
  [ "8.0";
    "9.0"; "9.1"; "9.2";
    "10.0"; "10.1"; "10.2";
    "11.0";
    "11.1.0"; "11.1.1";
    "11.2.0"; "11.2.1"; "11.2.2";
    "11.3.0"; "11.3.1";
    "11.4.0"; "11.4.1"; "11.4.2"; "11.4.3"; "11.4.4";
    "11.5.0"; "11.5.1"; "11.5.2";
    "11.6.0"; "11.6.1"; "11.6.2";
    "11.7.0"; "11.7.1";
    "11.8.0";
    "12.0.0"; "12.0.1";
    "12.1.0"; "12.1.1";
    "12.2.0"; "12.2.1"; "12.2.2";
    "12.3.0"; "12.3.1"; "12.3.2";
    "12.4.0"; "12.4.1";
    "12.5.0"; "12.5.1";
    "12.6.0"; "12.6.1"; "12.6.2"; "12.6.3";
    "12.8.0"; "12.8.1";
    "12.9.0"; "12.9.1";
    "13.0.0"; "13.0.1"; "13.0.2";
    "13.1.0"; "13.1.1" ].

(** ** Version resolver ([cuda_api_changelog.py]) *)

(** Every function below reads the module-level list [CUDA_VERSIONS].  It
    is the parameter [versions] here, so that the same code can also be run
    over the short lists of the documented scenarios. *)

(** [[int(x) for x in s.split('.')]]. *)
Definition version_parts (s : string) : outcome (list Z) :=
  Py.comprehension Py.int (Py.split "."%char s).

(** First loop of [find_closest_version]: the first [v] with
    [v.startswith(target)]. *)
Fixpoint first_startswith (target : string) (vs : list string) : option string :=
  match vs with
  | [] => None
  | v :: vs' => if Py.startswith v target then Some v else first_startswith target vs'
  end.

(** Second loop of [find_closest_version], [target_parts] already parsed. *)
Fixpoint first_major_minor (target_parts : list Z) (vs : list string)
  : outcome (option string) :=
  match vs with
  | [] => Ok None
  | v :: vs' =>
      v_parts ← version_parts v;
      v0 ← Py.getitem v_parts 0;
      t0 ← Py.getitem target_parts 0;
      if decide (v0 = t0) then
        if decide (length target_parts = 1) then Ok (Some v)
        else
          v1 ← Py.getitem v_parts 1;
          t1 ← Py.getitem target_parts 1;
          if decide (v1 >= t1)%Z then Ok (Some v)
          else first_major_minor target_parts vs'
      else first_major_minor target_parts vs'
  end.

Definition find_closest_version (versions : list string) (target : string)
  : outcome (option string) :=
  if bool_decide (target ∈ versions) then Ok (Some target)
  else
    match first_startswith target versions with
    | Some v => Ok (Some v)
    | None =>
        target_parts ← version_parts target;
        first_major_minor target_parts versions
    end.

(** [start_idx] of [get_version_range]: 0 without a since token, else the
    index of the version it resolves to; [sys.exit(1)] when it resolves to
    nothing. *)
Definition range_start_idx (versions : list string) (since : option string)
  : outcome nat :=
  match since with
  | None => Ok 0
  | Some s =>
      since_v ← find_closest_version versions s;
      if Py.truthy since_v then
        Py.index versions (default EmptyString since_v)
      else Raise (SystemExit 1)
  end.

(** [end_idx] of [get_version_range]: the length of the list without an
    until token, else one past the index of the version it resolves to. *)
Definition range_end_idx (versions : list string) (until : option string)
  : outcome nat :=
  if Py.truthy until then
    until_v ← find_closest_version versions (default EmptyString until);
    if Py.truthy until_v then
      i ← Py.index versions (default EmptyString until_v);
      Ok (i + 1)
    else Raise (SystemExit 1)
  else Ok (length versions).

Definition get_version_range (versions : list string) (since until : option string)
  : outcome (list string) :=
  start_idx ← range_start_idx versions since;
  end_idx ← range_end_idx versions until;
  Ok (Py.slice versions start_idx end_idx).

(** ** Sorting *)

(** [sorted(s)] for a set of names: ascending in the order of [str]
    (code points, which is the byte order of [String.le] here). *)
Definition sorted_names (s : gset string) : list string :=
  merge_sort String.le (elements s).

(** [sorted(l, key=f)] with natural-number keys: a stable insertion sort
    over the (key, value) pairs. *)
Fixpoint insert_by_key {A} (x : nat * A) (l : list (nat * A)) : list (nat * A) :=
  match l with
  | [] => [x]
  | y :: l' => if (x.1 <=? y.1)%nat then x :: y :: l' else y :: insert_by_key x l'
  end.

Definition sort_by_key {A} (l : list (nat * A)) : list (nat * A) :=
  foldr insert_by_key [] l.

(** [sorted(l, key=lambda v: CUDA_VERSIONS.index(v))]: the keys are
    computed first, so a version that is not in the list raises. *)
Definition sorted_by_index (versions l : list string) : outcome (list string) :=
  keys ← Py.comprehension (Py.index versions) l;
  Ok (sort_by_key (zip keys l)).*2.

(** ** Version symbol cache ([get_api_list_for_version]) *)

Definition ARCHIVE_BASE : string := "https://docs.nvidia.com/cuda/archive".
Definition LATEST_BASE : string := "https://docs.nvidia.com/cuda".

(** Content of a file of the cache directory: a JSON array of names, or
    anything [json.load] fails on. *)
Inductive cache_file : Type :=
| Json (names : list string)
| Unreadable.

(** The name [f"{api_type}_{version.replace('.', '_')}.json"] of the cache
    file inside [CACHE_DIR]. *)
Definition cache_file_name (version api_type : string) : string :=
  api_type +:+ "_" +:+ Py.replace "."%char "_"%char version +:+ ".json".

Definition nonempty_str (s : string) : bool :=
  match s with
  | EmptyString => false
  | String _ _ => true
  end.

Definition nonempty_set (s : gset string) : bool := negb (bool_decide (s = ∅)).

(** The URLs the function builds. *)
Definition api_doc (api_type : string) : string :=
  if decide (api_type = "runtime") then "cuda-runtime-api"
  else "cuda-driver-api".

Definition index_url (version api_type : string) : string :=
  ARCHIVE_BASE +:+ "/" +:+ version +:+ "/" +:+ api_doc api_type +:+ "/index.html".

Definition nested_index_url (version api_type : string) : string :=
  ARCHIVE_BASE +:+ "/" +:+ version +:+ "/" +:+ api_doc api_type
    +:+ "/cuda-runtime-api/index.html".

Definition latest_index_url (api_type : string) : string :=
  LATEST_BASE +:+ "/" +:+ api_doc api_type +:+ "/index.html".

Definition deprecated_url (version api_type : string) : string :=
  ARCHIVE_BASE +:+ "/" +:+ version +:+ "/" +:+ api_doc api_type
    +:+ "/group__CUDART__HIGHLEVEL.html".

Section SymbolCache.

(** The list the function reads as [CUDA_VERSIONS]. *)
Variable versions : list string.

(** The network, as [fetch_url] sees it.  [request_accepts url] tells
    whether [Request(url)] can be built: [urllib] refuses a URL without a
    scheme with a [ValueError], and [fetch_url] builds the request before
    its [try].  [response url] is what the retry loop of [fetch_url] then
    returns: the text of the page, or the empty string for every
    failure. *)
Variable request_accepts : string -> bool.
Variable response : string -> string.

(** The symbol extractor [extract_apis_from_html] and the links
    [ModuleIndexParser] collects from a page. *)
Variable extract_apis_from_html : string -> gset string.
Variable group_links : string -> list string.

(** Whether [open(cache_path, 'w')] succeeds, and whether
    [CACHE_DIR.mkdir(parents=True, exist_ok=True)] does. *)
Variable writable : string -> bool.
Variable mkdir_ok : bool.

(** [get_cache_path]: the directory is created on the way, and the
    [OSError] of a failing [mkdir] is not caught. *)
Definition get_cache_path (version api_type : string) : outcome string :=
  if mkdir_ok then Ok (cache_file_name version api_type) else Raise OSError.

Definition fetch_url (url : string) : outcome string :=
  if request_accepts url then Ok (response url) else Raise ValueError.

(** The URL fetched for a link of the page at [base_path]. *)
Definition group_url (base_path link : string) : string :=
  if Py.startswith link "http" then link else base_path +:+ "/" +:+ link.

(** The loop over [parser.group_links[:20]]. *)
Fixpoint fetch_groups (base_path : string) (links : list string)
    (apis : gset string) : outcome (gset string) :=
  match links with
  | [] => Ok apis
  | link :: links' =>
      group_html ← fetch_url (group_url base_path link);
      fetch_groups base_path links'
        (if nonempty_str group_html
         then apis ∪ extract_apis_from_html group_html
         else apis)
  end.

(** The loop over [urls_to_try]. *)
Fixpoint try_urls (urls : list string) (apis : gset string)
  : outcome (gset string) :=
  match urls with
  | [] => Ok apis
  | base_url :: urls' =>
      html ← fetch_url base_url;
      if nonempty_str html then
        apis ← fetch_groups (Py.rsplit1_head "/"%char base_url)
                 (take 20 (group_links html))
                 (apis ∪ extract_apis_from_html html);
        if nonempty_set apis then Ok apis else try_urls urls' apis
      else try_urls urls' apis
  end.

(** Returns the set and the cache directory after the call. *)
Definition get_api_list_for_version (version api_type : string)
    (use_cache : bool) (cache : gmap string cache_file)
  : outcome (gset string * gmap string cache_file) :=
  cache_path ← get_cache_path version api_type;
  match (if use_cache then cache !! cache_path else None) with
  | Some (Json names) => Ok (list_to_set names, cache)
  | _ =>
      let urls_to_try :=
        [ index_url version api_type; nested_index_url version api_type ] in
      newest ← or_raise IndexError (last versions);
      let urls_to_try :=
        if decide (version = newest)
        then (urls_to_try ++ [latest_index_url api_type])%list
        else urls_to_try in
      apis ← try_urls urls_to_try ∅;
      deprecated_html ← fetch_url (deprecated_url version api_type);
      let apis :=
        if nonempty_str deprecated_html
        then apis ∪ extract_apis_from_html deprecated_html
        else apis in
      let cache :=
        if nonempty_set apis && use_cache && writable cache_path
        then <[cache_path := Json (sorted_names apis)]> cache
        else cache in
      Ok (apis, cache)
  end.

End SymbolCache.

(** ** Boundary search ([find_api_history]) *)

(** The result dictionary.  [sr_fetched] is not a key of the dictionary:
    it logs, in call order, the versions handed to
    [get_api_list_for_version]. *)
Record SearchResult : Type := {
  sr_api_name : string;
  sr_api_type : string;
  sr_introduced : option string;
  sr_removed : option string;
  sr_present_in : list string;
  sr_not_found_in : list string;
  sr_versions_checked : nat;
  sr_fetched : list string
}.

Definition add_present (v : string) (r : SearchResult) : SearchResult :=
  {| sr_api_name := sr_api_name r; sr_api_type := sr_api_type r;
     sr_introduced := sr_introduced r; sr_removed := sr_removed r;
     sr_present_in := sr_present_in r ++ [v];
     sr_not_found_in := sr_not_found_in r;
     sr_versions_checked := sr_versions_checked r;
     sr_fetched := sr_fetched r |}.

Definition add_not_found (v : string) (r : SearchResult) : SearchResult :=
  {| sr_api_name := sr_api_name r; sr_api_type := sr_api_type r;
     sr_introduced := sr_introduced r; sr_removed := sr_removed r;
     sr_present_in := sr_present_in r;
     sr_not_found_in := sr_not_found_in r ++ [v];
     sr_versions_checked := sr_versions_checked r;
     sr_fetched := sr_fetched r |}.

(** One fetch followed by [result['versions_checked'] += 1]. *)
Definition count_fetch (v : string) (r : SearchResult) : SearchResult :=
  {| sr_api_name := sr_api_name r; sr_api_type := sr_api_type r;
     sr_introduced := sr_introduced r; sr_removed := sr_removed r;
     sr_present_in := sr_present_in r;
     sr_not_found_in := sr_not_found_in r;
     sr_versions_checked := sr_versions_checked r + 1;
     sr_fetched := sr_fetched r ++ [v] |}.

Definition set_present_in (l : list string) (r : SearchResult) : SearchResult :=
  {| sr_api_name := sr_api_name r; sr_api_type := sr_api_type r;
     sr_introduced := sr_introduced r; sr_removed := sr_removed r;
     sr_present_in := l;
     sr_not_found_in := sr_not_found_in r;
     sr_versions_checked := sr_versions_checked r;
     sr_fetched := sr_fetched r |}.

Definition set_introduced (v : string) (r : SearchResult) : SearchResult :=
  {| sr_api_name := sr_api_name r; sr_api_type := sr_api_type r;
     sr_introduced := Some v; sr_removed := sr_removed r;
     sr_present_in := sr_present_in r;
     sr_not_found_in := sr_not_found_in r;
     sr_versions_checked := sr_versions_checked r;
     sr_fetched := sr_fetched r |}.

Definition set_removed (v : string) (r : SearchResult) : SearchResult :=
  {| sr_api_name := sr_api_name r; sr_api_type := sr_api_type r;
     sr_introduced := sr_introduced r; sr_removed := Some v;
     sr_present_in := sr_present_in r;
     sr_not_found_in := sr_not_found_in r;
     sr_versions_checked := sr_versions_checked r;
     sr_fetched := sr_fetched r |}.

(** The dictionary [find_api_history] starts from. *)
Definition initial_result (api_name api_type : string) : SearchResult :=
  {| sr_api_name := api_name; sr_api_type := api_type;
     sr_introduced := None; sr_removed := None;
     sr_present_in := []; sr_not_found_in := [];
     sr_versions_checked := 0; sr_fetched := [] |}.

Section BoundarySearch.

Variable versions : list string.

(** [symbols v t] is the set the run's call
    [get_api_list_for_version(v, t)] returns. *)
Variable symbols : string -> string -> gset string.

Variables (api_name api_type : string) (full_scan : bool).

Definition found_in (v : string) : bool :=
  Py.contains (symbols v api_type) api_name.

(** The loop of the branch where the symbol is in the latest version. *)
Fixpoint introduced_loop (vs : list string) (r : SearchResult) : SearchResult :=
  match vs with
  | [] => r
  | version :: vs' =>
      let r := count_fetch version r in
      if found_in version then introduced_loop vs' (add_present version r)
      else
        let r := add_not_found version r in
        if negb full_scan then r else introduced_loop vs' r
  end.

(** The inner loop over the versions older than the one just found. *)
Fixpoint older_loop (vs : list string) (r : SearchResult) : SearchResult :=
  match vs with
  | [] => r
  | older_version :: vs' =>
      let r := count_fetch older_version r in
      if found_in older_version then older_loop vs' (add_present older_version r)
      else add_not_found older_version r
  end.

(** The loop of the branch where the symbol is not in the latest
    version. *)
Fixpoint removed_loop (versions_reversed vs : list string) (r : SearchResult)
  : outcome SearchResult :=
  match vs with
  | [] => Ok r
  | version :: vs' =>
      let r := count_fetch version r in
      if found_in version then
        let r := add_present version r in
        if negb full_scan then
          i ← Py.index versions_reversed version;
          Ok (older_loop (drop (i + 1) versions_reversed) r)
        else removed_loop versions_reversed vs' r
      else removed_loop versions_reversed vs' (add_not_found version r)
  end.

Definition find_api_history : outcome SearchResult :=
  let result := initial_result api_name api_type in
  let versions_reversed := reverse versions in
  latest ← Py.getitem versions_reversed 0;
  let result := count_fetch latest result in
  if found_in latest then
    let result := add_present latest result in
    let result := introduced_loop (drop 1 versions_reversed) result in
    present_in ← sorted_by_index versions (sr_present_in result);
    let result := set_present_in present_in result in
    first ← Py.getitem (sr_present_in result) 0;
    Ok (set_introduced first result)
  else
    let result := add_not_found latest result in
    result ← removed_loop versions_reversed (drop 1 versions_reversed) result;
    present_in ← sorted_by_index versions (sr_present_in result);
    let result := set_present_in present_in result in
    match sr_present_in result with
    | [] => Ok result
    | first :: _ =>
        let result := set_introduced first result in
        newest_present ← or_raise IndexError (last (sr_present_in result));
        last_present_idx ← Py.index versions newest_present;
        if decide (last_present_idx + 1 < length versions) then
          nxt ← Py.getitem versions (last_present_idx + 1);
          Ok (set_removed nxt result)
        else Ok result
    end.

End BoundarySearch.

(** ** [main] of [cuda_api_tracker.py] *)

Record TrackerArgs : Type := {
  ta_api_name : option string;
  ta_api_type : string;
  ta_verbose : bool;
  ta_compare : option (string * string);
  ta_clear_cache : bool;
  ta_no_cache : bool;
  ta_full_scan : bool
}.

Definition tracker_main (versions : list string)
    (symbols : string -> string -> gset string) (args : TrackerArgs) : outcome Z :=
  if ta_clear_cache args then Ok 0%Z
  else if bool_decide (is_Some (ta_compare args)) then Ok 0%Z
  else if negb (Py.truthy (ta_api_name args)) then Ok 1%Z
  else
    let api_name := default EmptyString (ta_api_name args) in
    let api_type :=
      if Py.startswith api_name "cu" && negb (Py.startswith api_name "cuda")
      then "driver" else ta_api_type args in
    result ← find_api_history versions symbols api_name api_type (ta_full_scan args);
    Ok (match sr_present_in result with [] => 1%Z | _ :: _ => 0%Z end).

(** ** Catalog builder ([generate_api_catalog]) *)

Record ApiInfo : Type := {
  ai_introduced : option string;
  ai_removed : option string;
  ai_status : string;
  ai_present_in : list string
}.

Record CatalogSummary : Type := {
  cs_total : nat;
  cs_present : nat;
  cs_removed : nat;
  cs_introduced_in_range : nat;
  cs_already_present : nat
}.

Record Catalog : Type := {
  cat_api_types : list string;
  cat_api_type : string;
  cat_since : string;
  cat_until : string;
  cat_total_apis : nat;
  cat_apis : gmap string ApiInfo;
  cat_summary : CatalogSummary
}.

(** The local variables of the scan of one symbol over the range. *)
Record Scan : Type := {
  first_seen : option string;
  removed : option string;
  present_in : list string
}.

(** [" + ".join(l)]. *)
Fixpoint join (sep : string) (l : list string) : string :=
  match l with
  | [] => EmptyString
  | [x] => x
  | x :: l' => x +:+ sep +:+ join sep l'
  end.

Definition api_type_str (api_types : list string) : outcome string :=
  if decide (1 < length api_types) then Ok (join " + " api_types)
  else Py.getitem api_types 0.

Section Builders.

Variable versions_all : list string.
Variable symbols : string -> string -> gset string.

(** The union over [api_types] of the sets fetched for [version]. *)
Definition fetch_version (api_types : list string) (version : string) : gset string :=
  foldl (fun apis api_type => apis ∪ symbols version api_type) ∅ api_types.

Definition fetch_all_versions (versions api_types : list string)
  : gmap string (gset string) :=
  foldl (fun version_apis version =>
           <[version := fetch_version api_types version]> version_apis)
        ∅ versions.

(** Body of the loop [for version in versions] for one symbol. *)
Definition scan_step (version_apis : gmap string (gset string)) (api : string)
    (st : Scan) (version : string) : outcome Scan :=
  apis ← or_raise KeyError (version_apis !! version);
  if Py.contains apis api then
    Ok {| present_in := present_in st ++ [version];
          first_seen := match first_seen st with
                        | None => Some version
                        | Some v => Some v
                        end;
          removed := removed st |}
  else
    match present_in st, removed st with
    | _ :: _, None =>
        Ok {| present_in := present_in st; first_seen := first_seen st;
              removed := Some version |}
    | _, _ => Ok st
    end.

Fixpoint scan (version_apis : gmap string (gset string)) (api : string)
    (versions : list string) (st : Scan) : outcome Scan :=
  match versions with
  | [] => Ok st
  | version :: versions' =>
      st ← scan_step version_apis api st version;
      scan version_apis api versions' st
  end.

(** Body of the loop [for api in sorted(all_apis)]: the record stored
    under [api]. *)
Definition api_info (version_apis : gmap string (gset string))
    (versions : list string) (api : string) : outcome ApiInfo :=
  st ← scan version_apis api versions
          {| first_seen := None; removed := None; present_in := [] |};
  newest ← or_raise IndexError (last versions);
  newest_apis ← or_raise KeyError (version_apis !! newest);
  let status :=
    if Py.contains newest_apis api then "present"
    else match present_in st with
         | _ :: _ => "removed"
         | [] => "never_present"
         end in
  oldest ← Py.getitem versions 0;
  let introduced :=
    if decide (first_seen st ≠ Some oldest) then first_seen st else None in
  Ok {| ai_introduced := introduced; ai_removed := removed st;
        ai_status := status; ai_present_in := present_in st |}.

Fixpoint catalog_loop (version_apis : gmap string (gset string))
    (versions : list string) (names : list string) (apis : gmap string ApiInfo)
  : outcome (gmap string ApiInfo) :=
  match names with
  | [] => Ok apis
  | api :: names' =>
      info ← api_info version_apis versions api;
      catalog_loop version_apis versions names' (<[api := info]> apis)
  end.

Definition count_infos (p : ApiInfo -> bool) (apis : gmap string ApiInfo) : nat :=
  length (filter (fun a => p a = true) (map_to_list apis).*2).

(** [generate_api_catalog] once [versions = get_version_range(since, until)]
    is known. *)
Definition catalog_of_range (versions api_types : list string) : outcome Catalog :=
  type_str ← api_type_str api_types;
  since_v ← Py.getitem versions 0;
  until_v ← or_raise IndexError (last versions);
  let version_apis := fetch_all_versions versions api_types in
  let all_apis : gset string := ⋃ (map_to_list version_apis).*2 in
  apis ← catalog_loop version_apis versions (sorted_names all_apis) ∅;
  Ok {| cat_api_types := api_types;
        cat_api_type := type_str;
        cat_since := since_v;
        cat_until := until_v;
        cat_total_apis := size all_apis;
        cat_apis := apis;
        cat_summary :=
          {| cs_total := size all_apis;
             cs_present :=
               count_infos (fun a => bool_decide (ai_status a = "present")) apis;
             cs_removed :=
               count_infos (fun a => bool_decide (ai_status a = "removed")) apis;
             cs_introduced_in_range :=
               count_infos (fun a => bool_decide (is_Some (ai_introduced a))) apis;
             cs_already_present :=
               count_infos (fun a => bool_decide (ai_introduced a = None)
                                     && bool_decide (ai_present_in a ≠ [])) apis |} |}.

Definition generate_api_catalog (since until : option string)
    (api_types : option (list string)) : outcome Catalog :=
  let api_types := default ["runtime"; "driver"] api_types in
  versions ← get_version_range versions_all since until;
  catalog_of_range versions api_types.

End Builders.

(** ** Changelog builder ([generate_changelog]) *)

Record VersionInfo : Type := {
  vi_version : string;
  vi_previous : option string;
  vi_total_apis : nat;
  vi_added : list string;
  vi_removed : list string;
  vi_added_count : nat;
  vi_removed_count : nat
}.

Record ChangelogSummary : Type := {
  sum_total_added : nat;
  sum_total_removed : nat;
  sum_all_added : list string;
  sum_all_removed : list string;
  sum_net_new : list string;
  sum_net_removed : list string
}.

Record Changelog : Type := {
  cl_api_types : list string;
  cl_api_type : string;
  cl_since : string;
  cl_until : string;
  cl_versions : list VersionInfo;
  cl_summary : ChangelogSummary
}.

(** What the loop over the range carries from one version to the next. *)
Record Diffing : Type := {
  prev_apis : option (gset string);
  prev_version : option string;
  entries : list VersionInfo;
  total_added : nat;
  total_removed : nat;
  all_added : list string;
  all_removed : list string
}.

Section ChangelogBuilder.

Variable versions_all : list string.
Variable symbols : string -> string -> gset string.

Definition diff_step (api_types : list string) (st : Diffing) (version : string)
  : Diffing :=
  let apis := fetch_version symbols api_types version in
  match prev_apis st with
  | Some prev =>
      let added := sorted_names (apis ∖ prev) in
      let removed := sorted_names (prev ∖ apis) in
      let version_info :=
        {| vi_version := version; vi_previous := prev_version st;
           vi_total_apis := size apis;
           vi_added := added; vi_removed := removed;
           vi_added_count := length added;
           vi_removed_count := length removed |} in
      {| prev_apis := Some apis; prev_version := Some version;
         entries := entries st ++ [version_info];
         total_added := total_added st + length added;
         total_removed := total_removed st + length removed;
         all_added := all_added st ++ added;
         all_removed := all_removed st ++ removed |}
  | None =>
      {| prev_apis := Some apis; prev_version := Some version;
         entries := entries st;
         total_added := total_added st;
         total_removed := total_removed st;
         all_added := all_added st;
         all_removed := all_removed st |}
  end.

Definition diff_loop (api_types versions : list string) : Diffing :=
  foldl (diff_step api_types)
        {| prev_apis := None; prev_version := None; entries := [];
           total_added := 0; total_removed := 0;
           all_added := []; all_removed := [] |}
        versions.

(** [generate_changelog] once [versions = get_version_range(since, until)]
    is known. *)
Definition changelog_of_range (versions api_types : list string)
  : outcome Changelog :=
  if decide (length versions < 2) then Raise (SystemExit 1)
  else
    type_str ← api_type_str api_types;
    since_v ← Py.getitem versions 0;
    until_v ← or_raise IndexError (last versions);
    let st := diff_loop api_types versions in
    let all_added := sorted_names (list_to_set (all_added st)) in
    let all_removed := sorted_names (list_to_set (all_removed st)) in
    let net_new : gset string := list_to_set all_added ∖ list_to_set all_removed in
    let net_removed : gset string := list_to_set all_removed ∖ list_to_set all_added in
    Ok {| cl_api_types := api_types;
          cl_api_type := type_str;
          cl_since := since_v;
          cl_until := until_v;
          cl_versions := entries st;
          cl_summary :=
            {| sum_total_added := total_added st;
               sum_total_removed := total_removed st;
               sum_all_added := all_added;
               sum_all_removed := all_removed;
               sum_net_new := sorted_names net_new;
               sum_net_removed := sorted_names net_removed |} |}.

Definition generate_changelog (since until : option string)
    (api_types : option (list string)) : outcome Changelog :=
  let api_types := default ["runtime"; "driver"] api_types in
  versions ← get_version_range versions_all since until;
  changelog_of_range versions api_types.

(** ** [main] of [cuda_api_changelog.py] *)

(** The rendering of the result and its output are left out: the value
    returned is 0 once the builder has returned. *)
Definition changelog_main (since until : option string) (api_type : string)
    (changelog : bool) : outcome Z :=
  let api_types :=
    if decide (api_type = "both") then ["runtime"; "driver"] else [api_type] in
  if changelog then
    _ ← generate_changelog since until (Some api_types); Ok 0%Z
  else
    _ ← generate_api_catalog versions_all symbols since until (Some api_types);
    Ok 0%Z.

End ChangelogBuilder.

(** ** Page fetcher ([fetch_url]) *)

Module Net.

(** What one call of [urlopen] followed by [read] and [decode] does: it
    gives the text of the page, or raises [HTTPError] or [URLError], or
    raises [IncompleteRead], [ConnectionResetError] or [TimeoutError], or
    raises some other [Exception]. *)
Inductive attempt : Type :=
| Body (text : string)
| HttpFailure
| Interrupted
| OtherError.

(** The value returned by [fetch_url], with the sleeps it made, in order
    and in seconds, and the number of calls of [urlopen]. *)
Record fetched : Type := {
  body : string;
  sleeps : list nat;
  attempts : nat
}.

(** The loop [for attempt in range(retries)], entered at [attempt] with
    [remaining] iterations to go; [net k] is what the call of [urlopen]
    number [k] does. *)
Fixpoint fetch_loop (net : nat -> attempt) (retries attempt remaining : nat)
    (slept : list nat) : fetched :=
  match remaining with
  | 0 => {| body := EmptyString; sleeps := slept; attempts := attempt |}
  | S remaining' =>
      match net attempt with
      | Body text =>
          {| body := text; sleeps := slept; attempts := attempt + 1 |}
      | HttpFailure =>
          {| body := EmptyString; sleeps := slept; attempts := attempt + 1 |}
      | Interrupted | OtherError =>
          if decide (attempt < retries - 1) then
            fetch_loop net retries (attempt + 1) remaining'
              (slept ++ [1 * (attempt + 1)])
          else
            {| body := EmptyString; sleeps := slept; attempts := attempt + 1 |}
      end
  end.

(** [request_ok] tells whether [Request(url, headers=headers)] can be
    built: it is built before the loop and outside its [try], so the
    [ValueError] of a URL without a scheme leaves the function. *)
Definition fetch_url (request_ok : bool) (net : nat -> attempt) (retries : nat)
  : outcome fetched :=
  if request_ok then Ok (fetch_loop net retries 0 retries [])
  else Raise ValueError.

End Net.

(** ** Group links of an index page ([ModuleIndexParser]) *)

Module ModuleIndexParser.

(** [sub in s] for strings. *)
Fixpoint in_str (sub s : string) : bool :=
  String.prefix sub s
  || match s with
     | EmptyString => false
     | String _ s' => in_str sub s'
     end.

(** [dict(attrs).get("href", "")]: the last [href] attribute wins; an
    attribute without a value is [None]. *)
Definition href_of (attrs : list (string * option string)) : option string :=
  foldl (fun acc kv => if decide (kv.1 = "href") then kv.2 else acc)
        (Some EmptyString) attrs.

(** [handle_starttag]; [None] stands for the [TypeError] of
    ["group__" in href] when [href] is [None]. *)
Definition handle_starttag (tag : string) (attrs : list (string * option string))
    (group_links : list string) : option (list string) :=
  if decide (tag = "a") then
    match href_of attrs with
    | None => None
    | Some href =>
        if in_str "group__" href && negb (bool_decide (href ∈ group_links))
        then Some (group_links ++ [href])
        else Some group_links
    end
  else Some group_links.

(** [parser.feed(html)] inside [try: ... except Exception: pass], over the
    start tags [HTMLParser] finds in the page: an exception ends the parse
    and the links collected so far stay in [parser.group_links]. *)
Fixpoint feed (tags : list (string * list (string * option string)))
    (group_links : list string) : list string :=
  match tags with
  | [] => group_links
  | (tag, attrs) :: tags' =>
      match handle_starttag tag attrs group_links with
      | Some group_links' => feed tags' group_links'
      | None => group_links
      end
  end.

End ModuleIndexParser.

(** ** CSV rendering of a changelog ([format_changelog_csv]) *)

Definition newline : string := String "010" EmptyString.

(** The f-string rendering of [v['previous']]. *)
Definition previous_str (v : VersionInfo) : string :=
  default "None" (vi_previous v).

Definition csv_rows (v : VersionInfo) : list string :=
  ((fun api => vi_version v +:+ "," +:+ previous_str v +:+ ",added," +:+ api)
     <$> vi_added v)
  ++ ((fun api => vi_version v +:+ "," +:+ previous_str v +:+ ",removed," +:+ api)
        <$> vi_removed v).

(** The list [lines] of [format_changelog_csv]. *)
Definition format_changelog_csv_lines (changelog : Changelog) : list string :=
  "version,previous_version,action,api_name"
  :: mjoin (csv_rows <$> cl_versions changelog).

Definition format_changelog_csv (changelog : Changelog) : string :=
  join newline (format_changelog_csv_lines changelog).

(** ** Inputs of the documented scenarios *)

(** Scenario A and B: [{1.0: {f}, 2.0: {f, g}, 3.0: {g}}]. *)
Definition sets_A (v t : string) : gset string :=
  if decide (t = "runtime") then
    if decide (v = "1.0") then {["f"]}
    else if decide (v = "2.0") then {["f"; "g"]}
    else if decide (v = "3.0") then {["g"]}
    else ∅
  else ∅.

(** Scenario D: [f] is in [3.0] only. *)
Definition only_in_3 (v t : string) : gset string :=
  if decide (v = "3.0") then {["f"]} else ∅.

(** [f] is in [1.0] and [3.0], and in no other version. *)
Definition in_1_and_3 (v t : string) : gset string :=
  if decide (v = "1.0" ∨ v = "3.0") then {["f"]} else ∅.

(** [f] is in every version before the [13.x] releases. *)
Definition gone_in_13 (v t : string) : gset string :=
  if Py.startswith v "13." then ∅ else {["f"]}.

(** Inputs for the cache: one page can be fetched, and the extractor finds
    [cudaMalloc] in it. *)
Definition one_page (url : string) : string :=
  if decide (url = "https://docs.nvidia.com/cuda/archive/12.0.0/cuda-runtime-api/index.html")
  then "<a href=#g>cudaMalloc</a>" else EmptyString.

Definition one_symbol (html : string) : gset string := {["cudaMalloc"]}.

(** No version holds any symbol. *)
Definition no_symbols (v t : string) : gset string := ∅.

Definition lookup_api (o : outcome Catalog) (api : string) : option ApiInfo :=
  match o with
  | Ok c => cat_apis c !! api
  | Raise _ => None
  end.

(** ** Vocabulary of the statements *)

(** Order of the (key, value) pairs by key. *)
Definition key_le {A} (x y : nat * A) : Prop := x.1 <= y.1.

(** Rank of a version: its position in the version list. *)
Definition rank (versions : list string) (v : string) : nat :=
  default 0 (Py.index_opt v versions).

Definition ranked (versions : list string) (v : string) : nat * string :=
  (rank versions v, v).

(** The symbol is in the set fetched for version [v]. *)
Definition present_at (symbols : string -> string -> gset string)
    (api_name api_type v : string) : Prop :=
  api_name ∈ symbols v api_type.

#[global] Instance present_at_dec symbols api_name api_type v :
  Decision (present_at symbols api_name api_type v).
Proof. unfold present_at. apply _. Defined.

(** The bookkeeping of a search agrees with its fetches: the counter is the
    number of fetches, every fetched version is filed under exactly one of
    [present_in] and [not_found_in], and only listed versions are fetched. *)
Definition well_logged (versions : list string) (r : SearchResult) : Prop :=
  sr_versions_checked r = length (sr_fetched r)
  /\ sr_fetched r ≡ₚ sr_present_in r ++ sr_not_found_in r
  /\ (forall v, v ∈ sr_fetched r -> v ∈ versions).

(** The versions skipped while the symbol is not found. *)
Definition skip_absent (absents : list string) (r : SearchResult) : SearchResult :=
  foldl (fun r v => add_not_found v (count_fetch v r)) r absents.

(** The symbol [api] is in the set of version [v]. *)
Definition listed (sets : string -> gset string) (api v : string) : Prop :=
  api ∈ sets v.

#[global] Instance listed_dec sets api v : Decision (listed sets api v).
Proof. unfold listed. apply _. Defined.

(** [scan_step] read over the family of per-version sets rather than the
    dictionary holding them. *)
Definition scan_step_sets (sets : string -> gset string) (api : string)
    (st : Scan) (version : string) : Scan :=
  if Py.contains (sets version) api then
    {| present_in := present_in st ++ [version];
       first_seen := match first_seen st with
                     | None => Some version
                     | Some v => Some v
                     end;
       removed := removed st |}
  else
    match present_in st, removed st with
    | _ :: _, None =>
        {| present_in := present_in st; first_seen := first_seen st;
           removed := Some version |}
    | _, _ => st
    end.

Definition scan_start : Scan :=
  {| first_seen := None; removed := None; present_in := [] |}.

(** The record the catalog stores for [api], read over the family of
    per-version sets. *)
Definition lifecycle (sets : string -> gset string) (versions : list string)
    (api : string) : ApiInfo :=
  let st := foldl (scan_step_sets sets api) scan_start versions in
  {| ai_introduced :=
       if decide (first_seen st ≠ head versions) then first_seen st else None;
     ai_removed := removed st;
     ai_status :=
       if Py.contains (sets (default EmptyString (last versions))) api
       then "present"
       else match present_in st with
            | _ :: _ => "removed"
            | [] => "never_present"
            end;
     ai_present_in := present_in st |}.

(** [l] is the set [s] as an ascending sequence without repetition. *)
Definition sorted_set_of (l : list string) (s : gset string) : Prop :=
  Sorted String.le l /\ NoDup l /\ forall x, x ∈ l <-> x ∈ s.

(** The changelog entry of the consecutive pair [(prev, curr)], read over
    the family of per-version sets. *)
Definition diff_entry (sets : string -> gset string) (prev curr : string)
  : VersionInfo :=
  {| vi_version := curr; vi_previous := Some prev;
     vi_total_apis := size (sets curr);
     vi_added := sorted_names (sets curr ∖ sets prev);
     vi_removed := sorted_names (sets prev ∖ sets curr);
     vi_added_count := length (sorted_names (sets curr ∖ sets prev));
     vi_removed_count := length (sorted_names (sets prev ∖ sets curr)) |}.

(** The entries of the consecutive pairs of [prev :: vs]. *)
Fixpoint entries_from (sets : string -> gset string) (prev : string)
    (vs : list string) : list VersionInfo :=
  match vs with
  | [] => []
  | v :: vs' => diff_entry sets prev v :: entries_from sets v vs'
  end.

(** The names a call of [get_api_list_for_version] finds in the cache, if
    it may use the cache and the file is there and readable. *)
Definition cached (use_cache : bool) (cache : gmap string cache_file)
    (cache_path : string) : option (list string) :=
  match (if use_cache then cache !! cache_path else None) with
  | Some (Json names) => Some names
  | _ => None
  end.

(** The category [main] searches: the requested one, or the driver API
    when the name starts with [cu] but not with [cuda]. *)
Definition searched_api_type (api_name requested : string) : string :=
  if Py.startswith api_name "cu" && negb (Py.startswith api_name "cuda")
  then "driver" else requested.

(** A version string with at least a major and a minor number. *)
Definition well_formed_version (v : string) : Prop :=
  exists major minor rest, version_parts v = Ok (major :: minor :: rest).

(** The numeric rule of the resolver: the major number of [v] is the first
    number of the token and, when the token has a second number, the minor
    number of [v] is at least that. *)
Definition matches_numeric (target_parts : list Z) (v : string) : Prop :=
  exists major minor rest,
    version_parts v = Ok (major :: minor :: rest)
    /\ target_parts !! 0 = Some major
    /\ (length target_parts = 1
        \/ exists tminor, target_parts !! 1 = Some tminor /\ (minor >= tminor)%Z).

(** The part of [find_api_history] that fetches: the check of the latest
    version and the loop of the branch it selects, before [present_in] is
    sorted and the two boundaries are written. *)
Definition search_walk (versions : list string)
    (symbols : string -> string -> gset string)
    (api_name api_type : string) (full_scan : bool) : outcome SearchResult :=
  match reverse versions with
  | [] => Raise IndexError
  | latest :: older =>
      let r := count_fetch latest (initial_result api_name api_type) in
      if found_in symbols api_name api_type latest then
        Ok (introduced_loop symbols api_name api_type full_scan older
              (add_present latest r))
      else
        removed_loop symbols api_name api_type full_scan (latest :: older) older
          (add_not_found latest r)
  end.

(** [r'] is [r] after fetching the versions [seg], in that order: each is
    counted, logged and filed under [present_in] or [not_found_in], and the
    two boundaries are untouched. *)
Definition extends_by (symbols : string -> string -> gset string)
    (api_name api_type : string) (r r' : SearchResult) (seg : list string)
  : Prop :=
  sr_fetched r' = sr_fetched r ++ seg
  /\ sr_versions_checked r' = sr_versions_checked r + length seg
  /\ sr_present_in r'
     = sr_present_in r ++ filter (present_at symbols api_name api_type) seg
  /\ sr_not_found_in r'
     = sr_not_found_in r
       ++ filter (fun v => ~ present_at symbols api_name api_type v) seg
  /\ sr_introduced r' = sr_introduced r
  /\ sr_removed r' = sr_removed r.

(** [x] was extracted from a page that could be fetched. *)
Definition extracted (response : string -> string)
    (extract_apis_from_html : string -> gset string) (x : string) : Prop :=
  exists url, nonempty_str (response url) = true
              /\ x ∈ extract_apis_from_html (response url).

(** What the loop over the group links collects when no fetch raises. *)
Definition groups_symbols (response : string -> string)
    (extract_apis_from_html : string -> gset string)
    (base_path : string) (links : list string) (apis : gset string)
  : gset string :=
  foldl (fun apis link =>
           let group_html := response (group_url base_path link) in
           if nonempty_str group_html
           then apis ∪ extract_apis_from_html group_html
           else apis)
        apis links.

(** What the loop over the candidate URLs collects when no fetch raises. *)
Fixpoint candidates_symbols (response : string -> string)
    (extract_apis_from_html : string -> gset string)
    (group_links : string -> list string)
    (urls : list string) (apis : gset string) : gset string :=
  match urls with
  | [] => apis
  | base_url :: urls' =>
      let html := response base_url in
      if nonempty_str html then
        let apis :=
          groups_symbols response extract_apis_from_html
            (Py.rsplit1_head "/" base_url) (take 20 (group_links html))
            (apis ∪ extract_apis_from_html html) in
        if nonempty_set apis then apis
        else candidates_symbols response extract_apis_from_html group_links
               urls' apis
      else candidates_symbols response extract_apis_from_html group_links
             urls' apis
  end.

(** The candidate URLs of a version, [newest] being the last listed one. *)
Definition candidate_urls (newest version api_type : string) : list string :=
  if decide (version = newest)
  then [ index_url version api_type; nested_index_url version api_type ]
       ++ [ latest_index_url api_type ]
  else [ index_url version api_type; nested_index_url version api_type ].

(** The set a call computes on a cache miss when no fetch raises: what the
    candidates give, with the symbols of the deprecated-functions page. *)
Definition fetched_symbols (response : string -> string)
    (extract_apis_from_html : string -> gset string)
    (group_links : string -> list string)
    (newest version api_type : string) : gset string :=
  let found :=
    candidates_symbols response extract_apis_from_html group_links
      (candidate_urls newest version api_type) ∅ in
  let deprecated_html := response (deprecated_url version api_type) in
  if nonempty_str deprecated_html
  then found ∪ extract_apis_from_html deprecated_html
  else found.

(** [Request] accepts every URL that starts with [https://]. *)
Definition https_accepted (request_accepts : string -> bool) : Prop :=
  forall url, Py.startswith url "https://" = true -> request_accepts url = true.

(** Every link of [links] that is fetched as it stands, because it starts
    with [http], is a URL that [Request] accepts. *)
Definition links_accepted (request_accepts : string -> bool)
    (links : list string) : Prop :=
  forall link, link ∈ links -> Py.startswith link "http" = true ->
               request_accepts link = true.

(** A URL that starts with [https://] and has a slash after that: the
    path of its directory starts with [https://] too. *)
Definition docs_url (url : string) : Prop :=
  Py.startswith url "https://" = true
  /\ exists rest, Py.rsplit1_head "/" url = "https://" +:+ rest.

(** [links_accepted] for the first 20 links of every page that can be
    fetched. *)
Definition pages_links_accepted (request_accepts : string -> bool)
    (response : string -> string) (group_links : string -> list string)
  : Prop :=
  forall url, nonempty_str (response url) = true ->
              links_accepted request_accepts (take 20 (group_links (response url))).

(** * Properties *)

(** ** Lists, [index] and sorting *)

Lemma index_opt_lookup (x : string) (l : list string) (i : nat) :
  Py.index_opt x l = Some i -> l !! i = Some x.
Proof.
  revert i. induction l as [|y l IH]; intros i; simpl; [done|].
  destruct (decide (x = y)) as [->|Hne].
  - intros [= <-]. reflexivity.
  - destruct (Py.index_opt x l) as [j|]; simpl; [|done].
    intros [= <-]. simpl. by apply IH.
Qed.

Lemma index_opt_elem (x : string) (l : list string) :
  x ∈ l -> is_Some (Py.index_opt x l).
Proof.
  induction l as [|y l IH]; [by intros ?%elem_of_nil|].
  intros Hx. simpl. destruct (decide (x = y)); [by eexists|].
  apply elem_of_cons in Hx as [?|Hx]; [done|].
  destruct (IH Hx) as [j ->]. by eexists.
Qed.

Lemma index_opt_app_fresh (x : string) (a b : list string) :
  x ∉ a -> Py.index_opt x (a ++ x :: b) = Some (length a).
Proof.
  induction a as [|y a IH]; simpl; intros Hx.
  - by rewrite decide_True.
  - apply not_elem_of_cons in Hx as [Hne Hx].
    rewrite decide_False by done. by rewrite IH.
Qed.

Lemma index_opt_NoDup (x : string) (l : list string) (i : nat) :
  NoDup l -> l !! i = Some x -> Py.index_opt x l = Some i.
Proof.
  intros Hnd Hi.
  destruct (index_opt_elem x l) as [j Hj]; [by eapply list_elem_of_lookup_2|].
  rewrite Hj. f_equal.
  eapply NoDup_lookup; eauto using index_opt_lookup.
Qed.

Section SortByKey.
Context {A : Type}.

Lemma insert_by_key_perm (x : nat * A) (l : list (nat * A)) :
  insert_by_key x l ≡ₚ x :: l.
Proof.
  induction l as [|y l IH]; simpl; [done|].
  destruct (x.1 <=? y.1)%nat; [done|].
  rewrite IH. apply Permutation_swap.
Qed.

Lemma sort_by_key_perm (l : list (nat * A)) : sort_by_key l ≡ₚ l.
Proof.
  induction l as [|x l IH]; simpl; [done|].
  rewrite insert_by_key_perm. by rewrite IH.
Qed.

Lemma insert_by_key_sorted (x : nat * A) (l : list (nat * A)) :
  StronglySorted key_le l -> StronglySorted key_le (insert_by_key x l).
Proof.
  induction 1 as [|y l Hl IH Hy]; simpl.
  - repeat constructor.
  - destruct (Nat.leb_spec x.1 y.1) as [Hle|Hgt].
    + constructor; [by constructor|].
      constructor; [done|].
      eapply Forall_impl; [exact Hy|]. unfold key_le. intros; lia.
    + constructor; [done|].
      rewrite insert_by_key_perm. constructor; [|done].
      unfold key_le. lia.
Qed.

Lemma sort_by_key_sorted (l : list (nat * A)) :
  StronglySorted key_le (sort_by_key l).
Proof.
  induction l as [|x l IH]; simpl; [constructor|].
  by apply insert_by_key_sorted.
Qed.
End SortByKey.

Lemma StronglySorted_sublist {A} (R : relation A) (l1 l2 : list A) :
  sublist l1 l2 -> StronglySorted R l2 -> StronglySorted R l1.
Proof.
  induction 1 as [|x l1 l2 Hsub IH|x l1 l2 Hsub IH]; intros Hs; [done|..].
  - apply StronglySorted_inv in Hs as [Hs Hx]. constructor; [by apply IH|].
    apply Forall_forall. intros y Hy. rewrite Forall_forall in Hx.
    apply Hx. eapply elem_of_sublist; eauto.
  - apply StronglySorted_inv in Hs as [Hs _]. by apply IH.
Qed.

Section SortedByIndex.
Variable versions : list string.

Local Abbreviation rank := (rank versions).
Local Abbreviation ranked := (ranked versions).

Lemma rank_lookup (v : string) : v ∈ versions -> versions !! rank v = Some v.
Proof.
  intros [k Hk]%index_opt_elem. unfold rank. rewrite Hk. simpl.
  by apply index_opt_lookup.
Qed.

Lemma rank_inj (v w : string) :
  v ∈ versions -> w ∈ versions -> rank v = rank w -> v = w.
Proof.
  intros Hv%rank_lookup Hw%rank_lookup Heq. rewrite Heq in Hv. congruence.
Qed.

Lemma comprehension_rank (l : list string) :
  (forall v, v ∈ l -> v ∈ versions) ->
  Py.comprehension (Py.index versions) l = Ok (rank <$> l).
Proof.
  induction l as [|v l IH]; intros Hin; simpl; [done|].
  destruct (index_opt_elem v versions) as [k Hk]; [apply Hin; by left|].
  rewrite IH by (intros; apply Hin; by right).
  unfold Py.index, rank. rewrite Hk. reflexivity.
Qed.

Lemma zip_rank (l : list string) : zip (rank <$> l) l = ranked <$> l.
Proof. induction l as [|v l IH]; csimpl; [done|]. by f_equal. Qed.

Lemma sorted_by_index_perm (l : list string) :
  (forall v, v ∈ l -> v ∈ versions) ->
  exists l', sorted_by_index versions l = Ok l' /\ l' ≡ₚ l.
Proof.
  intros Hin. unfold sorted_by_index.
  rewrite (comprehension_rank l Hin). simpl. eexists; split; [done|].
  rewrite zip_rank, sort_by_key_perm, <-list_fmap_compose.
  by rewrite list_fmap_id.
Qed.

Lemma rank_sorted_suffix (pre l : list string) :
  versions = pre ++ l -> NoDup versions ->
  StronglySorted (fun v w => rank v <= rank w) l.
Proof.
  revert pre. induction l as [|v l IH]; intros pre Heq Hnd; [constructor|].
  constructor.
  - apply (IH (pre ++ [v])); [by rewrite <-app_assoc|done].
  - assert (rank v = length pre) as Hv.
    { unfold rank. rewrite Heq, index_opt_app_fresh; [done|].
      rewrite Heq in Hnd. apply NoDup_app in Hnd as (_ & Hdis & _).
      intros Hv. apply (Hdis v Hv). by left. }
    apply Forall_forall. intros w Hw.
    apply list_elem_of_lookup in Hw as [j Hj].
    assert (versions !! (length pre + S j) = Some w) as Hw.
    { rewrite Heq, lookup_app_r by lia.
      replace (length pre + S j - length pre) with (S j) by lia. done. }
    unfold rank at 2. rewrite (index_opt_NoDup _ _ _ Hnd Hw). simpl. lia.
Qed.

Lemma sorted_by_index_sublist (l l' : list string) :
  NoDup versions -> sublist l versions -> l' ≡ₚ l ->
  sorted_by_index versions l' = Ok l.
Proof.
  intros Hnd Hsub Hperm.
  assert (forall v, v ∈ l -> v ∈ versions) as Hin.
  { intros v Hv. eapply elem_of_sublist; eauto. }
  assert (forall v, v ∈ l' -> v ∈ versions) as Hin'.
  { intros v Hv. apply Hin. by rewrite <-Hperm. }
  unfold sorted_by_index. rewrite (comprehension_rank l' Hin'). simpl.
  rewrite zip_rank. f_equal.
  assert (sort_by_key (ranked <$> l') = ranked <$> l) as ->.
  { apply (StronglySorted_unique_strong key_le).
    - intros [k1 v1] [k2 v2] H1 H2 Hle1 Hle2. unfold key_le in *. simpl in *.
      rewrite sort_by_key_perm in H1.
      apply list_elem_of_fmap in H1 as (w1 & [= -> ->] & Hw1).
      apply list_elem_of_fmap in H2 as (w2 & [= -> ->] & Hw2).
      assert (w1 = w2) as ->; [|done].
      apply rank_inj; [auto..|lia].
    - apply sort_by_key_sorted.
    - apply StronglySorted_fmap with (R1 := fun v w => rank v <= rank w);
        [by intros ??|].
      eapply StronglySorted_sublist; [exact Hsub|].
      by apply (rank_sorted_suffix []).
    - by rewrite sort_by_key_perm, Hperm. }
  rewrite <-list_fmap_compose. by rewrite list_fmap_id.
Qed.
End SortedByIndex.

(** ** Boundary search: bookkeeping *)

Section SearchLog.
Variable versions : list string.
Variable symbols : string -> string -> gset string.
Variables (api_name api_type : string) (full_scan : bool).

Local Abbreviation found := (found_in symbols api_name api_type).
Local Abbreviation present := (present_at symbols api_name api_type).

Lemma found_in_true (v : string) : found v = true <-> present v.
Proof. unfold found_in, Py.contains. apply bool_decide_eq_true. Qed.

Lemma found_in_false (v : string) : found v = false <-> ~ present v.
Proof. unfold found_in, Py.contains. apply bool_decide_eq_false. Qed.

Lemma well_logged_present (v : string) (r : SearchResult) :
  v ∈ versions -> well_logged versions r ->
  well_logged versions (add_present v (count_fetch v r)).
Proof.
  intros Hv (Hn & Hp & Hin). repeat split; simpl.
  - rewrite length_app, Hn. simpl. lia.
  - rewrite Hp. rewrite <-!app_assoc. apply Permutation_app_head.
    apply Permutation_app_comm.
  - intros w [Hw| ->%list_elem_of_singleton]%elem_of_app; auto.
Qed.

Lemma well_logged_not_found (v : string) (r : SearchResult) :
  v ∈ versions -> well_logged versions r ->
  well_logged versions (add_not_found v (count_fetch v r)).
Proof.
  intros Hv (Hn & Hp & Hin). repeat split; simpl.
  - rewrite length_app, Hn. simpl. lia.
  - rewrite Hp. by rewrite <-!app_assoc.
  - intros w [Hw| ->%list_elem_of_singleton]%elem_of_app; auto.
Qed.

Lemma introduced_loop_logged (vs : list string) (r : SearchResult) :
  (forall v, v ∈ vs -> v ∈ versions) -> well_logged versions r ->
  well_logged versions (introduced_loop symbols api_name api_type full_scan vs r).
Proof.
  revert r. induction vs as [|v vs IH]; intros r Hvs Hr; simpl; [done|].
  assert (v ∈ versions) as Hv by (apply Hvs; by left).
  assert (forall w, w ∈ vs -> w ∈ versions) as Hvs' by (intros; apply Hvs; by right).
  destruct (found v).
  - apply IH; [done|]. by apply well_logged_present.
  - destruct (negb full_scan).
    + by apply well_logged_not_found.
    + apply IH; [done|]. by apply well_logged_not_found.
Qed.

Lemma older_loop_logged (vs : list string) (r : SearchResult) :
  (forall v, v ∈ vs -> v ∈ versions) -> well_logged versions r ->
  well_logged versions (older_loop symbols api_name api_type vs r).
Proof.
  revert r. induction vs as [|v vs IH]; intros r Hvs Hr; simpl; [done|].
  assert (v ∈ versions) as Hv by (apply Hvs; by left).
  destruct (found v).
  - apply IH; [intros; apply Hvs; by right|]. by apply well_logged_present.
  - by apply well_logged_not_found.
Qed.

Lemma removed_loop_logged (vr vs : list string) (r : SearchResult) :
  (forall v, v ∈ vr -> v ∈ versions) -> (forall v, v ∈ vs -> v ∈ vr) ->
  well_logged versions r ->
  exists r', removed_loop symbols api_name api_type full_scan vr vs r = Ok r'
             /\ well_logged versions r'.
Proof.
  intros Hvr. revert r. induction vs as [|v vs IH]; intros r Hvs Hr; simpl.
  { by exists r. }
  assert (v ∈ vr) as Hv by (apply Hvs; by left).
  assert (forall w, w ∈ vs -> w ∈ vr) as Hvs' by (intros; apply Hvs; by right).
  destruct (found v).
  - destruct (negb full_scan).
    + destruct (index_opt_elem v vr Hv) as [i Hi].
      unfold Py.index. rewrite Hi. simpl. eexists; split; [done|].
      apply older_loop_logged.
      * intros w Hw. apply Hvr. by apply (subseteq_drop (i + 1) vr).
      * apply well_logged_present; auto.
    + apply IH; [done|]. apply well_logged_present; auto.
  - apply IH; [done|]. apply well_logged_not_found; auto.
Qed.

Lemma set_present_in_logged (l : list string) (r : SearchResult) :
  l ≡ₚ sr_present_in r -> well_logged versions r ->
  well_logged versions (set_present_in l r).
Proof.
  intros Hl (Hn & Hp & Hin). repeat split; simpl; [done| |done].
  by rewrite Hl.
Qed.

Lemma present_in_listed (r : SearchResult) (v : string) :
  well_logged versions r -> v ∈ sr_present_in r -> v ∈ versions.
Proof.
  intros (_ & Hp & Hin) Hv. apply Hin. rewrite Hp. apply elem_of_app. by left.
Qed.

Lemma introduced_loop_keeps (vs : list string) (r : SearchResult) (v : string) :
  v ∈ sr_present_in r ->
  v ∈ sr_present_in (introduced_loop symbols api_name api_type full_scan vs r).
Proof.
  revert r. induction vs as [|w vs IH]; intros r Hv; simpl; [done|].
  destruct (found w).
  - apply IH. simpl. apply elem_of_app. by left.
  - destruct (negb full_scan); [done|]. by apply IH.
Qed.

(** The search returns a result whenever the version list is not empty,
    and its bookkeeping agrees with its fetches. *)
Lemma find_api_history_logged :
  versions <> [] ->
  exists r, find_api_history versions symbols api_name api_type full_scan = Ok r
            /\ well_logged versions r.
Proof.
  intros Hne. unfold find_api_history.
  destruct (reverse versions) as [|latest older] eqn:Hrev.
  { apply (f_equal reverse) in Hrev. rewrite reverse_involutive in Hrev. done. }
  assert (forall v, v ∈ latest :: older -> v ∈ versions) as Hvr.
  { intros v Hv. rewrite <-Hrev in Hv. exact (proj1 (elem_of_reverse _ _) Hv). }
  simpl. rewrite drop_0.
  set (r0 := initial_result api_name api_type).
  assert (well_logged versions r0) as Hr0.
  { repeat split; simpl; [done|]. by intros v ?%elem_of_nil. }
  destruct (found latest) eqn:Hlatest.
  - set (r1 := introduced_loop _ _ _ _ _ _).
    assert (well_logged versions r1) as Hr1.
    { apply introduced_loop_logged; [intros; apply Hvr; by right|].
      apply (well_logged_present latest r0); [apply Hvr; by left|done]. }
    destruct (sorted_by_index_perm versions (sr_present_in r1)) as (l & Hl & Hperm).
    { intros v. by apply present_in_listed. }
    rewrite Hl. simpl.
    destruct l as [|first l].
    + exfalso. apply Permutation_nil_l in Hperm.
      assert (latest ∈ sr_present_in r1) as Hin.
      { apply introduced_loop_keeps. simpl. by left. }
      rewrite <-Hperm in Hin. by apply elem_of_nil in Hin.
    + simpl. eexists; split; [done|].
      by apply (set_present_in_logged (first :: l) r1).
  - destruct (removed_loop_logged (latest :: older) older
                (add_not_found latest (count_fetch latest r0)))
      as (r1 & Hloop & Hr1); [done|by intros; right|..].
    { apply (well_logged_not_found latest r0); [apply Hvr; by left|done]. }
    rewrite Hloop. simpl.
    destruct (sorted_by_index_perm versions (sr_present_in r1)) as (l & Hl & Hperm).
    { intros v. by apply present_in_listed. }
    rewrite Hl. simpl.
    pose proof (set_present_in_logged l r1 Hperm Hr1) as Hr2.
    destruct l as [|first l]; [by eexists|].
    destruct (last (first :: l)) as [p|] eqn:Hlast;
      [|by apply last_None in Hlast].
    simpl.
    assert (p ∈ versions) as Hp.
    { apply (present_in_listed (set_present_in (first :: l) r1)); [done|].
      simpl. by apply last_Some_elem_of. }
    destruct (index_opt_elem p versions Hp) as [i Hi].
    unfold Py.index. rewrite Hi. simpl.
    destruct (decide (i + 1 < length versions)) as [Hlt|Hge].
    + destruct (lookup_lt_is_Some_2 versions (i + 1) Hlt) as [nxt Hnxt].
      unfold Py.getitem. rewrite Hnxt. simpl. eexists; split; [done|].
      exact Hr2.
    + eexists; split; [done|]. exact Hr2.
Qed.

End SearchLog.

(** ** Boundary search: what the loops collect *)

Section SearchLoops.
Variable versions : list string.
Variable symbols : string -> string -> gset string.
Variables (api_name api_type : string).

Local Abbreviation found := (found_in symbols api_name api_type).
Local Abbreviation present := (present_at symbols api_name api_type).

Lemma filter_present_cons (v : string) (vs : list string) :
  filter present (v :: vs)
  = if found v then v :: filter present vs else filter present vs.
Proof.
  destruct (found v) eqn:Hv.
  - apply filter_cons_True. by apply found_in_true.
  - apply filter_cons_False. by apply found_in_false.
Qed.

(** Full scan, symbol in the latest version: every older version holding
    the symbol is collected, and [removed] is left alone. *)
Lemma introduced_loop_full (vs : list string) (r : SearchResult) :
  let r' := introduced_loop symbols api_name api_type true vs r in
  sr_present_in r' = sr_present_in r ++ filter present vs
  /\ sr_removed r' = sr_removed r.
Proof.
  revert r. induction vs as [|v vs IH]; intros r; simpl.
  { by rewrite app_nil_r. }
  rewrite filter_present_cons. destruct (found v); simpl.
  - destruct (IH (add_present v (count_fetch v r))) as [-> ->]. simpl.
    by rewrite <-app_assoc.
  - destruct (IH (add_not_found v (count_fetch v r))) as [-> ->]. done.
Qed.

Lemma introduced_loop_removed (full_scan : bool) (vs : list string) (r : SearchResult) :
  sr_removed (introduced_loop symbols api_name api_type full_scan vs r)
  = sr_removed r.
Proof.
  revert r. induction vs as [|v vs IH]; intros r; simpl; [done|].
  destruct (found v); [by rewrite IH|].
  destruct (negb full_scan); [done|by rewrite IH].
Qed.

Lemma skip_absent_present_in (absents : list string) (r : SearchResult) :
  sr_present_in (skip_absent absents r) = sr_present_in r.
Proof.
  revert r. induction absents as [|v vs IH]; intros r; simpl; [done|].
  by rewrite IH.
Qed.

(** The inner loop collects the unbroken run of versions holding the
    symbol and stops at the first version without it. *)
Lemma older_loop_run (run stop : list string) (r : SearchResult) :
  Forall present run ->
  (forall a rest, stop = a :: rest -> ~ present a) ->
  sr_present_in (older_loop symbols api_name api_type (run ++ stop) r)
  = sr_present_in r ++ run.
Proof.
  intros Hrun Hstop. revert r.
  induction Hrun as [|v run Hv Hrun IH]; intros r; simpl.
  - rewrite app_nil_r. destruct stop as [|a rest]; simpl; [done|].
    assert (found a = false) as ->; [|done].
    apply found_in_false. by eapply Hstop.
  - apply found_in_true in Hv. rewrite Hv, IH. simpl. by rewrite <-app_assoc.
Qed.

(** Boundary-stop mode, symbol not in the latest version: the outer loop
    skips the versions without the symbol, and hands over to the inner
    loop at the newest version holding it. *)
Lemma removed_loop_boundary (pre absents rest : list string) (p : string)
    (r : SearchResult) :
  NoDup (pre ++ absents ++ p :: rest) ->
  Forall (fun v => ~ present v) absents -> present p ->
  removed_loop symbols api_name api_type false
    (pre ++ absents ++ p :: rest) (absents ++ p :: rest) r
  = Ok (older_loop symbols api_name api_type rest
          (add_present p (count_fetch p (skip_absent absents r)))).
Proof.
  intros Hnd Habs Hp. revert pre r Hnd.
  induction Habs as [|a absents Ha Habs IH]; intros pre r Hnd; simpl.
  - apply found_in_true in Hp. rewrite Hp. simpl.
    unfold Py.index. rewrite index_opt_app_fresh.
    + simpl. f_equal. f_equal.
      rewrite (cons_middle p pre rest), app_assoc.
      apply drop_app_length'. rewrite length_app. simpl. lia.
    + apply NoDup_app in Hnd as (_ & Hdis & _). intros Hin.
      apply (Hdis p Hin). by left.
  - apply found_in_false in Ha. rewrite Ha.
    specialize (IH (pre ++ [a]) (add_not_found a (count_fetch a r))).
    rewrite <-!app_assoc in IH. simpl in IH. by apply IH.
Qed.

(** Full scan, symbol not in the latest version: every older version
    holding the symbol is collected. *)
Lemma removed_loop_full (vr vs : list string) (r : SearchResult) :
  exists r', removed_loop symbols api_name api_type true vr vs r = Ok r'
             /\ sr_present_in r' = sr_present_in r ++ filter present vs.
Proof.
  revert r. induction vs as [|v vs IH]; intros r; simpl.
  { exists r. by rewrite app_nil_r. }
  rewrite filter_present_cons. destruct (found v); simpl.
  - destruct (IH (add_present v (count_fetch v r))) as (r' & -> & Hr').
    exists r'. split; [done|]. rewrite Hr'. simpl. by rewrite <-app_assoc.
  - destruct (IH (add_not_found v (count_fetch v r))) as (r' & -> & Hr').
    exists r'. split; [done|]. by rewrite Hr'.
Qed.

End SearchLoops.

(** ** Boundary search: the result *)

Section SearchResults.
Variable versions : list string.
Variable symbols : string -> string -> gset string.
Variables (api_name api_type : string).

Local Abbreviation found := (found_in symbols api_name api_type).
Local Abbreviation present := (present_at symbols api_name api_type).
Local Abbreviation search := (find_api_history versions symbols api_name api_type).

(** The branch taken when the symbol is in the latest version. *)
Lemma find_present (full_scan : bool) (latest first : string)
    (older_rev rest : list string) :
  reverse versions = latest :: older_rev -> found latest = true ->
  let r1 := introduced_loop symbols api_name api_type full_scan older_rev
              (add_present latest
                 (count_fetch latest (initial_result api_name api_type))) in
  sorted_by_index versions (sr_present_in r1) = Ok (first :: rest) ->
  search full_scan = Ok (set_introduced first (set_present_in (first :: rest) r1)).
Proof.
  intros Hrev Hlatest r1 Hsort. unfold find_api_history.
  rewrite Hrev. simpl. rewrite Hlatest, drop_0. fold r1. by rewrite Hsort.
Qed.

(** The branch taken when the symbol is not in the latest version, once
    the symbol has been found in an older one. *)
Lemma find_absent (full_scan : bool) (latest p n : string)
    (older_rev sorted a b : list string) (r1 : SearchResult) :
  reverse versions = latest :: older_rev -> found latest = false ->
  removed_loop symbols api_name api_type full_scan (latest :: older_rev) older_rev
    (add_not_found latest (count_fetch latest (initial_result api_name api_type)))
  = Ok r1 ->
  sorted_by_index versions (sr_present_in r1) = Ok sorted ->
  last sorted = Some p -> versions = a ++ p :: n :: b -> NoDup versions ->
  exists r, search full_scan = Ok r
            /\ sr_introduced r = head sorted
            /\ sr_removed r = Some n
            /\ sr_present_in r = sorted.
Proof.
  intros Hrev Hlatest Hloop Hsort Hlast Hver Hnd. unfold find_api_history.
  rewrite Hrev. simpl. rewrite Hlatest, drop_0, Hloop. simpl.
  rewrite Hsort. simpl.
  destruct sorted as [|first rest]; [done|].
  rewrite Hlast. simpl.
  assert (Py.index_opt p versions = Some (length a)) as Hidx.
  { apply index_opt_NoDup; [done|]. rewrite Hver. by apply list_lookup_middle. }
  unfold Py.index. rewrite Hidx. simpl.
  assert (versions !! (length a + 1) = Some n) as Hn.
  { rewrite Hver, (cons_middle p a), app_assoc.
    apply list_lookup_middle. rewrite length_app. simpl. lia. }
  rewrite decide_True by (eapply lookup_lt_Some; exact Hn).
  unfold Py.getitem. rewrite Hn. simpl. by eexists.
Qed.

(** Boundary-stop mode, symbol in the latest version but not in the one
    before: two fetches, and the latest version is the introduction. *)
Lemma find_present_boundary (older : list string) (prev newest : string) :
  versions = older ++ [prev; newest] ->
  present newest -> ~ present prev ->
  search false
  = Ok {| sr_api_name := api_name; sr_api_type := api_type;
          sr_introduced := Some newest; sr_removed := None;
          sr_present_in := [newest]; sr_not_found_in := [prev];
          sr_versions_checked := 2; sr_fetched := [newest; prev] |}.
Proof.
  intros Hver Hnew%found_in_true Hprev%found_in_false.
  assert (reverse versions = newest :: prev :: reverse older) as Hrev.
  { by rewrite Hver, reverse_app. }
  assert (newest ∈ versions) as Hin.
  { rewrite Hver. apply elem_of_app. right. by right; left. }
  destruct (index_opt_elem newest versions Hin) as [k Hk].
  rewrite (find_present false newest newest (prev :: reverse older) [] Hrev Hnew).
  - simpl. by rewrite Hprev.
  - simpl. rewrite Hprev. simpl.
    unfold sorted_by_index. simpl. unfold Py.index. by rewrite Hk.
Qed.

(** Full scan, symbol in the latest version: [removed] stays unset and the
    introduction is the oldest version holding the symbol. *)
Lemma find_present_full (older : list string) (newest : string) :
  versions = older ++ [newest] -> NoDup versions -> present newest ->
  exists r, search true = Ok r
            /\ sr_removed r = None
            /\ sr_present_in r = filter present versions
            /\ sr_introduced r = head (filter present versions).
Proof.
  intros Hver Hnd Hnew.
  assert (reverse versions = newest :: reverse older) as Hrev.
  { by rewrite Hver, reverse_app. }
  set (r1 := introduced_loop symbols api_name api_type true (reverse older)
               (add_present newest
                  (count_fetch newest (initial_result api_name api_type)))).
  destruct (introduced_loop_full symbols api_name api_type (reverse older)
              (add_present newest
                 (count_fetch newest (initial_result api_name api_type))))
    as [Hpres Hrem].
  fold r1 in Hpres, Hrem. simpl in Hpres, Hrem.
  assert (sr_present_in r1 = reverse (filter present versions)) as Hrun.
  { rewrite Hpres, <-filter_reverse, Hrev.
    rewrite (filter_cons_True present); done. }
  assert (sorted_by_index versions (sr_present_in r1)
          = Ok (filter present versions)) as Hsort.
  { apply sorted_by_index_sublist; [done|apply sublist_filter|].
    rewrite Hrun. apply reverse_Permutation. }
  destruct (filter present versions) as [|first rest] eqn:Hfil.
  { exfalso. eapply (filter_nil_not_elem_of present versions newest); eauto.
    rewrite Hver. apply elem_of_app. right. by left. }
  exists (set_introduced first (set_present_in (first :: rest) r1)).
  split; [|by repeat split].
  apply find_present; [done|by apply found_in_true|done].
Qed.

End SearchResults.

(** ** Splitting a version list at the newest run *)

Section Runs.
Context {A : Type} (P : A -> Prop) `{forall x, Decision (P x)}.

Lemma filter_all (l : list A) : Forall P l -> filter P l = l.
Proof.
  induction 1 as [|x l Hx Hl IH]; [done|].
  by rewrite filter_cons_True, IH.
Qed.

Lemma filter_none (l : list A) : Forall (fun x => ~ P x) l -> filter P l = [].
Proof.
  induction 1 as [|x l Hx Hl IH]; [done|].
  by rewrite filter_cons_False.
Qed.

Lemma non_empty_snoc (l : list A) : l <> [] -> exists l' x, l = l' ++ [x].
Proof.
  induction l as [|x l _] using rev_ind; [done|]. intros _. by exists l, x.
Qed.

(** Every list splits into a prefix, the newest unbroken run of elements
    satisfying [P], and the elements after it, none of which satisfies
    [P]; the run is empty only if nothing satisfies [P]. *)
Lemma split_last_run (l : list A) :
  exists l0 run l2,
    l = l0 ++ run ++ l2
    /\ Forall P run /\ Forall (fun x => ~ P x) l2
    /\ (forall l0' a, l0 = l0' ++ [a] -> ~ P a)
    /\ (run = [] -> l0 = []).
Proof.
  induction l as [|x l IH] using rev_ind.
  { exists [], [], []. split_and!; try done.
    intros l0' a Heq. by destruct l0'. }
  destruct IH as (l0 & run & l2 & -> & Hrun & Hl2 & Hl0 & Hempty).
  destruct (decide (P x)) as [Hx|Hx].
  - destruct l2 as [|y l2].
    + exists l0, (run ++ [x]), []. rewrite !app_nil_r. split_and!.
      * by rewrite app_assoc.
      * apply Forall_app. by split; [|constructor].
      * done.
      * done.
      * intros Heq. by destruct run.
    + exists (l0 ++ run ++ y :: l2), [x], []. split_and!.
      * by rewrite <-!app_assoc.
      * by constructor.
      * done.
      * intros l0' a Heq.
        assert (last (l0 ++ run ++ y :: l2) = Some a) as Hlast.
        { rewrite Heq. apply last_snoc. }
        rewrite !last_app in Hlast.
        destruct (last (y :: l2)) as [b|] eqn:Hb; [|by apply last_None in Hb].
        simplify_eq. rewrite Forall_forall in Hl2.
        apply Hl2. by apply last_Some_elem_of.
      * done.
  - exists l0, run, (l2 ++ [x]). split_and!; try done.
    + by rewrite <-!app_assoc.
    + apply Forall_app. by split; [|constructor].
Qed.

End Runs.

Section SearchAbsent.
Variable versions : list string.
Variable symbols : string -> string -> gset string.
Variables (api_name api_type : string).

Local Abbreviation found := (found_in symbols api_name api_type).
Local Abbreviation present := (present_at symbols api_name api_type).
Local Abbreviation search := (find_api_history versions symbols api_name api_type).

(** Boundary-stop mode, symbol not in the latest version: the search
    collects the newest run of versions holding the symbol. *)
Lemma find_absent_boundary (l0 run l2 : list string) :
  versions = l0 ++ run ++ l2 -> NoDup versions ->
  run <> [] -> l2 <> [] ->
  Forall present run -> Forall (fun v => ~ present v) l2 ->
  (forall l0' a, l0 = l0' ++ [a] -> ~ present a) ->
  exists r, search false = Ok r
            /\ sr_introduced r = head run
            /\ sr_removed r = head l2
            /\ sr_present_in r = run.
Proof.
  intros Hver Hnd Hrun_ne Hl2_ne Hrun Hl2 Hl0.
  destruct (non_empty_snoc l2 Hl2_ne) as (l2' & newest & Heq2).
  destruct (non_empty_snoc run Hrun_ne) as (run' & p & Heqr).
  assert (reverse versions
          = [newest] ++ reverse l2' ++ p :: (reverse run' ++ reverse l0)) as Hrev.
  { rewrite Hver, Heq2, Heqr, !reverse_app. simpl.
    by rewrite <-!app_assoc. }
  assert (~ present newest) as Hnew.
  { rewrite Forall_forall in Hl2. apply Hl2. rewrite Heq2.
    apply elem_of_app. right. by left. }
  assert (present p) as Hp.
  { rewrite Forall_forall in Hrun. apply Hrun. rewrite Heqr.
    apply elem_of_app. right. by left. }
  assert (Forall (fun v => ~ present v) (reverse l2')) as Habs.
  { apply Forall_reverse. rewrite Heq2 in Hl2.
    by apply Forall_app in Hl2 as [? _]. }
  pose proof (removed_loop_boundary symbols api_name api_type
                [newest] (reverse l2') (reverse run' ++ reverse l0) p
                (add_not_found newest
                   (count_fetch newest (initial_result api_name api_type))))
    as Hloop.
  assert (NoDup (reverse versions)) as Hnd' by (by rewrite reverse_Permutation).
  rewrite <-Hrev in Hloop. specialize (Hloop Hnd' Habs Hp).
  destruct l2 as [|n l2t]; [done|].
  eapply (find_absent versions symbols api_name api_type false newest p n
            _ run (l0 ++ run') l2t).
  - exact Hrev.
  - by apply found_in_false.
  - rewrite Hrev in Hloop. exact Hloop.
  - apply sorted_by_index_sublist; [done| |].
    + rewrite Hver. apply sublist_inserts_l, sublist_inserts_r. done.
    + rewrite older_loop_run.
      * simpl. rewrite skip_absent_present_in. simpl.
        rewrite Heqr, reverse_Permutation. apply Permutation_cons_append.
      * apply Forall_reverse. rewrite Heqr in Hrun.
        by apply Forall_app in Hrun as [? _].
      * intros a rest Heq. apply (Hl0 (reverse rest)).
        apply (f_equal reverse) in Heq.
        by rewrite reverse_involutive, reverse_cons in Heq.
  - rewrite Heqr. apply last_snoc.
  - rewrite Hver, Heqr. by rewrite <-!app_assoc.
  - done.
Qed.

(** Full scan, symbol not in the latest version: every version holding
    the symbol is collected. *)
Lemma find_absent_full (l0 run l2 : list string) :
  versions = l0 ++ run ++ l2 -> NoDup versions ->
  run <> [] -> l2 <> [] ->
  Forall present run -> Forall (fun v => ~ present v) l2 ->
  exists r, search true = Ok r
            /\ sr_introduced r = head (filter present versions)
            /\ sr_removed r = head l2
            /\ sr_present_in r = filter present versions.
Proof.
  intros Hver Hnd Hrun_ne Hl2_ne Hrun Hl2.
  destruct (non_empty_snoc run Hrun_ne) as (run' & p & Heqr).
  destruct (reverse versions) as [|latest older_rev] eqn:Hrev.
  { apply (f_equal reverse) in Hrev. rewrite reverse_involutive in Hrev.
    rewrite Hrev in Hver. by destruct l0, run. }
  assert (~ present latest) as Hlatest.
  { assert (last versions = Some latest) as Hlast.
    { by rewrite <-head_reverse, Hrev. }
    rewrite Hver, !last_app in Hlast.
    destruct (last l2) as [x|] eqn:Hx; [|by apply last_None in Hx].
    simplify_eq. rewrite Forall_forall in Hl2.
    apply Hl2. by apply last_Some_elem_of. }
  destruct (removed_loop_full symbols api_name api_type
              (latest :: older_rev) older_rev
              (add_not_found latest
                 (count_fetch latest (initial_result api_name api_type))))
    as (r1 & Hloop & Hpres).
  simpl in Hpres.
  assert (filter present versions = filter present l0 ++ run) as Hfil.
  { rewrite Hver, !filter_app, (filter_all present run Hrun),
      (filter_none present l2 Hl2). by rewrite app_nil_r. }
  destruct l2 as [|n l2t]; [done|].
  eapply (find_absent versions symbols api_name api_type true latest p n
            older_rev (filter present versions) (l0 ++ run') l2t r1).
  - exact Hrev.
  - by apply found_in_false.
  - exact Hloop.
  - apply sorted_by_index_sublist; [done|apply sublist_filter|].
    rewrite Hpres, <-(filter_cons_False present latest older_rev Hlatest).
    rewrite <-Hrev, filter_reverse. apply reverse_Permutation.
  - rewrite Hfil, Heqr, app_assoc. apply last_snoc.
  - rewrite Hver, Heqr. by rewrite <-!app_assoc.
  - done.
Qed.

End SearchAbsent.

Section SearchPresent.
Variable versions : list string.
Variable symbols : string -> string -> gset string.
Variables (api_name api_type : string).

(** When the symbol is in the latest version no branch of the search
    writes [removed]. *)
Lemma find_present_removed (full_scan : bool) (latest : string)
    (older_rev : list string) (r : SearchResult) :
  reverse versions = latest :: older_rev ->
  found_in symbols api_name api_type latest = true ->
  find_api_history versions symbols api_name api_type full_scan = Ok r ->
  sr_removed r = None.
Proof.
  intros Hrev Hlatest. unfold find_api_history.
  rewrite Hrev. simpl. rewrite Hlatest, drop_0.
  destruct (sorted_by_index versions _) as [l|e]; simpl; [|done].
  destruct l as [|first rest]; simpl; [done|].
  intros [= <-]. simpl. by rewrite introduced_loop_removed.
Qed.

End SearchPresent.

(** ** Boundary search: the documented properties *)

(** C3: the search returns a result for every non-empty version list, and
    the result reports in [versions_checked] the number of versions it
    fetched, each fetched version being filed under [present_in] or
    [not_found_in].  Without full scan, a symbol that is in the newest
    version and not in the one before costs exactly two fetches, the
    newest version and then the one before it, and the newest version is
    reported as the introduction (scenario D). *)
Theorem search_reports_fetch_count
    (versions : list string) (symbols : string -> string -> gset string)
    (api_name api_type : string) (full_scan : bool) :
  versions <> [] ->
  exists r,
    find_api_history versions symbols api_name api_type full_scan = Ok r
    /\ sr_versions_checked r = length (sr_fetched r)
    /\ sr_fetched r ≡ₚ sr_present_in r ++ sr_not_found_in r
    /\ (full_scan = false ->
        forall older prev newest,
          versions = older ++ [prev; newest] ->
          present_at symbols api_name api_type newest ->
          ~ present_at symbols api_name api_type prev ->
          sr_fetched r = [newest; prev]
          /\ sr_versions_checked r = 2
          /\ sr_introduced r = Some newest).
Proof.
  intros Hne.
  destruct (find_api_history_logged versions symbols api_name api_type
              full_scan Hne) as (r & Hr & Hn & Hp & _).
  exists r. split_and!; [done..|].
  intros -> older prev newest Hver Hnew Hprev.
  rewrite (find_present_boundary versions symbols api_name api_type
             older prev newest Hver Hnew Hprev) in Hr.
  injection Hr as <-. done.
Qed.

Lemma search_reports_fetch_count_scenario_D :
  ["1.0"; "2.0"; "3.0"] <> []
  /\ exists r,
       find_api_history ["1.0"; "2.0"; "3.0"] only_in_3 "f" "runtime" false = Ok r
       /\ sr_fetched r = ["3.0"; "2.0"]
       /\ ("1.0" ∉ sr_fetched r)
       /\ sr_versions_checked r = 2
       /\ sr_introduced r = Some "3.0".
Proof.
  split; [done|].
  destruct (search_reports_fetch_count ["1.0"; "2.0"; "3.0"] only_in_3
              "f" "runtime" false) as (r & Hr & _ & _ & Hd); [done|].
  destruct (Hd eq_refl ["1.0"] "2.0" "3.0") as (Hf & Hc & Hi).
  - reflexivity.
  - apply (bool_decide_unpack _). vm_compute. exact I.
  - apply (bool_decide_unpack _). vm_compute. exact I.
  - exists r. split_and!; [done..| |done|done].
    rewrite Hf. apply (bool_decide_unpack _). vm_compute. exact I.
Defined.

(** C9, as stated, fails under full scan: over [1.0, 2.0, 3.0] with the
    symbol in [1.0] and [3.0] only, the symbol is in the newest version and
    not in the one before, and the reported introduction is [1.0]. *)
Lemma full_scan_introduced_before_gap :
  present_at in_1_and_3 "f" "runtime" "3.0"
  /\ ~ present_at in_1_and_3 "f" "runtime" "2.0"
  /\ ~ (forall r,
          find_api_history ["1.0"; "2.0"; "3.0"] in_1_and_3 "f" "runtime" true
          = Ok r ->
          sr_introduced r = Some "3.0").
Proof.
  split_and!.
  - apply (bool_decide_unpack _). vm_compute. exact I.
  - apply (bool_decide_unpack _). vm_compute. exact I.
  - intros Hall.
    assert (exists r,
              find_api_history ["1.0"; "2.0"; "3.0"] in_1_and_3 "f" "runtime" true
              = Ok r /\ sr_introduced r = Some "1.0") as (r & Hr & Hi).
    { eexists. split; vm_compute; reflexivity. }
    specialize (Hall r Hr). congruence.
Qed.

(** C9 (amended): for a symbol in the newest version, [removed] is unset
    in both modes.  In boundary-stop mode, if the version before the newest
    lacks the symbol, the introduction is the newest version.  Under full
    scan the introduction is the oldest version holding the symbol. *)
Theorem present_in_latest_history
    (versions older : list string) (newest : string)
    (symbols : string -> string -> gset string)
    (api_name api_type : string) (full_scan : bool) :
  versions = older ++ [newest] -> NoDup versions ->
  present_at symbols api_name api_type newest ->
  exists r,
    find_api_history versions symbols api_name api_type full_scan = Ok r
    /\ sr_removed r = None
    /\ (full_scan = false ->
        forall older' prev,
          older = older' ++ [prev] ->
          ~ present_at symbols api_name api_type prev ->
          sr_introduced r = Some newest)
    /\ (full_scan = true ->
        sr_introduced r
        = head (filter (present_at symbols api_name api_type) versions)).
Proof.
  intros Hver Hnd Hnew.
  destruct full_scan.
  - destruct (find_present_full versions symbols api_name api_type
                older newest Hver Hnd Hnew) as (r & Hr & Hrem & _ & Hi).
    exists r. by split_and!.
  - assert (versions <> []) as Hne by (rewrite Hver; by destruct older).
    destruct (find_api_history_logged versions symbols api_name api_type
                false Hne) as (r & Hr & _).
    exists r. split_and!; [done| |  |done].
    + eapply (find_present_removed versions symbols api_name api_type false
                newest (reverse older)); [|by apply found_in_true|done].
      by rewrite Hver, reverse_app.
    + intros _ older' prev Holder Hprev.
      rewrite (find_present_boundary versions symbols api_name api_type
                 older' prev newest) in Hr; [|by rewrite Hver, Holder, <-app_assoc|done..].
      by injection Hr as <-.
Qed.

Lemma present_in_latest_history_full_scan :
  (["1.0"; "2.0"; "3.0"] = ["1.0"; "2.0"] ++ ["3.0"]
   /\ NoDup ["1.0"; "2.0"; "3.0"]
   /\ present_at in_1_and_3 "f" "runtime" "3.0")
  /\ exists r,
       find_api_history ["1.0"; "2.0"; "3.0"] in_1_and_3 "f" "runtime" true = Ok r
       /\ sr_removed r = None
       /\ sr_introduced r = Some "1.0".
Proof.
  assert (NoDup ["1.0"; "2.0"; "3.0"]) as Hnd.
  { apply (bool_decide_unpack _). vm_compute. exact I. }
  assert (present_at in_1_and_3 "f" "runtime" "3.0") as Hp.
  { apply (bool_decide_unpack _). vm_compute. exact I. }
  split; [by split_and!|].
  destruct (present_in_latest_history ["1.0"; "2.0"; "3.0"] ["1.0"; "2.0"] "3.0"
              in_1_and_3 "f" "runtime" true eq_refl Hnd Hp)
    as (r & Hr & Hrem & _ & Hi).
  exists r. split_and!; [done..|].
  rewrite (Hi eq_refl). vm_compute. reflexivity.
Defined.

(** C2, as stated, fails under full scan: over [1.0, 2.0, 3.0, 4.0] with
    the symbol in [1.0] and [3.0] only, the newest version holding the
    symbol is [3.0], the run found by walking older from it is [3.0] alone
    since [2.0] lacks the symbol, and the reported introduction is [1.0]. *)
Lemma full_scan_introduced_outside_run :
  ~ present_at in_1_and_3 "f" "runtime" "4.0"
  /\ present_at in_1_and_3 "f" "runtime" "3.0"
  /\ ~ present_at in_1_and_3 "f" "runtime" "2.0"
  /\ ~ (forall r,
          find_api_history ["1.0"; "2.0"; "3.0"; "4.0"] in_1_and_3
            "f" "runtime" true = Ok r ->
          sr_introduced r = Some "3.0").
Proof.
  split_and!.
  - apply (bool_decide_unpack _). vm_compute. exact I.
  - apply (bool_decide_unpack _). vm_compute. exact I.
  - apply (bool_decide_unpack _). vm_compute. exact I.
  - intros Hall.
    assert (exists r,
              find_api_history ["1.0"; "2.0"; "3.0"; "4.0"] in_1_and_3
                "f" "runtime" true = Ok r
              /\ sr_introduced r = Some "1.0") as (r & Hr & Hi).
    { eexists. split; vm_compute; reflexivity. }
    specialize (Hall r Hr). congruence.
Qed.

(** A symbol that is not in the newest version but is in an older one:
    the version list splits around the newest run of versions holding the
    symbol, and the search reports that run. *)
Lemma find_absent_split
    (versions older : list string) (newest : string)
    (symbols : string -> string -> gset string)
    (api_name api_type : string) (full_scan : bool) :
  versions = older ++ [newest] -> NoDup versions ->
  ~ present_at symbols api_name api_type newest ->
  (exists v, v ∈ older /\ present_at symbols api_name api_type v) ->
  exists l0 run l2 r,
    versions = l0 ++ run ++ l2
    /\ run <> [] /\ l2 <> []
    /\ Forall (present_at symbols api_name api_type) run
    /\ Forall (fun v => ~ present_at symbols api_name api_type v) l2
    /\ (forall l0' a, l0 = l0' ++ [a] -> ~ present_at symbols api_name api_type a)
    /\ find_api_history versions symbols api_name api_type full_scan = Ok r
    /\ sr_removed r = head l2
    /\ (full_scan = false -> sr_introduced r = head run /\ sr_present_in r = run)
    /\ (full_scan = true ->
        sr_introduced r
        = head (filter (present_at symbols api_name api_type) versions)
        /\ sr_present_in r
           = filter (present_at symbols api_name api_type) versions).
Proof.
  intros Hver Hnd Hnew (v & Hv & Hpv).
  destruct (split_last_run (present_at symbols api_name api_type) versions)
    as (l0 & run & l2 & Hsplit & Hrun & Hl2 & Hl0 & Hempty).
  assert (run <> []) as Hrun_ne.
  { intros ->. rewrite (Hempty eq_refl) in Hsplit. simpl in Hsplit.
    rewrite Forall_forall in Hl2. apply (Hl2 v); [|done].
    rewrite <-Hsplit, Hver. apply elem_of_app. by left. }
  assert (l2 <> []) as Hl2_ne.
  { intros ->. rewrite app_nil_r in Hsplit.
    assert (last versions = Some newest) as Hlast by (rewrite Hver; apply last_snoc).
    rewrite Hsplit, last_app in Hlast.
    destruct (last run) as [x|] eqn:Hx; [|by apply last_None in Hx].
    simplify_eq. rewrite Forall_forall in Hrun.
    apply Hnew, Hrun. by apply last_Some_elem_of. }
  exists l0, run, l2.
  destruct full_scan.
  - destruct (find_absent_full versions symbols api_name api_type l0 run l2)
      as (r & Hr & Hi & Hrem & Hpres); [done..|].
    exists r. by split_and!.
  - destruct (find_absent_boundary versions symbols api_name api_type l0 run l2)
      as (r & Hr & Hi & Hrem & Hpres); [done..|].
    exists r. by split_and!.
Qed.


(** C2 (amended): for a symbol that is not in the newest version but is in
    an older one, let [run] be the newest unbroken run of versions holding
    the symbol and [l2] the versions after it.  In both modes [removed] is
    the first version of [l2], the version immediately newer than the
    newest version holding the symbol.  In boundary-stop mode the
    introduction is the oldest version of [run]; under full scan it is the
    oldest version holding the symbol. *)
Theorem absent_from_latest_history
    (versions older : list string) (newest : string)
    (symbols : string -> string -> gset string)
    (api_name api_type : string) (full_scan : bool) :
  versions = older ++ [newest] -> NoDup versions ->
  ~ present_at symbols api_name api_type newest ->
  (exists v, v ∈ older /\ present_at symbols api_name api_type v) ->
  exists l0 run l2 r,
    versions = l0 ++ run ++ l2
    /\ run <> [] /\ l2 <> []
    /\ Forall (present_at symbols api_name api_type) run
    /\ Forall (fun v => ~ present_at symbols api_name api_type v) l2
    /\ (forall l0' a, l0 = l0' ++ [a] -> ~ present_at symbols api_name api_type a)
    /\ find_api_history versions symbols api_name api_type full_scan = Ok r
    /\ sr_removed r = head l2
    /\ (full_scan = false -> sr_introduced r = head run /\ sr_present_in r = run)
    /\ (full_scan = true ->
        sr_introduced r
        = head (filter (present_at symbols api_name api_type) versions)
        /\ sr_present_in r
           = filter (present_at symbols api_name api_type) versions).
Proof. apply find_absent_split. Qed.

Lemma absent_from_latest_history_real_list :
  (CUDA_VERSIONS = take 55 CUDA_VERSIONS ++ ["13.1.1"]
   /\ NoDup CUDA_VERSIONS
   /\ ~ present_at gone_in_13 "f" "runtime" "13.1.1"
   /\ (exists v, v ∈ take 55 CUDA_VERSIONS /\ present_at gone_in_13 "f" "runtime" v))
  /\ exists r,
       find_api_history CUDA_VERSIONS gone_in_13 "f" "runtime" false = Ok r
       /\ sr_removed r = Some "13.0.0"
       /\ sr_introduced r = Some "8.0".
Proof.
  assert (NoDup CUDA_VERSIONS) as Hnd.
  { apply (bool_decide_unpack _). vm_compute. exact I. }
  assert (~ present_at gone_in_13 "f" "runtime" "13.1.1") as Hnew.
  { apply (bool_decide_unpack _). vm_compute. exact I. }
  assert (exists v, v ∈ take 55 CUDA_VERSIONS
                    /\ present_at gone_in_13 "f" "runtime" v) as Hold.
  { exists "12.9.1". split; apply (bool_decide_unpack _); vm_compute; exact I. }
  split; [by split_and!|].
  destruct (absent_from_latest_history CUDA_VERSIONS (take 55 CUDA_VERSIONS)
              "13.1.1" gone_in_13 "f" "runtime" false eq_refl Hnd Hnew Hold)
    as (l0 & run & l2 & r & _ & _ & _ & _ & _ & _ & Hr & _).
  exists r. split; [done|].
  assert (exists r',
            find_api_history CUDA_VERSIONS gone_in_13 "f" "runtime" false = Ok r'
            /\ sr_removed r' = Some "13.0.0"
            /\ sr_introduced r' = Some "8.0") as (r' & Hr' & Hrem & Hint).
  { eexists. split_and!; vm_compute; reflexivity. }
  rewrite Hr in Hr'. injection Hr' as ->. by split.
Defined.

(** ** Catalog builder *)

Section CatalogFacts.
Variable symbols : string -> string -> gset string.
Variable api_types : list string.

Local Abbreviation sets := (fetch_version symbols api_types).

Lemma fetch_all_versions_fold (versions : list string)
    (m : gmap string (gset string)) (v : string) :
  foldl (fun version_apis version => <[version := sets version]> version_apis)
        m versions !! v
  = if decide (v ∈ versions) then Some (sets v) else m !! v.
Proof.
  revert m. induction versions as [|w versions IH]; intros m; cbn [foldl].
  { by destruct (decide (v ∈ [])) as [?%elem_of_nil|]. }
  rewrite IH. destruct (decide (v ∈ versions)) as [Hin|Hnin].
  - rewrite decide_True; [done|by right].
  - destruct (decide (v = w)) as [->|Hne].
    + rewrite lookup_insert_eq. rewrite decide_True; [done|by left].
    + rewrite lookup_insert_ne by done.
      rewrite decide_False; [done|]. by intros [?|?]%elem_of_cons.
Qed.

Lemma fetch_all_versions_lookup (versions : list string) (v : string) :
  fetch_all_versions symbols versions api_types !! v
  = if decide (v ∈ versions) then Some (sets v) else None.
Proof. unfold fetch_all_versions. by rewrite fetch_all_versions_fold. Qed.

(** The symbol universe of the catalog is the union of the per-version
    sets. *)
Lemma all_apis_elem (versions : list string) (api : string) :
  api ∈ (⋃ (map_to_list (fetch_all_versions symbols versions api_types)).*2
         : gset string)
  <-> exists v, v ∈ versions /\ api ∈ sets v.
Proof.
  rewrite elem_of_union_list. split.
  - intros (X & HX & Hapi).
    apply list_elem_of_fmap in HX as ([v X'] & -> & Hv).
    apply elem_of_map_to_list in Hv. rewrite fetch_all_versions_lookup in Hv.
    destruct (decide (v ∈ versions)); [|done]. simplify_eq. by exists v.
  - intros (v & Hv & Hapi). exists (sets v). split; [|done].
    apply list_elem_of_fmap. exists (v, sets v). split; [done|].
    apply elem_of_map_to_list. rewrite fetch_all_versions_lookup.
    by rewrite decide_True.
Qed.

End CatalogFacts.

Section ScanFacts.
Variable sets : string -> gset string.
Variable api : string.

Local Abbreviation has := (listed sets api).
Local Abbreviation step := (scan_step_sets sets api).

Lemma scan_sets (m : gmap string (gset string)) (vs : list string) (st : Scan) :
  (forall v, v ∈ vs -> m !! v = Some (sets v)) ->
  scan m api vs st = Ok (foldl step st vs).
Proof.
  revert st. induction vs as [|v vs IH]; intros st Hm; simpl; [done|].
  unfold scan_step. rewrite (Hm v) by (by left). simpl.
  unfold scan_step_sets.
  destruct (Py.contains (sets v) api).
  - simpl. apply IH. intros; apply Hm; by right.
  - destruct (present_in st), (removed st); simpl;
      apply IH; intros; apply Hm; by right.
Qed.

Lemma contains_true (v : string) : Py.contains (sets v) api = true <-> has v.
Proof. unfold Py.contains, listed. apply bool_decide_eq_true. Qed.

Lemma contains_false (v : string) : Py.contains (sets v) api = false <-> ~ has v.
Proof. unfold Py.contains, listed. apply bool_decide_eq_false. Qed.

Lemma filter_empty_none (vs : list string) :
  filter has vs = [] -> Forall (fun v => ~ has v) vs.
Proof.
  intros Hnil. apply Forall_forall. intros v Hv Hhas.
  by apply (filter_nil_not_elem_of has vs v).
Qed.

(** What the scan of one symbol over the range leaves in its three
    variables. *)
Lemma scan_result (vs : list string) :
  let st := foldl step scan_start vs in
  present_in st = filter has vs
  /\ first_seen st = head (filter has vs)
  /\ match removed st with
     | None =>
         exists la lp, vs = la ++ lp
                       /\ Forall (fun v => ~ has v) la /\ Forall has lp
     | Some r =>
         exists la lp l2, vs = la ++ lp ++ r :: l2
                          /\ Forall (fun v => ~ has v) la /\ Forall has lp
                          /\ lp <> [] /\ ~ has r
     end.
Proof.
  induction vs as [|v vs IH] using rev_ind.
  { simpl. split_and!; [done..|]. exists [], []. by split_and!. }
  rewrite foldl_snoc, filter_app. cbn zeta in IH.
  destruct IH as (Hpres & Hfirst & Hrem).
  set (st := foldl step scan_start vs) in *.
  unfold scan_step_sets at 1.
  destruct (Py.contains (sets v) api) eqn:Hv.
  - apply contains_true in Hv.
    rewrite (filter_cons_True has v []) by done. simpl.
    split_and!.
    + by rewrite Hpres.
    + rewrite Hfirst. by destruct (filter has vs).
    + destruct (removed st) as [r|].
      * destruct Hrem as (la & lp & l2 & -> & Hla & Hlp & Hne & Hr).
        exists la, lp, (l2 ++ [v]). split_and!; try done.
        by rewrite <-!app_assoc.
      * destruct Hrem as (la & lp & -> & Hla & Hlp).
        exists la, (lp ++ [v]). split_and!; try done.
        -- by rewrite <-!app_assoc.
        -- apply Forall_app. by split; [|constructor].
  - apply contains_false in Hv.
    rewrite (filter_cons_False has v []) by done.
    rewrite filter_nil, app_nil_r.
    destruct (present_in st) as [|x xs] eqn:Hp.
    + split_and!; [by rewrite Hp|done|].
      destruct (removed st) as [r|].
      * destruct Hrem as (la & lp & l2 & -> & Hla & Hlp & Hne & Hr).
        exists la, lp, (l2 ++ [v]). split_and!; try done.
        by rewrite <-!app_assoc.
      * exists (vs ++ [v]), []. rewrite app_nil_r. split_and!; try done.
        apply Forall_app. split; [|by constructor].
        apply filter_empty_none. by rewrite <-Hpres.
    + destruct (removed st) as [r|] eqn:Hr; simpl.
      * rewrite Hr. split_and!; [by rewrite Hp|done|].
        destruct Hrem as (la & lp & l2 & -> & Hla & Hlp & Hne & Hr').
        exists la, lp, (l2 ++ [v]). split_and!; try done.
        by rewrite <-!app_assoc.
      * split_and!; [by rewrite <-Hpres|done|].
        destruct Hrem as (la & lp & -> & Hla & Hlp).
        exists la, lp, []. split_and!; try done.
        -- by rewrite <-app_assoc.
        -- intros ->. rewrite app_nil_r in Hpres.
           by rewrite (filter_none has la Hla) in Hpres.
Qed.

End ScanFacts.

Section CatalogResult.
Variable symbols : string -> string -> gset string.
Variable api_types : list string.

Local Abbreviation sets := (fetch_version symbols api_types).

Lemma sorted_names_elem (s : gset string) (x : string) :
  x ∈ sorted_names s <-> x ∈ s.
Proof.
  unfold sorted_names. rewrite merge_sort_Permutation.
  apply elem_of_elements.
Qed.

Lemma api_info_sets (m : gmap string (gset string)) (versions : list string)
    (api : string) :
  versions <> [] ->
  (forall v, v ∈ versions -> m !! v = Some (sets v)) ->
  api_info m versions api = Ok (lifecycle sets versions api).
Proof.
  intros Hne Hm. unfold api_info.
  rewrite (scan_sets sets api m versions _ Hm). simpl.
  destruct (last versions) as [newest|] eqn:Hlast; [|by apply last_None in Hlast].
  simpl. rewrite (Hm newest) by (by apply last_Some_elem_of). simpl.
  destruct versions as [|oldest rest]; [done|]. simpl.
  unfold lifecycle. rewrite Hlast. done.
Qed.

Lemma catalog_loop_lookup (m : gmap string (gset string))
    (versions names : list string) (apis : gmap string ApiInfo) :
  versions <> [] ->
  (forall v, v ∈ versions -> m !! v = Some (sets v)) ->
  exists res,
    catalog_loop m versions names apis = Ok res
    /\ forall k, res !! k = if decide (k ∈ names)
                           then Some (lifecycle sets versions k)
                           else apis !! k.
Proof.
  intros Hne Hm. revert apis.
  induction names as [|api names IH]; intros apis; simpl.
  { exists apis. split; [done|]. intros k.
    by destruct (decide (k ∈ [])) as [?%elem_of_nil|]. }
  rewrite (api_info_sets m versions api Hne Hm). simpl.
  destruct (IH (<[api := lifecycle sets versions api]> apis)) as (res & -> & Hres).
  exists res. split; [done|]. intros k. rewrite Hres.
  destruct (decide (k ∈ names)) as [Hin|Hnin].
  - rewrite decide_True; [done|by right].
  - destruct (decide (k = api)) as [->|Hk].
    + rewrite lookup_insert_eq. rewrite decide_True; [done|by left].
    + rewrite lookup_insert_ne by done.
      rewrite decide_False; [done|]. by intros [?|?]%elem_of_cons.
Qed.

(** The catalog is built for every non-empty range, holds exactly the
    symbols of the union of the per-version sets, and stores for each of
    them the record of its scan. *)
Lemma catalog_of_range_apis (versions : list string) :
  versions <> [] -> api_types <> [] ->
  exists c,
    catalog_of_range symbols versions api_types = Ok c
    /\ forall api,
         (forall info, cat_apis c !! api = Some info ->
                       (exists v, v ∈ versions /\ listed sets api v)
                       /\ info = lifecycle sets versions api)
         /\ ((exists v, v ∈ versions /\ listed sets api v) ->
             cat_apis c !! api = Some (lifecycle sets versions api)).
Proof.
  intros Hne Hty. unfold catalog_of_range.
  assert (exists t, api_type_str api_types = Ok t) as [t ->].
  { unfold api_type_str. destruct (decide (1 < length api_types)); [by eexists|].
    destruct api_types; [done|]. by eexists. }
  simpl.
  destruct versions as [|oldest rest] eqn:Hver; [done|]. rewrite <-Hver in *.
  assert (Py.getitem versions 0 = Ok oldest) as -> by (by rewrite Hver).
  simpl.
  destruct (last versions) as [newest|] eqn:Hlast; [|by apply last_None in Hlast].
  simpl.
  destruct (catalog_loop_lookup (fetch_all_versions symbols versions api_types)
              versions
              (sorted_names
                 (⋃ (map_to_list
                       (fetch_all_versions symbols versions api_types)).*2))
              ∅ Hne) as (res & -> & Hres).
  { intros v Hv. rewrite fetch_all_versions_lookup. by rewrite decide_True. }
  simpl. eexists. split; [done|]. simpl. intros api. rewrite Hres.
  destruct (decide (api ∈ _)) as [Hin|Hnin].
  - apply sorted_names_elem, all_apis_elem in Hin. split; [|done].
    intros info [= <-]. done.
  - rewrite lookup_empty. split; [done|]. intros Hex.
    exfalso. apply Hnin. by apply sorted_names_elem, all_apis_elem.
Qed.

End CatalogResult.

(** C10: the catalog is built for every non-empty range; its keys are
    exactly the symbols of the union of the per-version sets, and every
    key has a non-empty [present_in] and the status ["present"] or
    ["removed"], so that ["never_present"] never occurs. *)
Theorem catalog_symbols_were_present
    (symbols : string -> string -> gset string)
    (versions api_types : list string) :
  versions <> [] -> api_types <> [] ->
  exists c,
    catalog_of_range symbols versions api_types = Ok c
    /\ forall api,
         (is_Some (cat_apis c !! api)
          <-> exists v, v ∈ versions /\ api ∈ fetch_version symbols api_types v)
         /\ forall info,
              cat_apis c !! api = Some info ->
              ai_present_in info <> []
              /\ (ai_status info = "present" \/ ai_status info = "removed").
Proof.
  intros Hne Hty.
  destruct (catalog_of_range_apis symbols api_types versions Hne Hty)
    as (c & Hc & Hapis).
  exists c. split; [done|]. intros api.
  destruct (Hapis api) as [Hsome Hex]. split.
  - split.
    + intros [info Hinfo]. by destruct (Hsome info Hinfo).
    + intros H. rewrite (Hex H). by eexists.
  - intros info Hinfo. destruct (Hsome info Hinfo) as [(v & Hv & Hhas) ->].
    destruct (scan_result (fetch_version symbols api_types) api versions)
      as (Hpres & _ & _).
    assert (present_in
              (foldl (scan_step_sets (fetch_version symbols api_types) api)
                 scan_start versions) <> []) as Hne'.
    { rewrite Hpres. intros Hnil.
      by apply (filter_nil_not_elem_of _ _ v Hnil Hhas). }
    unfold lifecycle. simpl. split; [done|].
    destruct (Py.contains _ api); [by left|].
    destruct (present_in _); [done|by right].
Qed.

Lemma catalog_symbols_were_present_scenario_A :
  (["1.0"; "2.0"; "3.0"] <> [] /\ ["runtime"] <> [])
  /\ exists c,
       catalog_of_range sets_A ["1.0"; "2.0"; "3.0"] ["runtime"] = Ok c
       /\ forall info,
            cat_apis c !! "g" = Some info ->
            ai_present_in info <> []
            /\ (ai_status info = "present" \/ ai_status info = "removed").
Proof.
  split; [done|].
  destruct (catalog_symbols_were_present sets_A ["1.0"; "2.0"; "3.0"] ["runtime"])
    as (c & Hc & Hall); [done..|].
  exists c. split; [done|]. apply (Hall "g").
Defined.

(** C1, as stated, fails when a symbol comes back: over [1.0, 2.0, 3.0]
    with [f] in [1.0] and [3.0] only, the catalog records
    [removed = 2.0] for [f] although [f] is in the set of [3.0], and its
    status is ["present"]. *)
Lemma catalog_removed_then_present_again :
  exists info,
    lookup_api (catalog_of_range in_1_and_3 ["1.0"; "2.0"; "3.0"] ["runtime"]) "f"
    = Some info
    /\ ai_removed info = Some "2.0"
    /\ ai_status info = "present"
    /\ "f" ∈ fetch_version in_1_and_3 ["runtime"] "3.0".
Proof.
  eexists. split_and!.
  - vm_compute. reflexivity.
  - reflexivity.
  - reflexivity.
  - apply (bool_decide_unpack _). vm_compute. exact I.
Qed.

(** C1 (amended): in the catalog of a non-empty range, a symbol whose
    status is ["present"] is in the set of the last version; and if
    [removed] is some version [r], then [r] is a version of the range
    whose set lacks the symbol, the versions before [r] are a (possibly
    empty) stretch lacking the symbol followed by a non-empty stretch
    holding it, so [r] is the first version lacking the symbol after it
    had been seen.  Nothing is said about the versions after [r]. *)
Theorem catalog_lifecycle_invariant
    (symbols : string -> string -> gset string)
    (versions api_types : list string) :
  versions <> [] -> api_types <> [] ->
  exists c,
    catalog_of_range symbols versions api_types = Ok c
    /\ forall api info,
         cat_apis c !! api = Some info ->
         (ai_status info = "present" ->
          exists newest, last versions = Some newest
                         /\ api ∈ fetch_version symbols api_types newest)
         /\ (forall r,
               ai_removed info = Some r ->
               exists la lp l2,
                 versions = la ++ lp ++ r :: l2
                 /\ Forall (fun v => api ∉ fetch_version symbols api_types v) la
                 /\ Forall (fun v => api ∈ fetch_version symbols api_types v) lp
                 /\ lp <> []
                 /\ api ∉ fetch_version symbols api_types r).
Proof.
  intros Hne Hty.
  destruct (catalog_of_range_apis symbols api_types versions Hne Hty)
    as (c & Hc & Hapis).
  exists c. split; [done|]. intros api info Hinfo.
  destruct (Hapis api) as [Hsome _].
  destruct (Hsome info Hinfo) as [_ ->]. unfold lifecycle. simpl. split.
  - destruct (last versions) as [newest|] eqn:Hlast;
      [|by apply last_None in Hlast].
    simpl. destruct (Py.contains _ api) eqn:Hc'.
    + intros _. exists newest. split; [done|].
      by apply (contains_true (fetch_version symbols api_types) api).
    + by destruct (present_in _).
  - intros r Hr.
    destruct (scan_result (fetch_version symbols api_types) api versions)
      as (_ & _ & Hrem).
    rewrite Hr in Hrem. exact Hrem.
Qed.

Lemma catalog_lifecycle_invariant_scenario_A :
  (["1.0"; "2.0"; "3.0"] <> [] /\ ["runtime"] <> [])
  /\ exists c,
       catalog_of_range sets_A ["1.0"; "2.0"; "3.0"] ["runtime"] = Ok c
       /\ forall info,
            cat_apis c !! "f" = Some info ->
            forall r, ai_removed info = Some r ->
            exists la lp l2,
              ["1.0"; "2.0"; "3.0"] = la ++ lp ++ r :: l2
              /\ Forall (fun v => "f" ∉ fetch_version sets_A ["runtime"] v) la
              /\ Forall (fun v => "f" ∈ fetch_version sets_A ["runtime"] v) lp
              /\ lp <> []
              /\ "f" ∉ fetch_version sets_A ["runtime"] r.
Proof.
  split; [done|].
  destruct (catalog_lifecycle_invariant sets_A ["1.0"; "2.0"; "3.0"] ["runtime"])
    as (c & Hc & Hall); [done..|].
  exists c. split; [done|]. intros info Hinfo. by apply (Hall "f" info).
Defined.

(** ** Changelog builder *)

Lemma sorted_names_spec (s : gset string) : sorted_set_of (sorted_names s) s.
Proof.
  unfold sorted_set_of, sorted_names. split_and!.
  - apply Sorted_merge_sort. apply _.
  - rewrite merge_sort_Permutation. apply NoDup_elements.
  - intros x. rewrite merge_sort_Permutation. apply elem_of_elements.
Qed.

Lemma length_sorted_names (s : gset string) : length (sorted_names s) = size s.
Proof. unfold sorted_names. by rewrite merge_sort_Permutation. Qed.

Lemma size_list_to_set_le (l : list string) :
  size (list_to_set l : gset string) <= length l.
Proof.
  induction l as [|x l IH].
  - rewrite list_to_set_nil, size_empty. done.
  - rewrite list_to_set_cons, size_union_alt, size_singleton. cbn [length].
    assert (size (list_to_set l ∖ {[x]} : gset string)
            <= size (list_to_set l : gset string)) as Hle.
    { apply subseteq_size. by intros y [Hy _]%elem_of_difference. }
    lia.
Qed.

Section ChangelogFacts.
Variable symbols : string -> string -> gset string.
Variable api_types : list string.

Local Abbreviation sets := (fetch_version symbols api_types).
Local Abbreviation step := (diff_step symbols api_types).

Lemma diff_loop_from (vs : list string) (st : Diffing) (p : string) :
  prev_apis st = Some (sets p) -> prev_version st = Some p ->
  let st' := foldl step st vs in
  entries st' = entries st ++ entries_from sets p vs
  /\ total_added st'
     = total_added st + sum_list_with vi_added_count (entries_from sets p vs)
  /\ total_removed st'
     = total_removed st + sum_list_with vi_removed_count (entries_from sets p vs)
  /\ all_added st' = all_added st ++ mjoin (vi_added <$> entries_from sets p vs)
  /\ all_removed st'
     = all_removed st ++ mjoin (vi_removed <$> entries_from sets p vs).
Proof.
  revert st p. induction vs as [|v vs IH]; intros st p Hapis Hver; simpl.
  { rewrite !app_nil_r, !Nat.add_0_r. done. }
  unfold diff_step at 2 4 6 8 10. rewrite Hapis, Hver.
  match goal with
  | |- context [foldl _ ?st1 vs] =>
      destruct (IH st1 v eq_refl eq_refl) as (He & Ha & Hr & Hla & Hlr)
  end.
  cbn zeta in He, Ha, Hr, Hla, Hlr.
  rewrite He, Ha, Hr, Hla, Hlr. simpl.
  rewrite <-!app_assoc. simpl. split_and!; try done; lia.
Qed.

Lemma entries_from_length (p : string) (vs : list string) :
  length (entries_from sets p vs) = length vs.
Proof. revert p. induction vs as [|v vs IH]; intros p; simpl; [done|]. by rewrite IH. Qed.

Lemma entries_from_lookup (p : string) (vs : list string) (i : nat)
    (prev curr : string) :
  (p :: vs) !! i = Some prev -> vs !! i = Some curr ->
  entries_from sets p vs !! i = Some (diff_entry sets prev curr).
Proof.
  revert p i. induction vs as [|v vs IH]; intros p i Hp Hc; [done|].
  destruct i as [|i]; simpl in *.
  - by simplify_eq.
  - by apply IH.
Qed.

Lemma entries_from_elem (p : string) (vs : list string) (e : VersionInfo) :
  e ∈ entries_from sets p vs ->
  exists prev curr, e = diff_entry sets prev curr.
Proof.
  revert p. induction vs as [|v vs IH]; intros p; simpl.
  - by intros ?%elem_of_nil.
  - intros [->|He]%elem_of_cons; [by eexists _, _|]. by eapply IH.
Qed.

Lemma entries_from_counts (p : string) (vs : list string) :
  sum_list (length <$> (vi_added <$> entries_from sets p vs))
  = sum_list_with vi_added_count (entries_from sets p vs).
Proof.
  revert p. induction vs as [|v vs IH]; intros p; simpl; [done|].
  by rewrite IH.
Qed.

End ChangelogFacts.

(** C4: over a range of at least two versions the changelog is built, with
    one entry per consecutive pair [(prev, curr)] whose [added] is the set
    [curr - prev] and whose [removed] is the set [prev - curr], each as an
    ascending sequence, so that no symbol is both added and removed by one
    entry.  [net_new] holds the symbols some entry adds and no entry
    removes, [net_removed] those some entry removes and no entry adds, so a
    symbol added by one entry and removed by another is in neither list,
    and the per-pair added counts sum to at least the length of
    [net_new]. *)
Theorem changelog_pairs_and_net
    (symbols : string -> string -> gset string)
    (versions api_types : list string) :
  2 <= length versions -> api_types <> [] ->
  exists cl,
    changelog_of_range symbols versions api_types = Ok cl
    /\ length (cl_versions cl) = length versions - 1
    /\ (forall i prev curr,
          versions !! i = Some prev -> versions !! (i + 1) = Some curr ->
          exists e,
            cl_versions cl !! i = Some e
            /\ vi_previous e = Some prev /\ vi_version e = curr
            /\ sorted_set_of (vi_added e)
                 (fetch_version symbols api_types curr
                  ∖ fetch_version symbols api_types prev)
            /\ sorted_set_of (vi_removed e)
                 (fetch_version symbols api_types prev
                  ∖ fetch_version symbols api_types curr)
            /\ (forall x, x ∈ vi_added e -> x ∉ vi_removed e)
            /\ vi_added_count e = length (vi_added e)
            /\ vi_removed_count e = length (vi_removed e))
    /\ Sorted String.le (sum_net_new (cl_summary cl))
    /\ Sorted String.le (sum_net_removed (cl_summary cl))
    /\ (forall x,
          (x ∈ sum_net_new (cl_summary cl))
          <-> (exists e, e ∈ cl_versions cl /\ x ∈ vi_added e)
              /\ ~ (exists e, e ∈ cl_versions cl /\ x ∈ vi_removed e))
    /\ (forall x,
          (x ∈ sum_net_removed (cl_summary cl))
          <-> (exists e, e ∈ cl_versions cl /\ x ∈ vi_removed e)
              /\ ~ (exists e, e ∈ cl_versions cl /\ x ∈ vi_added e))
    /\ (forall x e1 e2,
          e1 ∈ cl_versions cl -> e2 ∈ cl_versions cl ->
          x ∈ vi_added e1 -> x ∈ vi_removed e2 ->
          (x ∉ sum_net_new (cl_summary cl))
          /\ (x ∉ sum_net_removed (cl_summary cl)))
    /\ sum_total_added (cl_summary cl)
       = sum_list_with vi_added_count (cl_versions cl)
    /\ length (sum_net_new (cl_summary cl))
       <= sum_list_with vi_added_count (cl_versions cl).
Proof.
  intros Hlen Hty. unfold changelog_of_range.
  rewrite decide_False by lia.
  assert (exists t, api_type_str api_types = Ok t) as [t ->].
  { unfold api_type_str. destruct (decide (1 < length api_types)); [by eexists|].
    destruct api_types; [done|]. by eexists. }
  simpl.
  destruct versions as [|v0 vs] eqn:Hver; [simpl in Hlen; lia|].
  rewrite <-Hver. assert (Py.getitem versions 0 = Ok v0) as -> by (by rewrite Hver).
  simpl.
  destruct (last versions) as [newest|] eqn:Hlast;
    [|apply last_None in Hlast; by rewrite Hver in Hlast].
  simpl. eexists. split; [reflexivity|]. simpl.
  assert (diff_loop symbols api_types versions
          = foldl (diff_step symbols api_types)
              {| prev_apis := Some (fetch_version symbols api_types v0); prev_version := Some v0;
                 entries := []; total_added := 0; total_removed := 0;
                 all_added := []; all_removed := [] |} vs) as Hloop.
  { by rewrite Hver. }
  destruct (diff_loop_from symbols api_types vs
              {| prev_apis := Some (fetch_version symbols api_types v0); prev_version := Some v0;
                 entries := []; total_added := 0; total_removed := 0;
                 all_added := []; all_removed := [] |} v0 eq_refl eq_refl)
    as (He & Ha & Hr & Hla & Hlr).
  cbn zeta in He, Ha, Hr, Hla, Hlr. rewrite <-Hloop in He, Ha, Hr, Hla, Hlr.
  simpl in He, Ha, Hr, Hla, Hlr.
  set (es := entries_from (fetch_version symbols api_types) v0 vs) in *.
  assert (forall x, x ∈ all_added (diff_loop symbols api_types versions)
                    <-> exists e, e ∈ es /\ x ∈ vi_added e) as Hadd.
  { intros x. rewrite Hla, list_elem_of_join. split.
    - intros (l & Hx & (e & -> & He')%list_elem_of_fmap). by exists e.
    - intros (e & He' & Hx). exists (vi_added e). split; [done|].
      apply list_elem_of_fmap. by exists e. }
  assert (forall x, x ∈ all_removed (diff_loop symbols api_types versions)
                    <-> exists e, e ∈ es /\ x ∈ vi_removed e) as Hrem.
  { intros x. rewrite Hlr, list_elem_of_join. split.
    - intros (l & Hx & (e & -> & He')%list_elem_of_fmap). by exists e.
    - intros (e & He' & Hx). exists (vi_removed e). split; [done|].
      apply list_elem_of_fmap. by exists e. }
  assert (forall x,
            x ∈ sorted_names
                  (list_to_set (sorted_names (list_to_set
                     (all_added (diff_loop symbols api_types versions))))
                   ∖ list_to_set (sorted_names (list_to_set
                     (all_removed (diff_loop symbols api_types versions)))))
            <-> (exists e, e ∈ es /\ x ∈ vi_added e)
                /\ ~ (exists e, e ∈ es /\ x ∈ vi_removed e)) as Hnew.
  { intros x. rewrite sorted_names_elem, elem_of_difference,
      !elem_of_list_to_set, !sorted_names_elem, !elem_of_list_to_set.
    by rewrite Hadd, Hrem. }
  assert (forall x,
            x ∈ sorted_names
                  (list_to_set (sorted_names (list_to_set
                     (all_removed (diff_loop symbols api_types versions))))
                   ∖ list_to_set (sorted_names (list_to_set
                     (all_added (diff_loop symbols api_types versions)))))
            <-> (exists e, e ∈ es /\ x ∈ vi_removed e)
                /\ ~ (exists e, e ∈ es /\ x ∈ vi_added e)) as Hgone.
  { intros x. rewrite sorted_names_elem, elem_of_difference,
      !elem_of_list_to_set, !sorted_names_elem, !elem_of_list_to_set.
    by rewrite Hadd, Hrem. }
  rewrite He. split_and!.
  - unfold es. rewrite entries_from_length, Hver. simpl. lia.
  - intros i prev curr Hp Hc. exists (diff_entry (fetch_version symbols api_types) prev curr).
    rewrite Hver in Hp, Hc. rewrite Nat.add_1_r in Hc. simpl in Hc.
    split_and!; try done.
    + by apply entries_from_lookup.
    + apply sorted_names_spec.
    + apply sorted_names_spec.
    + simpl. intros x. rewrite !sorted_names_elem, !elem_of_difference.
      tauto.
  - apply sorted_names_spec.
  - apply sorted_names_spec.
  - exact Hnew.
  - exact Hgone.
  - intros x e1 e2 He1 He2 Hx1 Hx2. split.
    + rewrite Hnew. intros [_ Hno]. apply Hno. by exists e2.
    + rewrite Hgone. intros [_ Hno]. apply Hno. by exists e1.
  - by rewrite Ha.
  - rewrite length_sorted_names.
    etrans; [apply subseteq_size|].
    { apply (subseteq_difference_l _ _ _ (reflexivity _)). }
    etrans; [apply size_list_to_set_le|].
    rewrite length_sorted_names.
    etrans; [apply size_list_to_set_le|].
    rewrite Hla, length_join. simpl.
    unfold es. by rewrite entries_from_counts.
Qed.

Lemma changelog_pairs_and_net_scenario_B :
  (2 <= length ["1.0"; "2.0"; "3.0"] /\ ["runtime"] <> [])
  /\ exists cl,
       changelog_of_range sets_A ["1.0"; "2.0"; "3.0"] ["runtime"] = Ok cl
       /\ length (cl_versions cl) = 2
       /\ sum_net_new (cl_summary cl) = ["g"]
       /\ sum_net_removed (cl_summary cl) = ["f"].
Proof.
  assert (2 <= length ["1.0"; "2.0"; "3.0"]) as Hlen by (simpl; lia).
  split; [by split|].
  destruct (changelog_pairs_and_net sets_A ["1.0"; "2.0"; "3.0"] ["runtime"]
              Hlen) as (cl & Hcl & Hn & _); [done|].
  exists cl. split_and!; [done..| |].
  - assert (exists cl',
              changelog_of_range sets_A ["1.0"; "2.0"; "3.0"] ["runtime"] = Ok cl'
              /\ sum_net_new (cl_summary cl') = ["g"]) as (cl' & Hcl' & Hg).
    { eexists. split; vm_compute; reflexivity. }
    rewrite Hcl in Hcl'. by injection Hcl' as ->.
  - assert (exists cl',
              changelog_of_range sets_A ["1.0"; "2.0"; "3.0"] ["runtime"] = Ok cl'
              /\ sum_net_removed (cl_summary cl') = ["f"]) as (cl' & Hcl' & Hf).
    { eexists. split; vm_compute; reflexivity. }
    rewrite Hcl in Hcl'. by injection Hcl' as ->.
Defined.

(** ** Version symbol cache *)

Lemma startswith_https (rest : string) :
  Py.startswith ("https://" +:+ rest) "https://" = true.
Proof. unfold Py.startswith. cbn. by destruct rest. Qed.

Section CacheFacts.
Variable versions : list string.
Variable request_accepts : string -> bool.
Variable response : string -> string.
Variable extract_apis_from_html : string -> gset string.
Variable group_links : string -> list string.
Variable writable : string -> bool.
Variable mkdir_ok : bool.

Local Abbreviation fetch := (fetch_url request_accepts response).
Local Abbreviation groups :=
  (fetch_groups request_accepts response extract_apis_from_html).
Local Abbreviation tries :=
  (try_urls request_accepts response extract_apis_from_html group_links).
Local Abbreviation collected :=
  (groups_symbols response extract_apis_from_html).
Local Abbreviation found :=
  (candidates_symbols response extract_apis_from_html group_links).

(** *** What can leave the loops *)

Lemma fetch_url_raises (url : string) (e : exn) :
  fetch url = Raise e -> e = ValueError.
Proof. unfold fetch_url. destruct (request_accepts url); [done|]. by intros [= <-]. Qed.

Lemma fetch_url_returns (url text : string) :
  fetch url = Ok text -> text = response url.
Proof. unfold fetch_url. destruct (request_accepts url); [|done]. by intros [= <-]. Qed.

Lemma fetch_groups_raises (base_path : string) (links : list string)
    (apis : gset string) (e : exn) :
  groups base_path links apis = Raise e -> e = ValueError.
Proof.
  revert apis. induction links as [|link links IH]; intros apis; simpl; [done|].
  destruct (fetch (group_url base_path link)) as [text|e'] eqn:Hf; simpl.
  - apply IH.
  - intros [= <-]. by eapply fetch_url_raises.
Qed.

Lemma fetch_groups_returns (base_path : string) (links : list string)
    (apis r : gset string) :
  groups base_path links apis = Ok r -> r = collected base_path links apis.
Proof.
  unfold groups_symbols.
  revert apis. induction links as [|link links IH]; intros apis; simpl.
  { by intros [= <-]. }
  destruct (fetch (group_url base_path link)) as [text|e'] eqn:Hf; simpl; [|done].
  apply fetch_url_returns in Hf as ->. apply IH.
Qed.

Lemma try_urls_raises (urls : list string) (apis : gset string) (e : exn) :
  tries urls apis = Raise e -> e = ValueError.
Proof.
  revert apis. induction urls as [|url urls IH]; intros apis; simpl; [done|].
  destruct (fetch url) as [html|e'] eqn:Hf; simpl;
    [|intros [= <-]; by eapply fetch_url_raises].
  destruct (nonempty_str html); [|apply IH].
  destruct (groups _ _ _) as [apis'|e'] eqn:Hg; simpl;
    [|intros [= <-]; by eapply fetch_groups_raises].
  destruct (nonempty_set apis'); [done|apply IH].
Qed.

Lemma try_urls_returns (urls : list string) (apis r : gset string) :
  tries urls apis = Ok r -> r = found urls apis.
Proof.
  revert apis. induction urls as [|url urls IH]; intros apis; simpl.
  { by intros [= <-]. }
  destruct (fetch url) as [html|e'] eqn:Hf; simpl; [|done].
  apply fetch_url_returns in Hf as ->.
  destruct (nonempty_str (response url)); [|apply IH].
  destruct (groups _ _ _) as [apis'|e'] eqn:Hg; simpl; [|done].
  apply fetch_groups_returns in Hg as <-.
  destruct (nonempty_set apis'); [by intros [= <-]|apply IH].
Qed.

(** What a call that returns has computed. *)
Lemma call_returns (version api_type : string) (use_cache : bool)
    (cache cache' : gmap string cache_file) (apis : gset string) :
  get_api_list_for_version versions request_accepts response
    extract_apis_from_html group_links writable mkdir_ok
    version api_type use_cache cache = Ok (apis, cache') ->
  mkdir_ok = true
  /\ match cached use_cache cache (cache_file_name version api_type) with
     | Some names => apis = list_to_set names /\ cache' = cache
     | None =>
         exists newest,
           last versions = Some newest
           /\ apis = fetched_symbols response extract_apis_from_html group_links
                       newest version api_type
           /\ cache'
              = if nonempty_set apis && use_cache
                   && writable (cache_file_name version api_type)
                then <[cache_file_name version api_type
                       := Json (sorted_names apis)]> cache
                else cache
     end.
Proof.
  unfold get_api_list_for_version, get_cache_path, cached.
  destruct mkdir_ok; [|done]. cbn [mbind outcome_bind].
  destruct (if use_cache then cache !! cache_file_name version api_type else None)
    as [[names|]|].
  - by intros [= <- <-].
  - destruct (last versions) as [newest|]; cbn [or_raise mbind outcome_bind];
      [|done].
    destruct (try_urls _ _ _ _ _ _) as [found_apis|e] eqn:Ht;
      cbn [mbind outcome_bind]; [|done].
    destruct (fetch_url _ _ _) as [text|e] eqn:Hd; cbn [mbind outcome_bind];
      [|done].
    apply try_urls_returns in Ht as ->. apply fetch_url_returns in Hd as ->.
    intros [= <- <-]. split; [done|]. by exists newest.
  - destruct (last versions) as [newest|]; cbn [or_raise mbind outcome_bind];
      [|done].
    destruct (try_urls _ _ _ _ _ _) as [found_apis|e] eqn:Ht;
      cbn [mbind outcome_bind]; [|done].
    destruct (fetch_url _ _ _) as [text|e] eqn:Hd; cbn [mbind outcome_bind];
      [|done].
    apply try_urls_returns in Ht as ->. apply fetch_url_returns in Hd as ->.
    intros [= <- <-]. split; [done|]. by exists newest.
Qed.

(** *** When every URL is accepted *)

Hypothesis https : https_accepted request_accepts.

Lemma group_url_accepted (rest link : string) :
  (Py.startswith link "http" = true -> request_accepts link = true) ->
  request_accepts (group_url ("https://" +:+ rest) link) = true.
Proof.
  intros Hlink. unfold group_url.
  destruct (Py.startswith link "http"); [by apply Hlink|].
  apply https. exact (startswith_https (rest +:+ "/" +:+ link)).
Qed.

Lemma fetch_groups_accepted (rest : string) (links : list string)
    (apis : gset string) :
  links_accepted request_accepts links ->
  groups ("https://" +:+ rest) links apis
  = Ok (collected ("https://" +:+ rest) links apis).
Proof.
  unfold groups_symbols.
  revert apis. induction links as [|link links IH]; intros apis Hacc; [done|].
  cbn [fetch_groups foldl]. unfold fetch_url at 1.
  rewrite group_url_accepted by (apply Hacc; by left).
  cbn [mbind outcome_bind]. apply IH. intros l Hl. apply Hacc. by right.
Qed.

(** The first link that [Request] refuses ends the call. *)
Lemma fetch_groups_rejected (rest : string) (before after : list string)
    (link : string) (apis : gset string) :
  links_accepted request_accepts before ->
  Py.startswith link "http" = true -> request_accepts link = false ->
  groups ("https://" +:+ rest) (before ++ link :: after) apis = Raise ValueError.
Proof.
  revert apis. induction before as [|l before IH]; intros apis Hacc Hhttp Hrej.
  - cbn [app fetch_groups]. unfold fetch_url at 1, group_url.
    by rewrite Hhttp, Hrej.
  - cbn [app fetch_groups]. unfold fetch_url at 1.
    rewrite group_url_accepted by (apply Hacc; by left).
    cbn [mbind outcome_bind]. apply IH; [|done..].
    intros l' Hl'. apply Hacc. by right.
Qed.

Lemma try_urls_accepted (urls : list string) (apis : gset string) :
  pages_links_accepted request_accepts response group_links ->
  Forall docs_url urls ->
  tries urls apis = Ok (found urls apis).
Proof.
  intros Hpages Hurls. revert apis.
  induction Hurls as [|url urls [Hurl [rest Hbase]] Hurls IH]; intros apis; [done|].
  cbn [try_urls candidates_symbols]. unfold fetch_url at 1.
  rewrite (https url Hurl). cbn [mbind outcome_bind].
  destruct (nonempty_str (response url)) eqn:Hpage; [|apply IH].
  rewrite Hbase, fetch_groups_accepted by (by apply Hpages).
  cbn [mbind outcome_bind]. destruct (nonempty_set _); [done|apply IH].
Qed.

Lemma candidate_urls_docs (newest version api_type : string) :
  Forall docs_url (candidate_urls newest version api_type).
Proof.
  assert (docs_url (index_url version api_type)) as H1.
  { unfold docs_url, index_url, ARCHIVE_BASE.
    split; [reflexivity|]. eexists. cbn. reflexivity. }
  assert (docs_url (nested_index_url version api_type)) as H2.
  { unfold docs_url, nested_index_url, ARCHIVE_BASE.
    split; [reflexivity|]. eexists. cbn. reflexivity. }
  assert (docs_url (latest_index_url api_type)) as H3.
  { unfold docs_url, latest_index_url, LATEST_BASE.
    split; [reflexivity|]. eexists. cbn. reflexivity. }
  unfold candidate_urls.
  destruct (decide (version = newest)); simpl;
    repeat (apply Forall_cons_2; [done|]); apply Forall_nil_2.
Qed.

(** The call when the directory can be made and no link is refused. *)
Lemma call_accepted (newest version api_type : string) (use_cache : bool)
    (cache : gmap string cache_file) :
  mkdir_ok = true -> last versions = Some newest ->
  pages_links_accepted request_accepts response group_links ->
  get_api_list_for_version versions request_accepts response
    extract_apis_from_html group_links writable mkdir_ok
    version api_type use_cache cache
  = match cached use_cache cache (cache_file_name version api_type) with
    | Some names => Ok (list_to_set names, cache)
    | None =>
        let apis :=
          fetched_symbols response extract_apis_from_html group_links
            newest version api_type in
        Ok (apis,
            if nonempty_set apis && use_cache
               && writable (cache_file_name version api_type)
            then <[cache_file_name version api_type
                   := Json (sorted_names apis)]> cache
            else cache)
    end.
Proof.
  intros Hmk Hlast Hpages.
  unfold get_api_list_for_version, get_cache_path, cached. rewrite Hmk, Hlast.
  cbn [mbind outcome_bind or_raise].
  assert (try_urls request_accepts response extract_apis_from_html group_links
            (candidate_urls newest version api_type) ∅
          = Ok (found (candidate_urls newest version api_type) ∅)) as Htry.
  { apply try_urls_accepted; [done|apply candidate_urls_docs]. }
  unfold candidate_urls in Htry at 1.
  assert (fetch (deprecated_url version api_type)
          = Ok (response (deprecated_url version api_type))) as Hdep.
  { unfold fetch_url. by rewrite https. }
  destruct (if use_cache then cache !! cache_file_name version api_type else None)
    as [[names|]|]; [done| |];
    rewrite Htry; cbn [mbind outcome_bind]; rewrite Hdep; done.
Qed.

End CacheFacts.

Section CacheNothing.
Variable response : string -> string.
Variable extract_apis_from_html : string -> gset string.
Variable group_links : string -> list string.

(** No page that can be fetched yields a symbol. *)
Hypothesis no_content :
  forall url, nonempty_str (response url) = true ->
              extract_apis_from_html (response url) = ∅.

Lemma groups_symbols_nothing (base_path : string) (links : list string) :
  groups_symbols response extract_apis_from_html base_path links ∅ = ∅.
Proof.
  unfold groups_symbols. induction links as [|link links IH]; simpl; [done|].
  match goal with
  | |- context [nonempty_str (response ?u)] =>
      destruct (nonempty_str (response u)) eqn:Hu;
      [rewrite (no_content u Hu), (left_id_L ∅ (∪))|]
  end; exact IH.
Qed.

Lemma candidates_symbols_nothing (urls : list string) :
  candidates_symbols response extract_apis_from_html group_links urls ∅ = ∅.
Proof.
  induction urls as [|url urls IH]; simpl; [done|].
  destruct (nonempty_str (response url)) eqn:Hu; [|done].
  rewrite (no_content url Hu), (left_id_L ∅ (∪)), groups_symbols_nothing.
  unfold nonempty_set. rewrite bool_decide_eq_true_2 by done. simpl. exact IH.
Qed.

Lemma fetched_symbols_nothing (newest version api_type : string) :
  fetched_symbols response extract_apis_from_html group_links
    newest version api_type = ∅.
Proof.
  unfold fetched_symbols. rewrite candidates_symbols_nothing.
  destruct (nonempty_str (response (deprecated_url version api_type))) eqn:Hd;
    [|done].
  by rewrite (no_content _ Hd), (left_id_L ∅ (∪)).
Qed.

End CacheNothing.




(** ** Exit status *)

Section SearchOutcome.
Variable versions : list string.
Variable symbols : string -> string -> gset string.
Variables (api_name api_type : string) (full_scan : bool).

Local Abbreviation present := (present_at symbols api_name api_type).
Local Abbreviation search :=
  (find_api_history versions symbols api_name api_type full_scan).

Lemma removed_loop_none (vr vs : list string) (r : SearchResult) :
  Forall (fun v => ~ present v) vs ->
  removed_loop symbols api_name api_type full_scan vr vs r
  = Ok (skip_absent vs r).
Proof.
  intros Hvs. revert r. induction Hvs as [|v vs Hv Hvs IH]; intros r; simpl; [done|].
  apply found_in_false in Hv. rewrite Hv. apply IH.
Qed.

Lemma skip_absent_fields (l : list string) (r : SearchResult) :
  sr_introduced (skip_absent l r) = sr_introduced r
  /\ sr_removed (skip_absent l r) = sr_removed r.
Proof.
  revert r. induction l as [|x l IH]; intros r; simpl; [done|].
  by destruct (IH (add_not_found x (count_fetch x r))) as [-> ->].
Qed.

(** A symbol that no version holds: the search ends with an empty
    [present_in] and both boundaries unset. *)
Lemma find_none :
  versions <> [] -> (forall v, v ∈ versions -> ~ present v) ->
  exists r, search = Ok r /\ sr_present_in r = []
                 /\ sr_introduced r = None /\ sr_removed r = None.
Proof.
  intros Hne Hnone. unfold find_api_history.
  destruct (reverse versions) as [|latest older] eqn:Hrev.
  { apply (f_equal reverse) in Hrev. by rewrite reverse_involutive in Hrev. }
  assert (forall v, v ∈ latest :: older -> ~ present v) as Hvr.
  { intros v Hv. apply Hnone. rewrite <-Hrev in Hv.
    exact (proj1 (elem_of_reverse _ _) Hv). }
  simpl. rewrite drop_0.
  rewrite (proj2 (found_in_false symbols api_name api_type latest))
    by (apply Hvr; by left).
  rewrite removed_loop_none
    by (apply Forall_forall; intros; apply Hvr; by right).
  simpl. rewrite skip_absent_present_in. simpl.
  eexists. split; [reflexivity|]. simpl.
  destruct (skip_absent_fields older
              (add_not_found latest
                 (count_fetch latest (initial_result api_name api_type))))
    as [-> ->].
  done.
Qed.

(** A symbol in the latest version: a search that returns has a
    non-empty [present_in]. *)
Lemma find_present_nonempty (latest : string) (older_rev : list string)
    (r : SearchResult) :
  reverse versions = latest :: older_rev -> present latest ->
  search = Ok r -> sr_present_in r <> [].
Proof.
  intros Hrev Hlatest%found_in_true. unfold find_api_history.
  rewrite Hrev. simpl. rewrite Hlatest, drop_0.
  destruct (sorted_by_index versions _) as [l|e]; simpl; [|done].
  destruct l as [|first rest]; simpl; [done|].
  by intros [= <-].
Qed.

(** A symbol some version holds is found by the search, in both modes. *)
Lemma find_some :
  NoDup versions -> (exists v, v ∈ versions /\ present v) ->
  exists r, search = Ok r /\ sr_present_in r <> [].
Proof.
  intros Hnd (v & Hv & Hpv).
  assert (versions <> []) as Hne by (intros ->; by apply elem_of_nil in Hv).
  destruct (non_empty_snoc versions Hne) as (older & newest & Hver).
  destruct (decide (present newest)) as [Hnew|Hnew].
  - destruct (find_api_history_logged versions symbols api_name api_type
                full_scan Hne) as (r & Hr & _).
    exists r. split; [done|].
    eapply (find_present_nonempty newest (reverse older)); [|done..].
    by rewrite Hver, reverse_snoc.
  - destruct (find_absent_split versions older newest symbols api_name api_type
                full_scan Hver Hnd Hnew)
      as (l0 & run & l2 & r & Hsplit & Hrun_ne & _ & Hrun & _ & _ & Hr & _ & Hb & Hf).
    { exists v. split; [|done]. rewrite Hver in Hv.
      apply elem_of_app in Hv as [?| ->%list_elem_of_singleton]; done. }
    exists r. split; [done|]. intros Hnil.
    destruct full_scan.
    + destruct (Hf eq_refl) as [_ Hp]. rewrite Hp in Hnil.
      eapply (filter_nil_not_elem_of _ _ v Hnil); done.
    + destruct (Hb eq_refl) as [_ Hp]. congruence.
Qed.

End SearchOutcome.

Lemma api_type_str_ok (api_types : list string) :
  api_types <> [] -> exists t, api_type_str api_types = Ok t.
Proof.
  intros Hty. unfold api_type_str.
  destruct (decide (1 < length api_types)); [by eexists|].
  destruct api_types; [done|]. by eexists.
Qed.

Lemma changelog_of_range_ok (symbols : string -> string -> gset string)
    (versions api_types : list string) :
  2 <= length versions -> api_types <> [] ->
  exists cl, changelog_of_range symbols versions api_types = Ok cl.
Proof.
  intros Hlen Hty. unfold changelog_of_range. rewrite decide_False by lia.
  destruct (api_type_str_ok api_types Hty) as [t ->]. simpl.
  destruct versions as [|v0 vs] eqn:Hver; [simpl in Hlen; lia|].
  rewrite <-Hver. assert (Py.getitem versions 0 = Ok v0) as -> by (by rewrite Hver).
  simpl.
  destruct (last versions) as [newest|] eqn:Hlast;
    [|apply last_None in Hlast; by rewrite Hver in Hlast].
  simpl. by eexists.
Qed.

Lemma changelog_of_range_short (symbols : string -> string -> gset string)
    (versions api_types : list string) :
  length versions < 2 ->
  changelog_of_range symbols versions api_types = Raise (SystemExit 1).
Proof. intros Hlen. unfold changelog_of_range. by rewrite decide_True. Qed.

Lemma range_since_unresolved (versions : list string) (tok : string)
    (until : option string) :
  find_closest_version versions tok = Ok None ->
  get_version_range versions (Some tok) until = Raise (SystemExit 1).
Proof.
  intros Hres. unfold get_version_range, range_start_idx. by rewrite Hres.
Qed.

Lemma range_until_unresolved (versions : list string) (since : option string)
    (tok : string) (i : nat) :
  range_start_idx versions since = Ok i -> tok <> EmptyString ->
  find_closest_version versions tok = Ok None ->
  get_version_range versions since (Some tok) = Raise (SystemExit 1).
Proof.
  intros Hstart Htok Hres. unfold get_version_range, range_end_idx.
  rewrite Hstart. simpl. destruct tok; [done|]. simpl in *. by rewrite Hres.
Qed.

Lemma main_api_types_nonempty (api_type : string) :
  (if decide (api_type = "both") then ["runtime"; "driver"] else [api_type]) <> [].
Proof. by destruct (decide _). Qed.




(** ** Version resolver *)

Lemma split_nonempty (sep : ascii) (s : string) : Py.split sep s <> [].
Proof.
  induction s as [|c s IH]; simpl; [done|].
  destruct (decide (c = sep)); [done|]. by destruct (Py.split sep s).
Qed.

Lemma comprehension_length {A B} (f : A -> outcome B) (l : list A) (ys : list B) :
  Py.comprehension f l = Ok ys -> length ys = length l.
Proof.
  revert ys. induction l as [|x l IH]; intros ys; simpl.
  - by intros [= <-].
  - destruct (f x) as [y|e]; simpl; [|done].
    destruct (Py.comprehension f l) as [ys'|e]; simpl; [|done].
    intros [= <-]. simpl. by rewrite (IH ys').
Qed.

Lemma version_parts_nonempty (s : string) (parts : list Z) :
  version_parts s = Ok parts -> parts <> [].
Proof.
  intros Hp%comprehension_length Hnil. rewrite Hnil in Hp. simpl in Hp.
  pose proof (split_nonempty "."%char s) as Hs.
  by destruct (Py.split "." s).
Qed.

Lemma first_startswith_found (target v : string) (l1 l2 : list string) :
  Forall (fun w => Py.startswith w target = false) l1 ->
  Py.startswith v target = true ->
  first_startswith target (l1 ++ v :: l2) = Some v.
Proof.
  intros Hl1 Hv. induction Hl1 as [|w l1 Hw Hl1 IH]; simpl.
  - by rewrite Hv.
  - by rewrite Hw.
Qed.

Lemma first_startswith_none (target : string) (vs : list string) :
  Forall (fun w => Py.startswith w target = false) vs ->
  first_startswith target vs = None.
Proof. induction 1 as [|w vs Hw Hvs IH]; simpl; [done|]. by rewrite Hw. Qed.

Section NumericRule.
Variable target_parts : list Z.
Hypothesis target_parts_nonempty : target_parts <> [].

Lemma first_major_minor_skip (w : string) (vs : list string) :
  well_formed_version w -> ~ matches_numeric target_parts w ->
  first_major_minor target_parts (w :: vs) = first_major_minor target_parts vs.
Proof.
  intros (major & minor & rest & Hw) Hno. simpl. rewrite Hw. simpl.
  destruct target_parts as [|t0 trest] eqn:Htp; [done|]. simpl.
  destruct (decide (major = t0)) as [->|Hne]; [|done].
  destruct (decide (S (length trest) = 1)) as [Hone|Hmore].
  { exfalso. apply Hno. exists t0, minor, rest. split_and!; [done..|by left]. }
  destruct trest as [|t1 trest']; [done|]. simpl.
  destruct (decide (minor >= t1)%Z) as [Hge|Hlt]; [|done].
  exfalso. apply Hno. exists t0, minor, rest. split_and!; [done..|].
  right. by exists t1.
Qed.

Lemma first_major_minor_hit (v : string) (vs : list string) :
  matches_numeric target_parts v ->
  first_major_minor target_parts (v :: vs) = Ok (Some v).
Proof.
  intros (major & minor & rest & Hv & Hmaj & Hmin). simpl. rewrite Hv. simpl.
  destruct target_parts as [|t0 trest] eqn:Htp; [done|]. simpl in *.
  injection Hmaj as ->. rewrite decide_True by done.
  destruct Hmin as [Hone|(tminor & Ht1 & Hge)].
  - by rewrite decide_True.
  - destruct trest as [|t1 trest']; [by inversion Ht1|]. simpl in *.
    injection Ht1 as ->. by rewrite decide_True.
Qed.

(** The numeric rule returns the first version, in list order, that
    matches. *)
Lemma first_major_minor_found (v : string) (l1 l2 : list string) :
  Forall well_formed_version l1 ->
  Forall (fun w => ~ matches_numeric target_parts w) l1 ->
  matches_numeric target_parts v ->
  first_major_minor target_parts (l1 ++ v :: l2) = Ok (Some v).
Proof.
  intros Hwf Hno Hv. induction Hwf as [|w l1 Hw Hwf IH].
  - by apply first_major_minor_hit.
  - apply Forall_cons in Hno as [Hnw Hno].
    rewrite <-app_comm_cons, first_major_minor_skip by done. by apply IH.
Qed.

Lemma first_major_minor_none (vs : list string) :
  Forall well_formed_version vs ->
  Forall (fun w => ~ matches_numeric target_parts w) vs ->
  first_major_minor target_parts vs = Ok None.
Proof.
  intros Hwf Hno. induction Hwf as [|w vs Hw Hwf IH]; [done|].
  apply Forall_cons in Hno as [Hnw Hno].
  rewrite first_major_minor_skip by done. by apply IH.
Qed.

End NumericRule.

(** The resolver on a list of well-formed versions: an exact match wins,
    then the first version the token is a prefix of, then the first
    version matching the numeric rule; a token that matches nothing gives
    [None] if it is numeric, and the [ValueError] of [int] if it is not. *)
Lemma find_closest_version_rules (versions : list string) (target : string) :
  Forall well_formed_version versions ->
  (target ∈ versions -> find_closest_version versions target = Ok (Some target))
  /\ (forall l1 v l2,
        target ∉ versions -> versions = l1 ++ v :: l2 ->
        Forall (fun w => Py.startswith w target = false) l1 ->
        Py.startswith v target = true ->
        find_closest_version versions target = Ok (Some v))
  /\ (forall parts l1 v l2,
        target ∉ versions ->
        Forall (fun w => Py.startswith w target = false) versions ->
        version_parts target = Ok parts ->
        versions = l1 ++ v :: l2 ->
        Forall (fun w => ~ matches_numeric parts w) l1 ->
        matches_numeric parts v ->
        find_closest_version versions target = Ok (Some v))
  /\ (forall parts,
        target ∉ versions ->
        Forall (fun w => Py.startswith w target = false) versions ->
        version_parts target = Ok parts ->
        Forall (fun w => ~ matches_numeric parts w) versions ->
        find_closest_version versions target = Ok None)
  /\ (forall e,
        target ∉ versions ->
        Forall (fun w => Py.startswith w target = false) versions ->
        version_parts target = Raise e ->
        find_closest_version versions target = Raise e).
Proof.
  intros Hwf. unfold find_closest_version. split_and!.
  - intros Hin. by rewrite bool_decide_eq_true_2.
  - intros l1 v l2 Hnin -> Hl1 Hv.
    rewrite bool_decide_eq_false_2 by done.
    by rewrite first_startswith_found.
  - intros parts l1 v l2 Hnin Hpre Hparts Hver Hl1 Hv.
    rewrite bool_decide_eq_false_2 by done.
    rewrite first_startswith_none by done. rewrite Hparts. simpl.
    rewrite Hver. apply first_major_minor_found; try done.
    + by eapply version_parts_nonempty.
    + rewrite Hver in Hwf. by apply Forall_app in Hwf as [? _].
  - intros parts Hnin Hpre Hparts Hno.
    rewrite bool_decide_eq_false_2 by done.
    rewrite first_startswith_none by done. rewrite Hparts. simpl.
    apply first_major_minor_none; try done.
    by eapply version_parts_nonempty.
  - intros e Hnin Hpre Hparts.
    rewrite bool_decide_eq_false_2 by done.
    rewrite first_startswith_none by done. by rewrite Hparts.
Qed.

Lemma CUDA_VERSIONS_well_formed : Forall well_formed_version CUDA_VERSIONS.
Proof.
  unfold CUDA_VERSIONS.
  repeat (apply Forall_cons_2; [by eexists _, _, _|]).
  apply Forall_nil_2.
Qed.

(** Scenario C: token [2] over [1.0, 2.0, 2.1, 3.0] resolves to [2.0], and
    token [9] to nothing. *)
Example resolve_scenario_C :
  find_closest_version ["1.0"; "2.0"; "2.1"; "3.0"] "2" = Ok (Some "2.0")
  /\ find_closest_version ["1.0"; "2.0"; "2.1"; "3.0"] "9" = Ok None.
Proof. split; reflexivity. Qed.

(** The numeric rule on the real list: [11.9] matches no 11.x release,
    [12.7] resolves to the next minor release there is. *)
Example resolve_numeric :
  find_closest_version CUDA_VERSIONS "11.9" = Ok None
  /\ find_closest_version CUDA_VERSIONS "12.7" = Ok (Some "12.8.0").
Proof. split; vm_compute; reflexivity. Qed.

(** C5: the token [abc] is a string the resolver can be given; it equals
    no version, is a prefix of none, and is not numeric.  The resolver then
    leaves through the [ValueError] of [int] instead of returning [None],
    and so does [get_version_range], which never reaches its report of an
    unknown version. *)
Theorem resolve_non_numeric_token :
  find_closest_version CUDA_VERSIONS "abc" = Raise ValueError
  /\ get_version_range CUDA_VERSIONS (Some "abc") None = Raise ValueError
  /\ get_version_range CUDA_VERSIONS (Some "9") (Some "abc") = Raise ValueError.
Proof. split_and!; vm_compute; reflexivity. Qed.

(** ** Version range *)

(** A slice whose bounds are in order and inside the list is a non-empty
    run of consecutive versions. *)
Lemma slice_ordered {A} (l : list A) (start_idx end_idx : nat) :
  start_idx < end_idx -> end_idx <= length l ->
  Py.slice l start_idx end_idx <> []
  /\ length (Py.slice l start_idx end_idx) = end_idx - start_idx
  /\ exists before after, l = before ++ Py.slice l start_idx end_idx ++ after
                          /\ length before = start_idx.
Proof.
  intros Hlt Hle. unfold Py.slice.
  assert (length (drop start_idx (take end_idx l)) = end_idx - start_idx) as Hlen.
  { rewrite length_drop, length_take. lia. }
  split_and!; [|done|].
  - intros Hnil. rewrite Hnil in Hlen. simpl in Hlen. lia.
  - exists (take start_idx l), (drop end_idx l). split.
    + rewrite app_assoc.
      rewrite <-(take_drop end_idx l) at 1. f_equal.
      rewrite <-(take_drop start_idx (take end_idx l)) at 1. f_equal.
      rewrite take_take. f_equal. lia.
    + rewrite length_take. lia.
Qed.

(** The range between two resolved tokens, the first ranked no later than
    the second: the inclusive, non-empty slice between the two ranks. *)
Lemma get_version_range_ordered (versions : list string)
    (since until : option string) (i j : nat) :
  range_start_idx versions since = Ok i ->
  range_end_idx versions until = Ok (j + 1) ->
  i <= j -> j < length versions ->
  exists vs before after,
    get_version_range versions since until = Ok vs
    /\ vs <> [] /\ length vs = j + 1 - i
    /\ versions = before ++ vs ++ after /\ length before = i.
Proof.
  intros Hs He Hij Hj. unfold get_version_range. rewrite Hs, He. simpl.
  destruct (slice_ordered versions i (j + 1)) as (Hne & Hlen & before & after & Hv & Hb);
    [lia..|].
  by exists (Py.slice versions i (j + 1)), before, after.
Qed.

(** C6: the tokens [12.0.0] and [11.0] both resolve, the first to a
    version ranked after the second, and the range between them is empty;
    the catalog builder, which reads the first and the last version of the
    range, then leaves through an [IndexError]. *)
Theorem range_of_reversed_tokens_is_empty :
  find_closest_version CUDA_VERSIONS "12.0.0" = Ok (Some "12.0.0")
  /\ find_closest_version CUDA_VERSIONS "11.0" = Ok (Some "11.0")
  /\ get_version_range CUDA_VERSIONS (Some "12.0.0") (Some "11.0") = Ok []
  /\ (forall symbols api_types,
        generate_api_catalog CUDA_VERSIONS symbols
          (Some "12.0.0") (Some "11.0") api_types = Raise IndexError).
Proof.
  split_and!; try (vm_compute; reflexivity).
  intros symbols api_types. unfold generate_api_catalog.
  assert (get_version_range CUDA_VERSIONS (Some "12.0.0") (Some "11.0") = Ok [])
    as -> by (vm_compute; reflexivity).
  simpl. unfold catalog_of_range.
  destruct (api_type_str _) as [t|e] eqn:Ht; simpl; [done|].
  unfold api_type_str in Ht.
  destruct (decide _) in Ht; [done|].
  destruct (default _ api_types); [|done]. simpl in Ht. by injection Ht as <-.
Qed.

(** * Further properties of the code *)

(** ** Version resolver and range *)

Lemma first_startswith_elem (target v : string) (vs : list string) :
  first_startswith target vs = Some v -> v ∈ vs.
Proof.
  induction vs as [|w vs IH]; simpl; [done|].
  destruct (Py.startswith w target).
  - intros [= ->]. by left.
  - intros Hv. right. by apply IH.
Qed.

Lemma first_major_minor_elem (target_parts : list Z) (v : string)
    (vs : list string) :
  first_major_minor target_parts vs = Ok (Some v) -> v ∈ vs.
Proof.
  induction vs as [|w vs IH]; simpl; [done|].
  destruct (version_parts w) as [v_parts|e1]; simpl; [|done].
  destruct (Py.getitem v_parts 0) as [v0|e2]; simpl; [|done].
  destruct (Py.getitem target_parts 0) as [t0|e3]; simpl; [|done].
  destruct (decide (v0 = t0)) as [Heq|Hne]; [|intros Hv; right; by apply IH].
  destruct (decide (length target_parts = 1)) as [Hone|Hmore].
  { intros [= ->]. by left. }
  destruct (Py.getitem v_parts 1) as [v1|e4]; simpl; [|done].
  destruct (Py.getitem target_parts 1) as [t1|e5]; simpl; [|done].
  destruct (decide (v1 >= t1)%Z) as [Hge|Hlt].
  - intros [= ->]. by left.
  - intros Hv. right. by apply IH.
Qed.

Lemma find_closest_version_elem (versions : list string) (target v : string) :
  find_closest_version versions target = Ok (Some v) -> v ∈ versions.
Proof.
  unfold find_closest_version.
  destruct (bool_decide (target ∈ versions)) eqn:Hin.
  { intros [= <-]. by apply bool_decide_eq_true in Hin. }
  destruct (first_startswith target versions) as [w|] eqn:Hpre.
  { intros [= <-]. by eapply first_startswith_elem. }
  destruct (version_parts target) as [parts|e]; simpl; [|done].
  apply first_major_minor_elem.
Qed.

(** X1: whatever rule resolves a token, the version it resolves to is an
    entry of the version list. *)
Theorem resolved_version_is_listed
    (versions : list string) (target v : string) :
  find_closest_version versions target = Ok (Some v) -> v ∈ versions.
Proof. apply find_closest_version_elem. Qed.

Lemma resolved_version_is_listed_12_7 :
  find_closest_version CUDA_VERSIONS "12.7" = Ok (Some "12.8.0")
  /\ "12.8.0" ∈ CUDA_VERSIONS.
Proof.
  assert (find_closest_version CUDA_VERSIONS "12.7" = Ok (Some "12.8.0")) as H.
  { vm_compute. reflexivity. }
  split; [exact H|]. exact (resolved_version_is_listed _ _ _ H).
Defined.

Lemma slice_infix {A} (l : list A) (a b : nat) :
  exists before after, l = before ++ Py.slice l a b ++ after.
Proof.
  exists (take a (take b l)), (drop b l). unfold Py.slice.
  by rewrite app_assoc, take_drop, take_drop.
Qed.

(** X2: whenever [get_version_range] returns, its result is a run of
    consecutive entries of the version list, in list order, so it repeats
    no version if the list repeats none; and without tokens it is the
    whole list. *)
Theorem version_range_is_contiguous
    (versions vs : list string) (since until : option string) :
  get_version_range versions since until = Ok vs ->
  (exists before after, versions = before ++ vs ++ after)
  /\ (NoDup versions -> NoDup vs)
  /\ (since = None -> Py.truthy until = false -> vs = versions).
Proof.
  unfold get_version_range.
  destruct (range_start_idx versions since) as [i|e] eqn:Hs; simpl; [|done].
  destruct (range_end_idx versions until) as [j|e] eqn:He; simpl; [|done].
  intros [= <-].
  destruct (slice_infix versions i j) as (before & after & Hv).
  split_and!.
  - by exists before, after.
  - intros Hnd. rewrite Hv in Hnd.
    apply NoDup_app in Hnd as (_ & _ & Hnd).
    by apply NoDup_app in Hnd as (Hnd & _ & _).
  - intros -> Hu. simpl in Hs. injection Hs as <-.
    unfold range_end_idx in He. rewrite Hu in He. injection He as <-.
    unfold Py.slice. by rewrite drop_0, firstn_all.
Qed.

Lemma version_range_is_contiguous_11 :
  get_version_range CUDA_VERSIONS (Some "11.8") (Some "12.1")
  = Ok ["11.8.0"; "12.0.0"; "12.0.1"; "12.1.0"]
  /\ exists before after,
       CUDA_VERSIONS
       = before ++ ["11.8.0"; "12.0.0"; "12.0.1"; "12.1.0"] ++ after.
Proof.
  assert (get_version_range CUDA_VERSIONS (Some "11.8") (Some "12.1")
          = Ok ["11.8.0"; "12.0.0"; "12.0.1"; "12.1.0"]) as H.
  { vm_compute. reflexivity. }
  split; [exact H|].
  exact (proj1 (version_range_is_contiguous _ _ _ _ H)).
Defined.

(** ** Boundary search: the walk *)

Section SearchWalk.
Variable symbols : string -> string -> gset string.
Variables (api_name api_type : string).

Local Abbreviation found := (found_in symbols api_name api_type).
Local Abbreviation present := (present_at symbols api_name api_type).
Local Abbreviation extends := (extends_by symbols api_name api_type).

Lemma extends_refl (r : SearchResult) : extends r r [].
Proof.
  unfold extends_by. rewrite !filter_nil, !app_nil_r. simpl.
  split_and!; (done || lia).
Qed.

Lemma extends_trans (r1 r2 r3 : SearchResult) (s1 s2 : list string) :
  extends r1 r2 s1 -> extends r2 r3 s2 -> extends r1 r3 (s1 ++ s2).
Proof.
  intros (Hf1 & Hc1 & Hp1 & Hn1 & Hi1 & Hr1) (Hf2 & Hc2 & Hp2 & Hn2 & Hi2 & Hr2).
  unfold extends_by. rewrite !filter_app, length_app.
  rewrite Hf2, Hf1, Hc2, Hc1, Hp2, Hp1, Hn2, Hn1, Hi2, Hi1, Hr2, Hr1.
  rewrite <-!app_assoc. split_and!; (done || lia).
Qed.

Lemma extends_present (v : string) (r : SearchResult) :
  present v -> extends r (add_present v (count_fetch v r)) [v].
Proof.
  intros Hv. unfold extends_by. simpl.
  rewrite (filter_cons_True present v []) by done.
  rewrite (filter_cons_False (fun v => ~ present v) v []) by tauto.
  rewrite !filter_nil, app_nil_r. done.
Qed.

Lemma extends_not_found (v : string) (r : SearchResult) :
  ~ present v -> extends r (add_not_found v (count_fetch v r)) [v].
Proof.
  intros Hv. unfold extends_by. simpl.
  rewrite (filter_cons_False present v []) by done.
  rewrite (filter_cons_True (fun v => ~ present v) v []) by done.
  rewrite !filter_nil, app_nil_r. done.
Qed.

(** Each loop fetches a leading part of the list it is given. *)
Lemma introduced_loop_extends (full_scan : bool) (vs : list string)
    (r : SearchResult) :
  exists k,
    extends r (introduced_loop symbols api_name api_type full_scan vs r)
      (take k vs)
    /\ (full_scan = true -> k = length vs).
Proof.
  revert r. induction vs as [|v vs IH]; intros r; simpl.
  { exists 0. split; [apply extends_refl|done]. }
  destruct (found v) eqn:Hv.
  - apply found_in_true in Hv.
    destruct (IH (add_present v (count_fetch v r))) as (k & Hk & Hfull).
    exists (S k). split; [|intros; f_equal; auto].
    eapply (extends_trans _ _ _ [v] (take k vs)); [by apply extends_present|done].
  - apply found_in_false in Hv. destruct full_scan; simpl.
    + destruct (IH (add_not_found v (count_fetch v r))) as (k & Hk & Hfull).
      exists (S k). split; [|intros; f_equal; auto].
      eapply (extends_trans _ _ _ [v] (take k vs));
        [by apply extends_not_found|done].
    + exists 1. split; [|done]. by apply extends_not_found.
Qed.

Lemma older_loop_extends (vs : list string) (r : SearchResult) :
  exists k,
    extends r (older_loop symbols api_name api_type vs r) (take k vs).
Proof.
  revert r. induction vs as [|v vs IH]; intros r; simpl.
  { exists 0. apply extends_refl. }
  destruct (found v) eqn:Hv.
  - apply found_in_true in Hv.
    destruct (IH (add_present v (count_fetch v r))) as (k & Hk).
    exists (S k).
    eapply (extends_trans _ _ _ [v] (take k vs)); [by apply extends_present|done].
  - apply found_in_false in Hv. exists 1. by apply extends_not_found.
Qed.

Lemma removed_loop_extends (full_scan : bool) (pre vs : list string)
    (r : SearchResult) :
  NoDup (pre ++ vs) ->
  exists r' k,
    removed_loop symbols api_name api_type full_scan (pre ++ vs) vs r = Ok r'
    /\ extends r r' (take k vs)
    /\ (full_scan = true -> k = length vs).
Proof.
  revert pre r. induction vs as [|v vs IH]; intros pre r Hnd; simpl.
  { exists r, 0. split_and!; [done|apply extends_refl|done]. }
  assert (pre ++ v :: vs = (pre ++ [v]) ++ vs) as Happ by (by rewrite <-app_assoc).
  destruct (found v) eqn:Hv.
  - apply found_in_true in Hv. destruct full_scan; simpl.
    + rewrite Happ in Hnd |- *.
      destruct (IH (pre ++ [v]) (add_present v (count_fetch v r)) Hnd)
        as (r' & k & -> & Hk & Hfull).
      exists r', (S k). split_and!; [done| |intros; f_equal; auto].
      eapply (extends_trans _ _ _ [v] (take k vs)); [by apply extends_present|done].
    + unfold Py.index. rewrite index_opt_app_fresh.
      2:{ apply NoDup_app in Hnd as (_ & Hdis & _). intros Hin.
          apply (Hdis v Hin). by left. }
      simpl.
      assert (drop (length pre + 1) (pre ++ v :: vs) = vs) as ->.
      { rewrite Happ. apply drop_app_length'. rewrite length_app. simpl. lia. }
      destruct (older_loop_extends vs (add_present v (count_fetch v r)))
        as (k & Hk).
      eexists _, (S k). split_and!; [done| |done].
      eapply (extends_trans _ _ _ [v] (take k vs)); [by apply extends_present|done].
  - apply found_in_false in Hv. rewrite Happ in Hnd |- *.
    destruct (IH (pre ++ [v]) (add_not_found v (count_fetch v r)) Hnd)
      as (r' & k & -> & Hk & Hfull).
    exists r', (S k). split_and!; [done| |intros; f_equal; auto].
    eapply (extends_trans _ _ _ [v] (take k vs));
      [by apply extends_not_found|done].
Qed.

(** The walk of a search fetches a leading part of the reversed version
    list, starting with the latest version. *)
Lemma search_walk_extends (versions : list string) (full_scan : bool) :
  NoDup versions -> versions <> [] ->
  exists r1 k,
    search_walk versions symbols api_name api_type full_scan = Ok r1
    /\ 1 <= k
    /\ extends (initial_result api_name api_type) r1 (take k (reverse versions))
    /\ (full_scan = true -> k = length versions).
Proof.
  intros Hnd Hne. unfold search_walk.
  assert (NoDup (reverse versions)) as Hnd' by (by rewrite reverse_Permutation).
  assert (length (reverse versions) = length versions) as Hlen
    by apply length_reverse.
  destruct (reverse versions) as [|latest older] eqn:Hrev.
  { apply (f_equal reverse) in Hrev. by rewrite reverse_involutive in Hrev. }
  simpl in Hlen.
  destruct (found latest) eqn:Hv.
  - apply found_in_true in Hv.
    destruct (introduced_loop_extends full_scan older
                (add_present latest
                   (count_fetch latest (initial_result api_name api_type))))
      as (k & Hk & Hfull).
    eexists _, (S k). split_and!; [done|lia| |intros; rewrite <-Hlen; f_equal; auto].
    eapply (extends_trans _ _ _ [latest] (take k older));
      [by apply extends_present|done].
  - apply found_in_false in Hv.
    destruct (removed_loop_extends full_scan [latest] older
                (add_not_found latest
                   (count_fetch latest (initial_result api_name api_type))) Hnd')
      as (r' & k & Hloop & Hk & Hfull).
    simpl in Hloop. rewrite Hloop.
    exists r', (S k). split_and!; [done|lia| |intros; rewrite <-Hlen; f_equal; auto].
    eapply (extends_trans _ _ _ [latest] (take k older));
      [by apply extends_not_found|done].
Qed.

(** What [find_api_history] adds to its walk: the sorted [present_in] and
    the two boundaries. *)
Lemma find_api_history_after_walk (versions : list string) (full_scan : bool)
    (r : SearchResult) :
  find_api_history versions symbols api_name api_type full_scan = Ok r ->
  exists r1,
    search_walk versions symbols api_name api_type full_scan = Ok r1
    /\ sorted_by_index versions (sr_present_in r1) = Ok (sr_present_in r)
    /\ sr_not_found_in r = sr_not_found_in r1
    /\ sr_fetched r = sr_fetched r1
    /\ sr_versions_checked r = sr_versions_checked r1.
Proof.
  unfold find_api_history, search_walk.
  destruct (reverse versions) as [|latest older]; [done|]. simpl.
  rewrite drop_0. destruct (found latest).
  - destruct (sorted_by_index versions _) as [l|e] eqn:Hsort; simpl; [|done].
    destruct l as [|first rest]; simpl; [done|].
    intros [= <-]. eexists. split; [done|]. simpl. by rewrite Hsort.
  - destruct (removed_loop _ _ _ _ _ _ _) as [r1|e]; simpl; [|done].
    destruct (sorted_by_index versions _) as [l|e] eqn:Hsort; simpl; [|done].
    destruct l as [|first rest]; simpl.
    { intros [= <-]. exists r1. by rewrite Hsort. }
    destruct (last (first :: rest)) as [p|]; simpl; [|done].
    destruct (Py.index versions p) as [i|e]; simpl; [|done].
    destruct (decide (i + 1 < length versions)) as [Hlt|Hge].
    + destruct (Py.getitem versions (i + 1)) as [nxt|e]; simpl; [|done].
      intros [= <-]. exists r1. by rewrite Hsort.
    + intros [= <-]. exists r1. by rewrite Hsort.
Qed.

End SearchWalk.

Section SearchWalkResults.
Variable versions : list string.
Variable symbols : string -> string -> gset string.
Variables (api_name api_type : string).

Local Abbreviation present := (present_at symbols api_name api_type).

(** What a search that returns has fetched and filed. *)
Lemma find_api_history_walked (full_scan : bool) (r : SearchResult) :
  NoDup versions ->
  find_api_history versions symbols api_name api_type full_scan = Ok r ->
  exists k,
    1 <= k
    /\ sr_fetched r = take k (reverse versions)
    /\ sr_present_in r = filter present (reverse (sr_fetched r))
    /\ sr_not_found_in r = filter (fun v => ~ present v) (sr_fetched r)
    /\ (full_scan = true -> k = length versions).
Proof.
  intros Hnd Hr.
  assert (versions <> []) as Hne.
  { intros ->. by vm_compute in Hr. }
  destruct (find_api_history_after_walk symbols api_name api_type versions
              full_scan r Hr) as (r1 & Hwalk & Hsort & Hnf & Hf & Hc).
  destruct (search_walk_extends symbols api_name api_type versions full_scan
              Hnd Hne) as (r1' & k & Hwalk' & Hk & Hext & Hfull).
  rewrite Hwalk in Hwalk'. injection Hwalk' as <-.
  destruct Hext as (Hf1 & Hc1 & Hp1 & Hn1 & _ & _). simpl in *.
  exists k. split_and!; [done|by rewrite Hf, Hf1| |by rewrite Hnf, Hn1, Hf, Hf1|done].
  rewrite Hf, Hf1.
  assert (sorted_by_index versions (sr_present_in r1)
          = Ok (filter present (reverse (take k (reverse versions))))) as Hs.
  { apply sorted_by_index_sublist; [done| |].
    - etrans; [apply sublist_filter|].
      rewrite take_reverse, reverse_involutive. apply sublist_drop.
    - rewrite Hp1, filter_reverse. symmetry. apply reverse_Permutation. }
  rewrite Hs in Hsort. by injection Hsort as <-.
Qed.

End SearchWalkResults.

(** X3: a search walks the version list newest first without skipping or
    repeating a version: what it fetched is a leading part of the reversed
    list that starts with the latest version, and under full scan it is the
    whole reversed list. *)
Theorem search_walks_newest_first
    (versions : list string) (symbols : string -> string -> gset string)
    (api_name api_type : string) (full_scan : bool) (r : SearchResult) :
  NoDup versions ->
  find_api_history versions symbols api_name api_type full_scan = Ok r ->
  (exists k, sr_fetched r = take k (reverse versions))
  /\ head (sr_fetched r) = last versions
  /\ NoDup (sr_fetched r)
  /\ (full_scan = true ->
      sr_fetched r = reverse versions
      /\ sr_versions_checked r = length versions).
Proof.
  intros Hnd Hr.
  destruct (find_api_history_walked versions symbols api_name api_type
              full_scan r Hnd Hr) as (k & Hk & Hf & _ & _ & Hfull).
  assert (versions <> []) as Hne.
  { intros ->. by vm_compute in Hr. }
  destruct (find_api_history_logged versions symbols api_name api_type
              full_scan Hne) as (r' & Hr' & Hn & _).
  rewrite Hr in Hr'. injection Hr' as <-.
  split_and!.
  - by exists k.
  - rewrite Hf, <-head_reverse.
    destruct k; [lia|]. by destruct (reverse versions).
  - rewrite Hf. apply (sublist_NoDup _ (reverse versions)); [|apply sublist_take].
    by rewrite reverse_Permutation.
  - intros Hfs. rewrite Hn, Hf, (Hfull Hfs).
    rewrite <-(length_reverse versions), firstn_all.
    by rewrite length_reverse.
Qed.

Lemma search_walks_newest_first_gap :
  NoDup ["1.0"; "2.0"; "3.0"; "4.0"]
  /\ exists r,
       find_api_history ["1.0"; "2.0"; "3.0"; "4.0"] in_1_and_3 "f" "runtime"
         false = Ok r
       /\ sr_fetched r = ["4.0"; "3.0"; "2.0"]
       /\ head (sr_fetched r) = Some "4.0".
Proof.
  assert (NoDup ["1.0"; "2.0"; "3.0"; "4.0"]) as Hnd.
  { apply (bool_decide_unpack _). vm_compute. exact I. }
  split; [done|].
  assert (exists r,
            find_api_history ["1.0"; "2.0"; "3.0"; "4.0"] in_1_and_3 "f"
              "runtime" false = Ok r
            /\ sr_fetched r = ["4.0"; "3.0"; "2.0"]) as (r & Hr & Hf).
  { eexists. split; vm_compute; reflexivity. }
  exists r. split_and!; [done..|].
  by destruct (search_walks_newest_first _ _ _ _ _ _ Hnd Hr) as (_ & -> & _).
Defined.

(** X4: a search files every version it fetched, and nothing else:
    [present_in] is exactly the fetched versions holding the symbol, oldest
    first, and [not_found_in] exactly the fetched versions lacking it,
    newest first. *)
Theorem search_files_every_fetch
    (versions : list string) (symbols : string -> string -> gset string)
    (api_name api_type : string) (full_scan : bool) (r : SearchResult) :
  NoDup versions ->
  find_api_history versions symbols api_name api_type full_scan = Ok r ->
  sr_present_in r
  = filter (present_at symbols api_name api_type) (reverse (sr_fetched r))
  /\ sr_not_found_in r
     = filter (fun v => ~ present_at symbols api_name api_type v) (sr_fetched r)
  /\ sublist (sr_present_in r) versions.
Proof.
  intros Hnd Hr.
  destruct (find_api_history_walked versions symbols api_name api_type
              full_scan r Hnd Hr) as (k & Hk & Hf & Hp & Hn & _).
  split_and!; [done..|].
  rewrite Hp, Hf. etrans; [apply sublist_filter|].
  rewrite take_reverse, reverse_involutive. apply sublist_drop.
Qed.

Lemma search_files_every_fetch_gap :
  NoDup ["1.0"; "2.0"; "3.0"; "4.0"]
  /\ exists r,
       find_api_history ["1.0"; "2.0"; "3.0"; "4.0"] in_1_and_3 "f" "runtime"
         true = Ok r
       /\ sr_present_in r = ["1.0"; "3.0"]
       /\ sublist (sr_present_in r) ["1.0"; "2.0"; "3.0"; "4.0"].
Proof.
  assert (NoDup ["1.0"; "2.0"; "3.0"; "4.0"]) as Hnd.
  { apply (bool_decide_unpack _). vm_compute. exact I. }
  split; [done|].
  assert (exists r,
            find_api_history ["1.0"; "2.0"; "3.0"; "4.0"] in_1_and_3 "f"
              "runtime" true = Ok r
            /\ sr_present_in r = ["1.0"; "3.0"]) as (r & Hr & Hp).
  { eexists. split; vm_compute; reflexivity. }
  exists r. split_and!; [done..|].
  by destruct (search_files_every_fetch _ _ _ _ _ _ Hnd Hr) as (_ & _ & ?).
Defined.

Section SearchCost.
Variable versions : list string.
Variable symbols : string -> string -> gset string.
Variables (api_name api_type : string).

Local Abbreviation found := (found_in symbols api_name api_type).
Local Abbreviation present := (present_at symbols api_name api_type).
Local Abbreviation extends := (extends_by symbols api_name api_type).
Local Abbreviation search :=
  (find_api_history versions symbols api_name api_type).

Lemma skip_absent_extends (absents : list string) (r : SearchResult) :
  Forall (fun v => ~ present v) absents ->
  extends r (skip_absent absents r) absents.
Proof.
  intros Habs. revert r.
  induction Habs as [|v absents Hv Habs IH]; intros r; simpl.
  { apply extends_refl. }
  eapply (extends_trans _ _ _ _ _ _ [v] absents);
    [by apply extends_not_found|apply IH].
Qed.

Lemma introduced_loop_boundary_extends (run stop : list string)
    (r : SearchResult) :
  Forall present run ->
  (forall a rest, stop = a :: rest -> ~ present a) ->
  extends r (introduced_loop symbols api_name api_type false (run ++ stop) r)
    (run ++ take 1 stop).
Proof.
  intros Hrun Hstop. revert r.
  induction Hrun as [|v run Hv Hrun IH]; intros r; simpl.
  - destruct stop as [|a rest]; simpl; [apply extends_refl|].
    assert (~ present a) as Ha by (by eapply Hstop).
    rewrite (proj2 (found_in_false symbols api_name api_type a) Ha). simpl.
    by apply extends_not_found.
  - rewrite (proj2 (found_in_true symbols api_name api_type v) Hv).
    eapply (extends_trans _ _ _ _ _ _ [v] (run ++ take 1 stop));
      [by apply extends_present|apply IH].
Qed.

Lemma older_loop_boundary_extends (run stop : list string) (r : SearchResult) :
  Forall present run ->
  (forall a rest, stop = a :: rest -> ~ present a) ->
  extends r (older_loop symbols api_name api_type (run ++ stop) r)
    (run ++ take 1 stop).
Proof.
  intros Hrun Hstop. revert r.
  induction Hrun as [|v run Hv Hrun IH]; intros r; simpl.
  - destruct stop as [|a rest]; simpl; [apply extends_refl|].
    assert (~ present a) as Ha by (by eapply Hstop).
    rewrite (proj2 (found_in_false symbols api_name api_type a) Ha).
    by apply extends_not_found.
  - rewrite (proj2 (found_in_true symbols api_name api_type v) Hv).
    eapply (extends_trans _ _ _ _ _ _ [v] (run ++ take 1 stop));
      [by apply extends_present|apply IH].
Qed.

Lemma boundary_reversed (l0 : list string) :
  (forall l0' a, l0 = l0' ++ [a] -> ~ present a) ->
  forall a rest, reverse l0 = a :: rest -> ~ present a.
Proof.
  intros Hl0 a rest Heq. apply (Hl0 (reverse rest)).
  apply (f_equal reverse) in Heq.
  by rewrite reverse_involutive, reverse_cons in Heq.
Qed.

Lemma length_take_1_reverse (l0 : list string) :
  length (take 1 (reverse l0)) = match l0 with [] => 0 | _ :: _ => 1 end.
Proof.
  destruct l0 as [|x l0]; [done|].
  rewrite reverse_cons. by destruct (reverse l0).
Qed.

(** A symbol no version holds: the walk goes through the whole list. *)
Lemma find_none_walk (full_scan : bool) :
  versions <> [] -> (forall v, v ∈ versions -> ~ present v) ->
  exists r1,
    search_walk versions symbols api_name api_type full_scan = Ok r1
    /\ extends (initial_result api_name api_type) r1 (reverse versions).
Proof.
  intros Hne Hnone. unfold search_walk.
  destruct (reverse versions) as [|latest older] eqn:Hrev.
  { apply (f_equal reverse) in Hrev. by rewrite reverse_involutive in Hrev. }
  assert (forall v, v ∈ latest :: older -> ~ present v) as Hvr.
  { intros v Hv. apply Hnone. rewrite <-Hrev in Hv.
    exact (proj1 (elem_of_reverse _ _) Hv). }
  assert (Forall (fun v => ~ present v) older) as Holder.
  { apply Forall_forall. intros; apply Hvr; by right. }
  rewrite (proj2 (found_in_false symbols api_name api_type latest))
    by (apply Hvr; by left).
  rewrite (removed_loop_none symbols api_name api_type full_scan) by done.
  eexists. split; [done|].
  eapply (extends_trans _ _ _ _ _ _ [latest] older);
    [apply extends_not_found; apply Hvr; by left|by apply skip_absent_extends].
Qed.

End SearchCost.

(** X5: a symbol that no version holds costs a fetch of every version, with
    or without full scan: the search returns with both boundaries unset, an
    empty [present_in], and every version, newest first, in
    [not_found_in]. *)
Theorem search_for_unknown_symbol
    (versions : list string) (symbols : string -> string -> gset string)
    (api_name api_type : string) (full_scan : bool) :
  versions <> [] ->
  (forall v, v ∈ versions -> ~ present_at symbols api_name api_type v) ->
  exists r,
    find_api_history versions symbols api_name api_type full_scan = Ok r
    /\ sr_introduced r = None /\ sr_removed r = None
    /\ sr_present_in r = []
    /\ sr_not_found_in r = reverse versions
    /\ sr_versions_checked r = length versions.
Proof.
  intros Hne Hnone.
  destruct (find_none versions symbols api_name api_type full_scan Hne Hnone)
    as (r & Hr & Hp & Hi & Hrem).
  destruct (find_api_history_after_walk symbols api_name api_type versions
              full_scan r Hr) as (r1 & Hwalk & _ & Hnf & _ & Hc).
  destruct (find_none_walk versions symbols api_name api_type full_scan
              Hne Hnone) as (r1' & Hwalk' & Hext).
  rewrite Hwalk in Hwalk'. injection Hwalk' as <-.
  destruct Hext as (_ & Hc1 & _ & Hn1 & _ & _). simpl in *.
  exists r. split_and!; [done..| |].
  - rewrite Hnf, Hn1. apply filter_all.
    apply Forall_forall. intros v Hv. apply Hnone.
    exact (proj1 (elem_of_reverse _ _) Hv).
  - by rewrite Hc, Hc1, length_reverse.
Qed.

Lemma search_for_unknown_symbol_real_list :
  (CUDA_VERSIONS <> []
   /\ forall v, v ∈ CUDA_VERSIONS -> ~ present_at no_symbols "cudaFoo" "runtime" v)
  /\ exists r,
       find_api_history CUDA_VERSIONS no_symbols "cudaFoo" "runtime" false = Ok r
       /\ sr_present_in r = []
       /\ sr_versions_checked r = 56.
Proof.
  assert (forall v, v ∈ CUDA_VERSIONS
                    -> ~ present_at no_symbols "cudaFoo" "runtime" v) as Hnone.
  { intros v _. apply not_elem_of_empty. }
  split; [by split|].
  destruct (search_for_unknown_symbol CUDA_VERSIONS no_symbols "cudaFoo"
              "runtime" false) as (r & Hr & _ & _ & Hp & _ & Hc); [done..|].
  exists r. by split_and!.
Defined.

Section BoundaryCost.
Variable versions : list string.
Variable symbols : string -> string -> gset string.
Variables (api_name api_type : string).

Local Abbreviation present := (present_at symbols api_name api_type).
Local Abbreviation extends := (extends_by symbols api_name api_type).

Lemma boundary_stop_absent (l0 : list string) :
  (forall l0' a, l0 = l0' ++ [a] -> ~ present a) ->
  Forall (fun v => ~ present v) (take 1 (reverse l0)).
Proof.
  intros Hl0.
  pose proof (boundary_reversed symbols api_name api_type l0 Hl0) as Hstop.
  destruct (reverse l0) as [|a rest]; simpl; [done|].
  apply Forall_cons_2; [by eapply Hstop|done].
Qed.

(** Boundary-stop mode on a list whose newest run of versions holding the
    symbol is [run]: the walk fetches the versions after the run, the run,
    and one version before it when there is one. *)
Lemma boundary_walk (l0 run l2 : list string) :
  versions = l0 ++ run ++ l2 -> NoDup versions -> run <> [] ->
  Forall present run -> Forall (fun v => ~ present v) l2 ->
  (forall l0' a, l0 = l0' ++ [a] -> ~ present a) ->
  exists r1,
    search_walk versions symbols api_name api_type false = Ok r1
    /\ extends (initial_result api_name api_type) r1
         (reverse l2 ++ reverse run ++ take 1 (reverse l0)).
Proof.
  intros Hver Hnd Hrun_ne Hrun Hl2 Hl0.
  destruct (non_empty_snoc run Hrun_ne) as (run' & p & Heqr).
  pose proof (boundary_reversed symbols api_name api_type l0 Hl0) as Hstop.
  assert (present p) as Hp.
  { rewrite Forall_forall in Hrun. apply Hrun. rewrite Heqr.
    apply elem_of_app. right. by left. }
  assert (Forall present (reverse run')) as Hrun'.
  { apply Forall_reverse. rewrite Heqr in Hrun.
    by apply Forall_app in Hrun as [? _]. }
  unfold search_walk.
  destruct (decide (l2 = [])) as [->|Hl2_ne].
  - assert (reverse versions = p :: (reverse run' ++ reverse l0)) as Hrev.
    { rewrite Hver, Heqr, app_nil_r, !reverse_app. done. }
    rewrite Hrev, (proj2 (found_in_true symbols api_name api_type p) Hp).
    eexists. split; [done|].
    rewrite Heqr, reverse_app. simpl.
    eapply (extends_trans _ _ _ _ _ _ [p] (reverse run' ++ take 1 (reverse l0)));
      [by apply extends_present|by apply introduced_loop_boundary_extends].
  - destruct (non_empty_snoc l2 Hl2_ne) as (l2' & newest & Heq2).
    assert (reverse versions
            = [newest] ++ reverse l2' ++ p :: (reverse run' ++ reverse l0))
      as Hrev.
    { rewrite Hver, Heq2, Heqr, !reverse_app. simpl.
      by rewrite <-!app_assoc. }
    assert (~ present newest) as Hnew.
    { rewrite Forall_forall in Hl2. apply Hl2. rewrite Heq2.
      apply elem_of_app. right. by left. }
    assert (Forall (fun v => ~ present v) (reverse l2')) as Habs.
    { apply Forall_reverse. rewrite Heq2 in Hl2.
      by apply Forall_app in Hl2 as [? _]. }
    pose proof (removed_loop_boundary symbols api_name api_type
                  [newest] (reverse l2') (reverse run' ++ reverse l0) p
                  (add_not_found newest
                     (count_fetch newest (initial_result api_name api_type))))
      as Hloop.
    assert (NoDup (reverse versions)) as Hnd' by (by rewrite reverse_Permutation).
    rewrite <-Hrev in Hloop. specialize (Hloop Hnd' Habs Hp).
    rewrite Hrev in Hloop. rewrite Hrev. simpl. simpl in Hloop.
    rewrite (proj2 (found_in_false symbols api_name api_type newest) Hnew), Hloop.
    eexists. split; [done|].
    rewrite Heq2, Heqr, !reverse_app. simpl.
    eapply (extends_trans _ _ _ _ _ _ [newest]
              (reverse l2' ++ p :: reverse run' ++ take 1 (reverse l0)));
      [by apply extends_not_found|].
    eapply (extends_trans _ _ _ _ _ _ (reverse l2')
              (p :: reverse run' ++ take 1 (reverse l0)));
      [by apply skip_absent_extends|].
    eapply (extends_trans _ _ _ _ _ _ [p] (reverse run' ++ take 1 (reverse l0)));
      [by apply extends_present|by apply older_loop_boundary_extends].
Qed.

End BoundaryCost.

(** X6: what a boundary-stop search costs.  Split the version list as
    [l0 ++ run ++ l2], where [run] is the newest unbroken run of versions
    holding the symbol ([l2], possibly empty, holds it nowhere and the
    version just before the run, if any, does not hold it).  The search
    returns; it fetches, newest first, the versions of [l2], those of [run]
    and one version before the run when there is one, and nothing older:
    [versions_checked] is [length l2 + length run], plus one unless the run
    starts the list.  [present_in] is the run, and [not_found_in] holds
    [l2], newest first, followed by the one version before the run. *)
Theorem boundary_stop_search_cost
    (versions : list string) (symbols : string -> string -> gset string)
    (api_name api_type : string) (l0 run l2 : list string) :
  versions = l0 ++ run ++ l2 -> NoDup versions -> run <> [] ->
  Forall (present_at symbols api_name api_type) run ->
  Forall (fun v => ~ present_at symbols api_name api_type v) l2 ->
  (forall l0' a, l0 = l0' ++ [a] -> ~ present_at symbols api_name api_type a) ->
  exists r,
    find_api_history versions symbols api_name api_type false = Ok r
    /\ sr_fetched r = reverse l2 ++ reverse run ++ take 1 (reverse l0)
    /\ sr_versions_checked r
       = length l2 + length run + match l0 with [] => 0 | _ :: _ => 1 end
    /\ sr_present_in r = run
    /\ sr_not_found_in r = reverse l2 ++ take 1 (reverse l0).
Proof.
  intros Hver Hnd Hrun_ne Hrun Hl2 Hl0.
  assert (versions <> []) as Hne.
  { rewrite Hver. destruct l0, run; done. }
  destruct (find_api_history_logged versions symbols api_name api_type false Hne)
    as (r & Hr & _).
  destruct (find_api_history_after_walk symbols api_name api_type versions
              false r Hr) as (r1 & Hwalk & Hsort & Hnf & Hf & Hc).
  destruct (boundary_walk versions symbols api_name api_type l0 run l2
              Hver Hnd Hrun_ne Hrun Hl2 Hl0) as (r1' & Hwalk' & Hext).
  rewrite Hwalk in Hwalk'. injection Hwalk' as <-.
  destruct Hext as (Hf1 & Hc1 & Hp1 & Hn1 & _ & _). simpl in *.
  pose proof (boundary_stop_absent symbols api_name api_type l0 Hl0) as Hstop.
  exists r. split_and!; [done|by rewrite Hf, Hf1| | |].
  - rewrite Hc, Hc1, !length_app, !length_reverse.
    rewrite length_take_1_reverse. lia.
  - assert (sorted_by_index versions (sr_present_in r1) = Ok run) as Hs.
    { apply sorted_by_index_sublist; [done| |].
      - rewrite Hver. by apply sublist_inserts_l, sublist_inserts_r.
      - rewrite Hp1, !filter_app.
        rewrite (filter_none _ (reverse l2)) by (by apply Forall_reverse).
        rewrite (filter_none _ (take 1 (reverse l0))) by done.
        rewrite (filter_all _ (reverse run)) by (by apply Forall_reverse).
        rewrite app_nil_r. simpl. apply reverse_Permutation. }
    rewrite Hs in Hsort. by injection Hsort as <-.
  - rewrite Hnf, Hn1, !filter_app.
    rewrite (filter_all _ (reverse l2)) by (by apply Forall_reverse).
    rewrite (filter_all _ (take 1 (reverse l0))) by done.
    rewrite (filter_none _ (reverse run)); [done|].
    apply Forall_reverse. eapply Forall_impl; [exact Hrun|]. by intros v Hv Hn.
Qed.

Lemma boundary_stop_search_cost_real_list :
  (CUDA_VERSIONS = take 29 CUDA_VERSIONS ++ [ "12.0.0"; "12.0.1"; "12.1.0" ]
                   ++ drop 32 CUDA_VERSIONS
   /\ NoDup CUDA_VERSIONS)
  /\ exists r,
       find_api_history CUDA_VERSIONS
         (fun v _ => if bool_decide (v ∈ [ "12.0.0"; "12.0.1"; "12.1.0" ])
                     then {[ "cudaFoo" ]} else ∅)
         "cudaFoo" "runtime" false = Ok r
       /\ sr_versions_checked r = 28
       /\ sr_present_in r = [ "12.0.0"; "12.0.1"; "12.1.0" ].
Proof.
  assert (NoDup CUDA_VERSIONS) as Hnd.
  { apply (bool_decide_unpack _). vm_compute. exact I. }
  split; [by split|].
  destruct (boundary_stop_search_cost CUDA_VERSIONS
              (fun v _ => if bool_decide (v ∈ [ "12.0.0"; "12.0.1"; "12.1.0" ])
                          then {[ "cudaFoo" ]} else ∅)
              "cudaFoo" "runtime"
              (take 29 CUDA_VERSIONS) [ "12.0.0"; "12.0.1"; "12.1.0" ]
              (drop 32 CUDA_VERSIONS))
    as (r & Hr & _ & Hc & Hp & _).
  - done.
  - exact Hnd.
  - done.
  - apply (bool_decide_unpack _). vm_compute. exact I.
  - apply (bool_decide_unpack _). vm_compute. exact I.
  - intros l0' a Heq.
    assert (last (take 29 CUDA_VERSIONS) = Some a) as Hlast
      by (rewrite Heq; apply last_snoc).
    vm_compute in Hlast. injection Hlast as <-.
    apply (bool_decide_unpack _). vm_compute. exact I.
  - exists r. split_and!; [done| |done].
    rewrite Hc. reflexivity.
Defined.

(** ** Version range: the two ends *)

Lemma truthy_listed (versions : list string) (v : string) :
  EmptyString ∉ versions -> v ∈ versions -> Py.truthy (Some v) = true.
Proof. intros Hno Hv. destruct v; [done|reflexivity]. Qed.

Lemma slice_ends {A} (l : list A) (i j : nat) (x y : A) :
  l !! i = Some x -> l !! j = Some y -> i <= j ->
  head (Py.slice l i (j + 1)) = Some x
  /\ last (Py.slice l i (j + 1)) = Some y
  /\ length (Py.slice l i (j + 1)) = j + 1 - i.
Proof.
  intros Hx Hy Hij. unfold Py.slice.
  assert (j < length l) as Hj by (by eapply lookup_lt_Some).
  assert (length (drop i (take (j + 1) l)) = j + 1 - i) as Hlen.
  { rewrite length_drop, length_take. lia. }
  split_and!; [| |done].
  - rewrite head_lookup, lookup_drop, Nat.add_0_r, lookup_take_lt by lia. done.
  - rewrite last_lookup, Hlen, lookup_drop, lookup_take_lt by lia.
    replace (i + pred (j + 1 - i)) with j by lia. done.
Qed.

Lemma slice_reversed {A} (l : list A) (i j : nat) :
  j < i -> Py.slice l i (j + 1) = [].
Proof.
  intros Hji. unfold Py.slice. apply drop_ge. rewrite length_take. lia.
Qed.

(** X7: the range between two tokens that both resolve is cut at the first
    occurrences of the two resolved versions and includes both of them:
    when the since version is ranked no later than the until version the
    range starts with the one, ends with the other and has every version
    between them; when it is ranked later the range is empty, and nothing
    is raised. *)
Theorem version_range_ends
    (versions : list string) (since until v_s v_u : string) :
  EmptyString ∉ versions ->
  Py.truthy (Some until) = true ->
  find_closest_version versions since = Ok (Some v_s) ->
  find_closest_version versions until = Ok (Some v_u) ->
  exists i j vs,
    Py.index versions v_s = Ok i /\ Py.index versions v_u = Ok j
    /\ get_version_range versions (Some since) (Some until) = Ok vs
    /\ (i <= j ->
        head vs = Some v_s /\ last vs = Some v_u /\ length vs = j + 1 - i)
    /\ (j < i -> vs = []).
Proof.
  intros Hno Hu Hs He.
  pose proof (find_closest_version_elem _ _ _ Hs) as Hin_s.
  pose proof (find_closest_version_elem _ _ _ He) as Hin_u.
  destruct (index_opt_elem v_s versions Hin_s) as [i Hi].
  destruct (index_opt_elem v_u versions Hin_u) as [j Hj].
  exists i, j, (Py.slice versions i (j + 1)).
  pose proof (truthy_listed versions v_s Hno Hin_s) as Hts.
  pose proof (truthy_listed versions v_u Hno Hin_u) as Htu.
  unfold get_version_range, range_start_idx, range_end_idx, Py.index.
  rewrite Hu. cbn [default from_option id]. rewrite Hs, He.
  cbn [mbind outcome_bind]. rewrite Hts, Htu.
  cbn [default from_option id]. rewrite Hi, Hj. simpl.
  split_and!; [done..| |].
  - intros Hij. apply slice_ends; [by apply index_opt_lookup..|done].
  - apply slice_reversed.
Qed.

Lemma version_range_ends_11_to_12 :
  ((EmptyString ∉ CUDA_VERSIONS) /\ Py.truthy (Some "12") = true)
  /\ exists vs,
       get_version_range CUDA_VERSIONS (Some "11") (Some "12") = Ok vs
       /\ head vs = Some "11.0" /\ last vs = Some "12.0.0"
       /\ length vs = 23.
Proof.
  assert (EmptyString ∉ CUDA_VERSIONS) as Hno.
  { apply (bool_decide_unpack _). vm_compute. exact I. }
  split; [by split|].
  destruct (version_range_ends CUDA_VERSIONS "11" "12" "11.0" "12.0.0" Hno)
    as (i & j & vs & Hi & Hj & Hr & Hle & _); [reflexivity..|].
  vm_compute in Hi. vm_compute in Hj.
  injection Hi as <-. injection Hj as <-.
  exists vs. split; [exact Hr|]. apply Hle. lia.
Defined.

(** ** Version symbol cache: hits, round trip and separation *)

Lemma list_to_set_sorted_names (s : gset string) :
  list_to_set (sorted_names s) = s.
Proof.
  apply set_eq. intros x. by rewrite elem_of_list_to_set, sorted_names_elem.
Qed.

Lemma nonempty_set_true (s : gset string) : s <> ∅ -> nonempty_set s = true.
Proof. intros Hs. unfold nonempty_set. by rewrite bool_decide_eq_false_2. Qed.

Section CacheCalls.
Variable versions : list string.
Variable request_accepts : string -> bool.
Variable response : string -> string.
Variable extract_apis_from_html : string -> gset string.
Variable group_links : string -> list string.
Variable writable : string -> bool.
Variable mkdir_ok : bool.
Variables (version api_type : string).

Local Abbreviation call :=
  (get_api_list_for_version versions request_accepts response
     extract_apis_from_html group_links writable mkdir_ok version api_type).
Local Abbreviation path := (cache_file_name version api_type).

(** A readable cache file answers the call, once the directory is there. *)
Lemma cache_hit (cache : gmap string cache_file) (names : list string) :
  mkdir_ok = true -> cache !! path = Some (Json names) ->
  call true cache = Ok (list_to_set names, cache).
Proof.
  intros -> Hc. unfold get_api_list_for_version, get_cache_path.
  cbn [mbind outcome_bind]. by rewrite Hc.
Qed.

(** What a call that returns leaves in the cache: the cache it was given,
    or that cache with the file of this call rewritten to hold the
    returned set. *)
Lemma cache_after_call (use_cache : bool) (cache cache' : gmap string cache_file)
    (apis : gset string) :
  call use_cache cache = Ok (apis, cache') ->
  cache' = cache \/ cache' = <[path := Json (sorted_names apis)]> cache.
Proof.
  intros [_ Hcall]%call_returns.
  destruct (cached use_cache cache path) as [names|].
  - destruct Hcall as [_ ->]. by left.
  - destruct Hcall as (newest & _ & _ & ->).
    destruct (_ && _ && _); [by right|by left].
Qed.

(** A call that returns a non-empty set with caching on and a writable
    file leaves that set in the file. *)
Lemma cache_holds_result (cache cache' : gmap string cache_file)
    (apis : gset string) :
  call true cache = Ok (apis, cache') ->
  apis <> ∅ -> writable path = true ->
  exists names, cache' !! path = Some (Json names) /\ list_to_set names = apis.
Proof.
  intros [_ Hcall]%call_returns Hne Hw. unfold cached in Hcall.
  destruct (cache !! path) as [[names|]|] eqn:Hc.
  - destruct Hcall as [-> ->]. by exists names.
  - destruct Hcall as (newest & _ & _ & ->).
    rewrite (nonempty_set_true _ Hne), Hw. simpl.
    eexists. rewrite lookup_insert_eq. split; [done|].
    apply list_to_set_sorted_names.
  - destruct Hcall as (newest & _ & _ & ->).
    rewrite (nonempty_set_true _ Hne), Hw. simpl.
    eexists. rewrite lookup_insert_eq. split; [done|].
    apply list_to_set_sorted_names.
Qed.

End CacheCalls.



Lemma replace_dot_inj (v v' : string) :
  Py.has_char "_" v = false -> Py.has_char "_" v' = false ->
  Py.replace "." "_" v +:+ ".json" = Py.replace "." "_" v' +:+ ".json" ->
  v = v'.
Proof.
  revert v'. induction v as [|c v IH]; intros [|c' v']; simpl; intros Hv Hv' Heq.
  - done.
  - injection Heq as Hc _. by destruct (decide (c' = "."%char)).
  - injection Heq as Hc _. by destruct (decide (c = "."%char)).
  - apply orb_false_iff in Hv as [Hc%bool_decide_eq_false Hv].
    apply orb_false_iff in Hv' as [Hc'%bool_decide_eq_false Hv'].
    injection Heq as Hcc Ht. f_equal; [|by apply IH].
    destruct (decide (c = "."%char)), (decide (c' = "."%char)); congruence.
Qed.

Lemma cache_path_prefix_inj (a a' x x' : string) :
  Py.has_char "_" a = false -> Py.has_char "_" a' = false ->
  a +:+ "_" +:+ x = a' +:+ "_" +:+ x' -> a = a' /\ x = x'.
Proof.
  revert a'. induction a as [|c a IH]; intros [|c' a']; simpl; intros Ha Ha' Heq.
  - split; [done|]. by injection Heq.
  - apply orb_false_iff in Ha' as [Hc'%bool_decide_eq_false _].
    by injection Heq as <- _.
  - apply orb_false_iff in Ha as [Hc%bool_decide_eq_false _].
    by injection Heq as -> _.
  - apply orb_false_iff in Ha as [_ Ha].
    apply orb_false_iff in Ha' as [_ Ha'].
    injection Heq as -> Ht. destruct (IH a' Ha Ha' Ht) as [-> ->]. done.
Qed.

(** Two calls share a cache file only if they are for the same version and
    category, as long as neither name has an underscore. *)
Lemma cache_file_name_inj (version api_type version' api_type' : string) :
  Py.has_char "_" version = false -> Py.has_char "_" version' = false ->
  Py.has_char "_" api_type = false -> Py.has_char "_" api_type' = false ->
  cache_file_name version api_type = cache_file_name version' api_type' ->
  version = version' /\ api_type = api_type'.
Proof.
  intros Hv Hv' Ha Ha' Heq. unfold cache_file_name in Heq.
  destruct (cache_path_prefix_inj _ _ _ _ Ha Ha' Heq) as [-> Hrest].
  split; [|done]. by apply replace_dot_inj.
Qed.

(** X9: calls for different (version, category) pairs do not touch each
    other's cache file.  For names free of underscores (as the listed
    versions and the two categories are) the file name determines the
    pair, and a call that returns has left every file but its own as it
    was. *)
Theorem cache_entries_do_not_collide
    (versions : list string) (request_accepts : string -> bool)
    (response : string -> string)
    (extract_apis_from_html : string -> gset string)
    (group_links : string -> list string) (writable : string -> bool)
    (mkdir_ok : bool)
    (version api_type version' api_type' : string) (use_cache : bool)
    (cache cache' : gmap string cache_file) (apis : gset string) :
  Py.has_char "_" version = false -> Py.has_char "_" version' = false ->
  Py.has_char "_" api_type = false -> Py.has_char "_" api_type' = false ->
  (version, api_type) <> (version', api_type') ->
  get_api_list_for_version versions request_accepts response
    extract_apis_from_html group_links writable mkdir_ok
    version api_type use_cache cache = Ok (apis, cache') ->
  cache_file_name version api_type <> cache_file_name version' api_type'
  /\ cache' !! cache_file_name version' api_type'
     = cache !! cache_file_name version' api_type'.
Proof.
  intros Hv Hv' Ha Ha' Hne Hcall.
  assert (cache_file_name version api_type <> cache_file_name version' api_type')
    as Hpath.
  { intros Heq. apply Hne.
    by destruct (cache_file_name_inj _ _ _ _ Hv Hv' Ha Ha' Heq) as [-> ->]. }
  split; [done|].
  destruct (cache_after_call _ _ _ _ _ _ _ _ _ _ _ _ _ Hcall) as [->| ->];
    [done|].
  by rewrite lookup_insert_ne.
Qed.

Lemma cache_entries_do_not_collide_one_page :
  exists apis cache',
    get_api_list_for_version CUDA_VERSIONS (fun _ => true) one_page one_symbol
      (fun _ => []) (fun _ => true) true "12.0.0" "runtime" true ∅
    = Ok (apis, cache')
    /\ cache' !! cache_file_name "12.0.0" "driver" = None
    /\ cache' !! cache_file_name "12.0.1" "runtime" = None.
Proof.
  assert (exists apis cache',
            get_api_list_for_version CUDA_VERSIONS (fun _ => true) one_page
              one_symbol (fun _ => []) (fun _ => true) true
              "12.0.0" "runtime" true ∅
            = Ok (apis, cache')) as (apis & cache' & Hcall).
  { eexists _, _. vm_compute. reflexivity. }
  exists apis, cache'. split_and!; [done| |].
  - rewrite (proj2 (cache_entries_do_not_collide _ _ _ _ _ _ _ "12.0.0" "runtime"
                      "12.0.0" "driver" _ _ _ _ eq_refl eq_refl eq_refl eq_refl
                      ltac:(done) Hcall)).
    done.
  - rewrite (proj2 (cache_entries_do_not_collide _ _ _ _ _ _ _ "12.0.0" "runtime"
                      "12.0.1" "runtime" _ _ _ _ eq_refl eq_refl eq_refl eq_refl
                      ltac:(done) Hcall)).
    done.
Defined.

(** ** Version symbol cache: where the symbols come from *)

Section Provenance.
Variable response : string -> string.
Variable extract_apis_from_html : string -> gset string.
Variable group_links : string -> list string.

Local Abbreviation extracted := (extracted response extract_apis_from_html).
Local Abbreviation collected :=
  (groups_symbols response extract_apis_from_html).
Local Abbreviation found :=
  (candidates_symbols response extract_apis_from_html group_links).

Lemma groups_symbols_extracted (base_path : string) (links : list string)
    (apis : gset string) :
  (forall x, x ∈ apis -> extracted x) ->
  forall x, x ∈ collected base_path links apis -> extracted x.
Proof.
  unfold groups_symbols. revert apis.
  induction links as [|link links IH]; intros apis Hacc; simpl; [done|].
  apply IH.
  match goal with
  | |- context [nonempty_str (response ?u)] =>
      destruct (nonempty_str (response u)) eqn:Hu; [|done]
  end.
  intros x [Hx|Hx]%elem_of_union; [by apply Hacc|by eexists].
Qed.

Lemma groups_symbols_grows (base_path : string) (links : list string)
    (apis : gset string) :
  apis ⊆ collected base_path links apis.
Proof.
  unfold groups_symbols. revert apis.
  induction links as [|link links IH]; intros apis; simpl; [done|].
  etrans; [|apply IH].
  match goal with
  | |- context [nonempty_str (response ?u)] =>
      destruct (nonempty_str (response u)); [|done]
  end.
  apply union_subseteq_l.
Qed.

Lemma candidates_symbols_extracted (urls : list string) (apis : gset string) :
  (forall x, x ∈ apis -> extracted x) ->
  forall x, x ∈ found urls apis -> extracted x.
Proof.
  revert apis. induction urls as [|url urls IH]; intros apis Hacc; simpl; [done|].
  destruct (nonempty_str (response url)) eqn:Hu; [|by apply IH].
  assert (forall x,
            x ∈ collected (Py.rsplit1_head "/" url)
                  (take 20 (group_links (response url)))
                  (apis ∪ extract_apis_from_html (response url))
            -> extracted x) as Hgroups.
  { apply groups_symbols_extracted.
    intros x [Hx|Hx]%elem_of_union; [by apply Hacc|by eexists]. }
  destruct (nonempty_set _); [done|by apply IH].
Qed.

Lemma candidates_symbols_grows (urls : list string) (apis : gset string) :
  apis ⊆ found urls apis.
Proof.
  revert apis. induction urls as [|url urls IH]; intros apis; simpl; [done|].
  destruct (nonempty_str (response url)); [|by apply IH].
  assert (apis ⊆ collected (Py.rsplit1_head "/" url)
                   (take 20 (group_links (response url)))
                   (apis ∪ extract_apis_from_html (response url))) as Hsub.
  { etrans; [|apply groups_symbols_grows]. apply union_subseteq_l. }
  destruct (nonempty_set _); [done|]. etrans; [exact Hsub|apply IH].
Qed.

(** The first index page, when it can be fetched, contributes all its
    symbols. *)
Lemma candidates_symbols_first_page (url : string) (urls : list string) :
  nonempty_str (response url) = true ->
  extract_apis_from_html (response url) ⊆ found (url :: urls) ∅.
Proof.
  intros Hu. simpl. rewrite Hu.
  assert (extract_apis_from_html (response url)
          ⊆ collected (Py.rsplit1_head "/" url)
              (take 20 (group_links (response url)))
              (∅ ∪ extract_apis_from_html (response url))) as Hsub.
  { etrans; [|apply groups_symbols_grows]. apply union_subseteq_r. }
  destruct (nonempty_set _); [done|].
  etrans; [exact Hsub|apply candidates_symbols_grows].
Qed.

(** The pages tried in turn, then the deprecated-functions page. *)
Lemma fetched_symbols_provenance (newest version api_type : string) :
  let apis :=
    fetched_symbols response extract_apis_from_html group_links
      newest version api_type in
  (forall x, x ∈ apis -> extracted x)
  /\ (nonempty_str (response (index_url version api_type)) = true ->
      extract_apis_from_html (response (index_url version api_type)) ⊆ apis)
  /\ (nonempty_str (response (deprecated_url version api_type)) = true ->
      extract_apis_from_html (response (deprecated_url version api_type))
      ⊆ apis).
Proof.
  intros apis. unfold apis, fetched_symbols.
  assert (forall y, y ∈ found (candidate_urls newest version api_type) ∅
                    -> extracted y) as Htry.
  { apply candidates_symbols_extracted. by intros y ?%elem_of_empty. }
  split_and!.
  - intros x Hx.
    destruct (nonempty_str (response (deprecated_url version api_type))) eqn:Hd;
      [|by apply Htry].
    apply elem_of_union in Hx as [Hx|Hx]; [by apply Htry|by eexists].
  - intros Hi.
    assert (extract_apis_from_html (response (index_url version api_type))
            ⊆ found (candidate_urls newest version api_type) ∅) as Hsub.
    { unfold candidate_urls.
      destruct (decide (version = newest));
        by apply candidates_symbols_first_page. }
    destruct (nonempty_str (response (deprecated_url version api_type)));
      [|done].
    etrans; [exact Hsub|apply union_subseteq_l].
  - intros Hd. rewrite Hd. apply union_subseteq_r.
Qed.

End Provenance.

(** X10: where the returned symbols come from.  A call that returns gives
    the names of the cache file on a hit; on a miss, every symbol it
    returns was extracted from some page that could be fetched, and the
    symbols of the first archive index page and of the deprecated-functions
    page are all returned whenever those pages can be fetched. *)
Theorem returned_symbols_provenance
    (versions : list string) (request_accepts : string -> bool)
    (response : string -> string)
    (extract_apis_from_html : string -> gset string)
    (group_links : string -> list string) (writable : string -> bool)
    (mkdir_ok : bool)
    (version api_type : string) (use_cache : bool)
    (cache cache' : gmap string cache_file) (apis : gset string) :
  get_api_list_for_version versions request_accepts response
    extract_apis_from_html group_links writable mkdir_ok
    version api_type use_cache cache = Ok (apis, cache') ->
  match cached use_cache cache (cache_file_name version api_type) with
  | Some names => apis = list_to_set names
  | None =>
      (forall x, x ∈ apis -> extracted response extract_apis_from_html x)
      /\ (nonempty_str (response (index_url version api_type)) = true ->
          extract_apis_from_html (response (index_url version api_type))
          ⊆ apis)
      /\ (nonempty_str (response (deprecated_url version api_type)) = true ->
          extract_apis_from_html (response (deprecated_url version api_type))
          ⊆ apis)
  end.
Proof.
  intros [_ Hcall]%call_returns.
  destruct (cached use_cache cache (cache_file_name version api_type))
    as [names|].
  - by destruct Hcall as [-> _].
  - destruct Hcall as (newest & _ & -> & _).
    apply fetched_symbols_provenance.
Qed.

Lemma returned_symbols_provenance_one_page :
  exists apis cache',
    get_api_list_for_version CUDA_VERSIONS (fun _ => true) one_page one_symbol
      (fun _ => []) (fun _ => true) true "12.0.0" "runtime" true ∅
    = Ok (apis, cache')
    /\ forall x, x ∈ apis -> extracted one_page one_symbol x.
Proof.
  assert (exists apis cache',
            get_api_list_for_version CUDA_VERSIONS (fun _ => true) one_page
              one_symbol (fun _ => []) (fun _ => true) true
              "12.0.0" "runtime" true ∅
            = Ok (apis, cache')) as (apis & cache' & Hcall).
  { eexists _, _. vm_compute. reflexivity. }
  exists apis, cache'. split; [done|].
  pose proof (returned_symbols_provenance _ _ _ _ _ _ _ _ _ _ _ _ _ Hcall) as H.
  unfold cached in H. rewrite lookup_empty in H. exact (proj1 H).
Defined.

(** ** Catalog builder: the record of a symbol and the summary *)

Lemma head_filter_split {A} (P : A -> Prop) `{!forall x, Decision (P x)}
    (l : list A) (v : A) :
  head (filter P l) = Some v ->
  exists la rest, l = la ++ v :: rest /\ Forall (fun x => ~ P x) la /\ P v.
Proof.
  induction l as [|x l IH]; [done|]. rewrite filter_cons.
  destruct (decide (P x)) as [Hx|Hx].
  - simpl. intros [= ->]. by exists [], l.
  - intros Hh. destruct (IH Hh) as (la & rest & -> & Hla & Hv).
    exists (x :: la), rest. split_and!; [done|by constructor|done].
Qed.

Section LifecycleFacts.
Variable sets : string -> gset string.
Variable versions : list string.
Variable api : string.

Local Abbreviation has := (listed sets api).
Local Abbreviation info := (lifecycle sets versions api).

Hypothesis held : exists v, v ∈ versions /\ has v.

Lemma lifecycle_present_in : ai_present_in info = filter has versions.
Proof.
  unfold lifecycle. cbn [ai_present_in].
  by destruct (scan_result sets api versions) as (-> & _).
Qed.

Lemma lifecycle_present_in_nonempty : ai_present_in info <> [].
Proof.
  rewrite lifecycle_present_in. destruct held as (v & Hv & Hhas).
  intros Hnil. by apply (filter_nil_not_elem_of _ _ v Hnil Hhas).
Qed.

Lemma lifecycle_introduced :
  ai_introduced info
  = if decide (head (filter has versions) = head versions) then None
    else head (filter has versions).
Proof.
  unfold lifecycle. cbn [ai_introduced].
  destruct (scan_result sets api versions) as (_ & -> & _).
  destruct (decide (head (filter has versions) ≠ head versions)) as [Hne|Heq].
  - by rewrite decide_False.
  - apply dec_stable in Heq. by rewrite decide_True.
Qed.

Lemma lifecycle_introduced_none :
  ai_introduced info = None
  <-> exists oldest, head versions = Some oldest /\ has oldest.
Proof.
  rewrite lifecycle_introduced.
  pose proof lifecycle_present_in_nonempty as Hne.
  rewrite lifecycle_present_in in Hne.
  destruct (filter has versions) as [|w ws] eqn:Hfil; [done|]. simpl. split.
  - destruct (decide (Some w = head versions)) as [Heq|Hneq]; [|done].
    intros _. exists w. split; [done|].
    destruct (head_filter_split has versions w) as (_ & _ & _ & _ & Hw);
      [by rewrite Hfil|done].
  - intros (oldest & Hhead & Hold).
    destruct versions as [|o rest]; [done|]. simpl in Hhead. simplify_eq.
    rewrite filter_cons_True in Hfil by done. simplify_eq.
    by rewrite decide_True.
Qed.

Lemma lifecycle_introduced_some (v : string) :
  ai_introduced info = Some v ->
  exists la rest, versions = la ++ v :: rest /\ la <> []
                  /\ Forall (fun w => ~ has w) la /\ has v.
Proof.
  rewrite lifecycle_introduced.
  destruct (decide (head (filter has versions) = head versions)) as [Heq|Hneq];
    [done|].
  intros Hv.
  destruct (head_filter_split has versions v Hv) as (la & rest & Hver & Hla & Hhas).
  exists la, rest. split_and!; [done| |done..].
  intros ->. apply Hneq. rewrite Hv, Hver. done.
Qed.

Lemma lifecycle_status :
  (ai_status info = "present"
   <-> exists newest, last versions = Some newest /\ has newest)
  /\ (ai_status info = "removed"
      <-> exists newest, last versions = Some newest /\ ~ has newest).
Proof.
  pose proof lifecycle_present_in_nonempty as Hne.
  unfold lifecycle in *. cbn [ai_status ai_present_in] in *.
  destruct held as (v & Hv & _).
  destruct (last versions) as [newest|] eqn:Hlast;
    [|apply last_None in Hlast; subst; by apply elem_of_nil in Hv].
  simpl. destruct (Py.contains (sets newest) api) eqn:Hc.
  - apply (contains_true sets api) in Hc. split; split.
    + intros _. by exists newest.
    + done.
    + done.
    + by intros (n & [= <-] & Hn).
  - apply (contains_false sets api) in Hc.
    destruct (present_in _) as [|x xs]; [done|]. split; split.
    + done.
    + by intros (n & [= <-] & Hn).
    + intros _. by exists newest.
    + done.
Qed.

Lemma lifecycle_removed_recorded :
  ai_status info = "removed" -> is_Some (ai_removed info).
Proof.
  intros (newest & Hlast & Hnot)%lifecycle_status.
  pose proof lifecycle_present_in_nonempty as Hne.
  rewrite lifecycle_present_in in Hne.
  unfold lifecycle. cbn [ai_removed].
  destruct (scan_result sets api versions) as (_ & _ & Hrem).
  destruct (removed _) as [r|]; [by eexists|].
  destruct Hrem as (la & lp & Hver & Hla & Hlp). exfalso.
  rewrite Hver, filter_app, (filter_none has la Hla) in Hne. simpl in Hne.
  destruct (non_empty_snoc lp) as (lp' & p & ->).
  { intros ->. by rewrite filter_nil in Hne. }
  rewrite Hver, app_assoc, last_snoc in Hlast. simplify_eq.
  apply Forall_app in Hlp as [_ Hp]. by rewrite Forall_singleton in Hp.
Qed.

End LifecycleFacts.

Section CatalogRecords.
Variable symbols : string -> string -> gset string.
Variables (versions api_types : list string).
Variable c : Catalog.

Local Abbreviation sets := (fetch_version symbols api_types).

Hypothesis built : catalog_of_range symbols versions api_types = Ok c.

Lemma catalog_inputs_nonempty : versions <> [] /\ api_types <> [].
Proof.
  unfold catalog_of_range, api_type_str in built. split.
  - intros ->. destruct (decide (1 < length api_types)); simpl in built; [done|].
    by destruct (Py.getitem api_types 0).
  - intros ->. done.
Qed.

Lemma catalog_record (api : string) (info : ApiInfo) :
  cat_apis c !! api = Some info ->
  (exists v, v ∈ versions /\ listed sets api v)
  /\ info = lifecycle sets versions api.
Proof.
  destruct catalog_inputs_nonempty as [Hne Hty].
  destruct (catalog_of_range_apis symbols api_types versions Hne Hty)
    as (c' & Hc' & Hapis).
  rewrite built in Hc'. injection Hc' as <-.
  intros Hinfo. by destruct (Hapis api) as [Hsome _]; apply Hsome.
Qed.

Lemma catalog_keys (api : string) :
  is_Some (cat_apis c !! api) <-> exists v, v ∈ versions /\ listed sets api v.
Proof.
  destruct catalog_inputs_nonempty as [Hne Hty].
  destruct (catalog_of_range_apis symbols api_types versions Hne Hty)
    as (c' & Hc' & Hapis).
  rewrite built in Hc'. injection Hc' as <-.
  destruct (Hapis api) as [Hsome Hex]. split.
  - intros [info Hinfo]. by destruct (Hsome info Hinfo).
  - intros H. rewrite (Hex H). by eexists.
Qed.

(** The summary is counted over the records of the catalog. *)
Lemma catalog_summary_counts :
  let s := cat_summary c in
  cat_total_apis c = cs_total s
  /\ cs_total s
     = size (⋃ (map_to_list (fetch_all_versions symbols versions api_types)).*2
             : gset string)
  /\ cs_present s
     = count_infos (fun a => bool_decide (ai_status a = "present")) (cat_apis c)
  /\ cs_removed s
     = count_infos (fun a => bool_decide (ai_status a = "removed")) (cat_apis c)
  /\ cs_introduced_in_range s
     = count_infos (fun a => bool_decide (is_Some (ai_introduced a))) (cat_apis c)
  /\ cs_already_present s
     = count_infos (fun a => bool_decide (ai_introduced a = None)
                             && bool_decide (ai_present_in a ≠ [])) (cat_apis c).
Proof.
  unfold catalog_of_range in built.
  destruct (api_type_str api_types) as [t|e]; simpl in built; [|done].
  destruct (Py.getitem versions 0) as [o|e]; simpl in built; [|done].
  destruct (last versions) as [n|]; simpl in built; [|done].
  destruct (catalog_loop _ _ _ _) as [apis|e]; simpl in built; [|done].
  injection built as <-. done.
Qed.

End CatalogRecords.

(** X11: what the catalog records for a symbol.  [present_in] lists, in
    range order, exactly the versions whose set holds the symbol.
    [introduced] is unset exactly when the first version of the range
    already holds the symbol; otherwise it is the first version holding
    it, which is not the first of the range.  The status is ["removed"]
    exactly when the last version of the range lacks the symbol, and then
    [removed] names a version. *)
Theorem catalog_record_of_symbol
    (symbols : string -> string -> gset string)
    (versions api_types : list string) (c : Catalog)
    (api : string) (info : ApiInfo) :
  catalog_of_range symbols versions api_types = Ok c ->
  cat_apis c !! api = Some info ->
  ai_present_in info
  = filter (listed (fetch_version symbols api_types) api) versions
  /\ (ai_introduced info = None
      <-> exists oldest, head versions = Some oldest
                         /\ api ∈ fetch_version symbols api_types oldest)
  /\ (forall v,
        ai_introduced info = Some v ->
        exists la rest,
          versions = la ++ v :: rest /\ la <> []
          /\ Forall (fun w => api ∉ fetch_version symbols api_types w) la
          /\ api ∈ fetch_version symbols api_types v)
  /\ (ai_status info = "removed"
      <-> exists newest, last versions = Some newest
                         /\ api ∉ fetch_version symbols api_types newest)
  /\ (ai_status info = "removed" -> is_Some (ai_removed info)).
Proof.
  intros Hc Hinfo.
  destruct (catalog_record symbols versions api_types c Hc api info Hinfo)
    as [Hheld ->].
  split_and!.
  - apply lifecycle_present_in.
  - by apply lifecycle_introduced_none.
  - apply lifecycle_introduced_some.
  - by apply lifecycle_status.
  - by apply lifecycle_removed_recorded.
Qed.

Lemma catalog_record_of_symbol_scenario_A :
  exists c info,
    (catalog_of_range sets_A ["1.0"; "2.0"; "3.0"] ["runtime"] = Ok c
     /\ cat_apis c !! "g" = Some info)
    /\ ai_present_in info = ["2.0"; "3.0"]
    /\ forall v, ai_introduced info = Some v ->
                 "g" ∈ fetch_version sets_A ["runtime"] v.
Proof.
  assert (exists c info,
            catalog_of_range sets_A ["1.0"; "2.0"; "3.0"] ["runtime"] = Ok c
            /\ cat_apis c !! "g" = Some info) as (c & info & Hc & Hinfo).
  { eexists _, _. split; vm_compute; reflexivity. }
  exists c, info. split; [by split|].
  destruct (catalog_record_of_symbol sets_A ["1.0"; "2.0"; "3.0"] ["runtime"]
              c "g" info Hc Hinfo) as (Hp & _ & Hi & _).
  split.
  - rewrite Hp. vm_compute. reflexivity.
  - intros v Hv. by destruct (Hi v Hv) as (la & rest & _ & _ & _ & Hg).
Defined.

Lemma filter_complement_length {A} (p q : A -> bool) (l : list A) :
  Forall (fun a => p a = negb (q a)) l ->
  length (filter (fun a => p a = true) l) + length (filter (fun a => q a = true) l)
  = length l.
Proof.
  induction 1 as [|a l Ha Hl IH]; [done|].
  rewrite !filter_cons. destruct (q a) eqn:Hq; simpl in Ha.
  - rewrite decide_False by (by rewrite Ha). rewrite decide_True by done.
    simpl. lia.
  - rewrite decide_True by done. rewrite decide_False by done. simpl. lia.
Qed.

Lemma count_infos_complement (p q : ApiInfo -> bool) (apis : gmap string ApiInfo) :
  (forall k a, apis !! k = Some a -> p a = negb (q a)) ->
  count_infos p apis + count_infos q apis = size apis.
Proof.
  intros Hpq. unfold count_infos.
  rewrite filter_complement_length.
  - by rewrite length_fmap, length_map_to_list.
  - apply Forall_forall. intros a ([k a'] & -> & Hk)%list_elem_of_fmap.
    apply elem_of_map_to_list in Hk. by eapply Hpq.
Qed.

(** X12: the summary of a catalog adds up.  The total is the number of
    records; every record counts as either present or removed, and as
    either introduced in the range or already present at its start, so both
    pairs of counters sum to the total. *)
Theorem catalog_summary_adds_up
    (symbols : string -> string -> gset string)
    (versions api_types : list string) (c : Catalog) :
  catalog_of_range symbols versions api_types = Ok c ->
  cat_total_apis c = cs_total (cat_summary c)
  /\ cs_total (cat_summary c) = size (cat_apis c)
  /\ cs_present (cat_summary c) + cs_removed (cat_summary c)
     = cs_total (cat_summary c)
  /\ cs_introduced_in_range (cat_summary c) + cs_already_present (cat_summary c)
     = cs_total (cat_summary c).
Proof.
  intros Hc.
  destruct (catalog_summary_counts symbols versions api_types c Hc)
    as (Ht & Hsz & Hp & Hr & Hi & Ha).
  assert (cs_total (cat_summary c) = size (cat_apis c)) as Hsize.
  { rewrite Hsz, <-(size_dom (D:=gset string) (cat_apis c)). f_equal.
    apply set_eq. intros x.
    rewrite elem_of_dom, (catalog_keys symbols versions api_types c Hc).
    by rewrite all_apis_elem. }
  split_and!; [done..| |].
  - rewrite Hp, Hr, Hsize. apply count_infos_complement.
    intros k a Hk.
    destruct (catalog_record symbols versions api_types c Hc k a Hk)
      as [Hheld ->].
    destruct (lifecycle_status _ _ _ Hheld) as [Hpres Hrem].
    destruct (bool_decide_reflect
                (ai_status (lifecycle (fetch_version symbols api_types)
                              versions k) = "removed")) as [Hq|Hq]; cbn [negb].
    + apply bool_decide_eq_false. by rewrite Hq.
    + apply bool_decide_eq_true. apply Hpres.
      destruct Hheld as (v & Hv & _).
      destruct (last versions) as [newest|] eqn:Hlast;
        [|apply last_None in Hlast; subst; by apply elem_of_nil in Hv].
      exists newest. split; [done|].
      destruct (decide (listed (fetch_version symbols api_types) k newest))
        as [Hn|Hn]; [done|].
      exfalso. apply Hq, Hrem. by exists newest.
  - rewrite Hi, Ha, Hsize. apply count_infos_complement.
    intros k a Hk.
    destruct (catalog_record symbols versions api_types c Hc k a Hk)
      as [Hheld ->].
    pose proof (lifecycle_present_in_nonempty _ _ _ Hheld) as Hne.
    rewrite (bool_decide_eq_true_2 _ Hne), andb_true_r.
    by destruct (ai_introduced _).
Qed.

Lemma catalog_summary_adds_up_scenario_A :
  exists c,
    catalog_of_range sets_A ["1.0"; "2.0"; "3.0"] ["runtime"] = Ok c
    /\ cs_total (cat_summary c) = 2
    /\ cs_present (cat_summary c) + cs_removed (cat_summary c) = 2
    /\ cs_introduced_in_range (cat_summary c) + cs_already_present (cat_summary c)
       = 2.
Proof.
  assert (exists c,
            catalog_of_range sets_A ["1.0"; "2.0"; "3.0"] ["runtime"] = Ok c
            /\ cs_total (cat_summary c) = 2) as (c & Hc & Ht).
  { eexists. split; vm_compute; reflexivity. }
  exists c. split; [exact Hc|]. split; [exact Ht|].
  destruct (catalog_summary_adds_up sets_A ["1.0"; "2.0"; "3.0"] ["runtime"] c Hc)
    as (_ & _ & Hpr & Hia).
  rewrite Hpr, Hia. split; exact Ht.
Defined.

(** ** Changelog builder: totals and net changes against the two ends *)

Section ChangelogShape.
Variable symbols : string -> string -> gset string.
Variables (versions api_types : list string).
Variable cl : Changelog.

Local Abbreviation sets := (fetch_version symbols api_types).

Hypothesis built : changelog_of_range symbols versions api_types = Ok cl.

(** The changelog in terms of the consecutive pairs of the range. *)
Lemma changelog_of_range_shape :
  exists v0 vs,
    versions = v0 :: vs /\ vs <> []
    /\ cl_versions cl = entries_from sets v0 vs
    /\ sum_total_added (cl_summary cl)
       = sum_list_with vi_added_count (entries_from sets v0 vs)
    /\ sum_total_removed (cl_summary cl)
       = sum_list_with vi_removed_count (entries_from sets v0 vs)
    /\ (forall x, x ∈ sum_all_added (cl_summary cl)
                  <-> exists e, e ∈ entries_from sets v0 vs /\ x ∈ vi_added e)
    /\ (forall x, x ∈ sum_all_removed (cl_summary cl)
                  <-> exists e, e ∈ entries_from sets v0 vs /\ x ∈ vi_removed e)
    /\ (forall x, x ∈ sum_net_new (cl_summary cl)
                  <-> x ∈ sum_all_added (cl_summary cl)
                      /\ x ∉ sum_all_removed (cl_summary cl))
    /\ (forall x, x ∈ sum_net_removed (cl_summary cl)
                  <-> x ∈ sum_all_removed (cl_summary cl)
                      /\ x ∉ sum_all_added (cl_summary cl)).
Proof.
  unfold changelog_of_range in built.
  destruct (decide (length versions < 2)) as [|Hlen]; [done|].
  destruct (api_type_str api_types) as [t|e]; simpl in built; [|done].
  destruct versions as [|v0 vs] eqn:Hver; [simpl in Hlen; lia|].
  rewrite <-Hver in built.
  assert (Py.getitem versions 0 = Ok v0) as Hg by (by rewrite Hver).
  rewrite Hg in built. simpl in built.
  destruct (last versions) as [newest|]; simpl in built; [|done].
  injection built as <-. simpl.
  assert (diff_loop symbols api_types versions
          = foldl (diff_step symbols api_types)
              {| prev_apis := Some (sets v0); prev_version := Some v0;
                 entries := []; total_added := 0; total_removed := 0;
                 all_added := []; all_removed := [] |} vs) as Hloop.
  { by rewrite Hver. }
  destruct (diff_loop_from symbols api_types vs
              {| prev_apis := Some (sets v0); prev_version := Some v0;
                 entries := []; total_added := 0; total_removed := 0;
                 all_added := []; all_removed := [] |} v0 eq_refl eq_refl)
    as (He & Ha & Hr & Hla & Hlr).
  cbn zeta in He, Ha, Hr, Hla, Hlr. rewrite <-Hloop in He, Ha, Hr, Hla, Hlr.
  simpl in He, Ha, Hr, Hla, Hlr.
  exists v0, vs. split_and!; [done| |done..| | | |].
  - intros ->. simpl in Hlen. lia.
  - intros x. rewrite sorted_names_elem, elem_of_list_to_set, Hla,
      list_elem_of_join. split.
    + intros (l & Hx & (e & -> & He')%list_elem_of_fmap). by exists e.
    + intros (e & He' & Hx). exists (vi_added e). split; [done|].
      apply list_elem_of_fmap. by exists e.
  - intros x. rewrite sorted_names_elem, elem_of_list_to_set, Hlr,
      list_elem_of_join. split.
    + intros (l & Hx & (e & -> & He')%list_elem_of_fmap). by exists e.
    + intros (e & He' & Hx). exists (vi_removed e). split; [done|].
      apply list_elem_of_fmap. by exists e.
  - intros x. by rewrite sorted_names_elem, elem_of_difference,
      !elem_of_list_to_set.
  - intros x. by rewrite sorted_names_elem, elem_of_difference,
      !elem_of_list_to_set.
Qed.

End ChangelogShape.

Lemma last_cons_default {A} (p v : A) (vs : list A) :
  default p (last (v :: vs)) = default v (last vs).
Proof. rewrite last_cons. by destruct (last vs). Qed.

Section Chain.
Variable sets : string -> gset string.

Lemma size_difference_balance (X Y : gset string) :
  size Y + size (X ∖ Y) = size X + size (Y ∖ X).
Proof.
  rewrite <-!size_union_alt. f_equal. apply (comm_L (∪)).
Qed.

(** Along a chain of versions the sizes telescope. *)
Lemma entries_from_balance (p : string) (vs : list string) :
  size (sets (default p (last vs)))
  + sum_list_with vi_removed_count (entries_from sets p vs)
  = size (sets p) + sum_list_with vi_added_count (entries_from sets p vs).
Proof.
  revert p. induction vs as [|v vs IH]; intros p; [simpl; lia|].
  rewrite last_cons_default. cbn [entries_from sum_list_with diff_entry
    vi_removed_count vi_added_count].
  rewrite !length_sorted_names.
  pose proof (IH v) as Hv.
  pose proof (size_difference_balance (sets p) (sets v)) as Hd.
  lia.
Qed.

Lemma entry_added (prev curr x : string) :
  x ∈ vi_added (diff_entry sets prev curr) <-> x ∈ sets curr /\ x ∉ sets prev.
Proof. simpl. by rewrite sorted_names_elem, elem_of_difference. Qed.

Lemma entry_removed (prev curr x : string) :
  x ∈ vi_removed (diff_entry sets prev curr) <-> x ∈ sets prev /\ x ∉ sets curr.
Proof. simpl. by rewrite sorted_names_elem, elem_of_difference. Qed.

Lemma never_removed_stays (x p : string) (vs : list string) :
  (forall e, e ∈ entries_from sets p vs -> x ∉ vi_removed e) ->
  x ∈ sets p -> x ∈ sets (default p (last vs)).
Proof.
  revert p. induction vs as [|v vs IH]; intros p Hnr Hp; [done|].
  rewrite last_cons_default.
  apply IH.
  - intros e He. apply Hnr. simpl. by right.
  - destruct (decide (x ∈ sets v)) as [|Hv]; [done|].
    exfalso. apply (Hnr (diff_entry sets p v)); [by left|].
    by apply entry_removed.
Qed.

Lemma never_added_stays_out (x p : string) (vs : list string) :
  (forall e, e ∈ entries_from sets p vs -> x ∉ vi_added e) ->
  x ∉ sets p -> x ∉ sets (default p (last vs)).
Proof.
  revert p. induction vs as [|v vs IH]; intros p Hna Hp; [done|].
  rewrite last_cons_default.
  apply IH.
  - intros e He. apply Hna. simpl. by right.
  - intros Hv. apply (Hna (diff_entry sets p v)); [by left|].
    by apply entry_added.
Qed.

Lemma added_never_removed (x p : string) (vs : list string) :
  (exists e, e ∈ entries_from sets p vs /\ x ∈ vi_added e) ->
  (forall e, e ∈ entries_from sets p vs -> x ∉ vi_removed e) ->
  (x ∉ sets p) /\ x ∈ sets (default p (last vs)).
Proof.
  revert p. induction vs as [|v vs IH]; intros p (e & He & Hx) Hnr.
  { by apply elem_of_nil in He. }
  rewrite last_cons_default.
  assert (forall e', e' ∈ entries_from sets v vs -> x ∉ vi_removed e') as Hnr'.
  { intros e' He'. apply Hnr. simpl. by right. }
  assert (x ∈ sets p -> x ∈ sets v) as Hstay.
  { intros Hp. destruct (decide (x ∈ sets v)) as [|Hv]; [done|].
    exfalso. apply (Hnr (diff_entry sets p v)); [by left|].
    by apply entry_removed. }
  simpl in He. apply elem_of_cons in He as [->|He].
  - apply entry_added in Hx as [Hv Hp]. split; [done|].
    by apply never_removed_stays.
  - destruct (IH v) as [Hv Hlast]; [by exists e|done|].
    split; [|done]. intros Hp. by apply Hv, Hstay.
Qed.

Lemma removed_never_added (x p : string) (vs : list string) :
  (exists e, e ∈ entries_from sets p vs /\ x ∈ vi_removed e) ->
  (forall e, e ∈ entries_from sets p vs -> x ∉ vi_added e) ->
  x ∈ sets p /\ x ∉ sets (default p (last vs)).
Proof.
  revert p. induction vs as [|v vs IH]; intros p (e & He & Hx) Hna.
  { by apply elem_of_nil in He. }
  rewrite last_cons_default.
  assert (forall e', e' ∈ entries_from sets v vs -> x ∉ vi_added e') as Hna'.
  { intros e' He'. apply Hna. simpl. by right. }
  assert (x ∉ sets p -> x ∉ sets v) as Hout.
  { intros Hp Hv. apply (Hna (diff_entry sets p v)); [by left|].
    by apply entry_added. }
  simpl in He. apply elem_of_cons in He as [->|He].
  - apply entry_removed in Hx as [Hp Hv]. split; [done|].
    by apply never_added_stays_out.
  - destruct (IH v) as [Hv Hlast]; [by exists e|done|].
    split; [|done]. destruct (decide (x ∈ sets p)) as [|Hp]; [done|].
    exfalso. by apply (Hout Hp).
Qed.

End Chain.

(** X13: the totals of a changelog balance.  Every entry satisfies
    [total_apis + removed_count = (size of the previous set) + added_count],
    and over the whole range the size of the last set plus [total_removed]
    equals the size of the first set plus [total_added]. *)
Theorem changelog_totals_balance
    (symbols : string -> string -> gset string)
    (versions api_types : list string) (cl : Changelog) :
  changelog_of_range symbols versions api_types = Ok cl ->
  (exists first newest,
     head versions = Some first /\ last versions = Some newest
     /\ size (fetch_version symbols api_types newest)
        + sum_total_removed (cl_summary cl)
        = size (fetch_version symbols api_types first)
          + sum_total_added (cl_summary cl))
  /\ forall e prev,
       e ∈ cl_versions cl -> vi_previous e = Some prev ->
       vi_total_apis e + vi_removed_count e
       = size (fetch_version symbols api_types prev) + vi_added_count e.
Proof.
  intros Hcl.
  destruct (changelog_of_range_shape symbols versions api_types cl Hcl)
    as (v0 & vs & Hver & Hne & He & Ha & Hr & _).
  split.
  - exists v0, (default v0 (last vs)). split_and!.
    + by rewrite Hver.
    + rewrite Hver, last_cons. by destruct (last vs).
    + rewrite Ha, Hr. apply entries_from_balance.
  - intros e prev Hin Hprev. rewrite He in Hin.
    apply entries_from_elem in Hin as (p & curr & ->).
    simpl in Hprev. injection Hprev as ->. simpl.
    rewrite !length_sorted_names. apply size_difference_balance.
Qed.

Lemma changelog_totals_balance_scenario_B :
  exists cl,
    changelog_of_range sets_A ["1.0"; "2.0"; "3.0"] ["runtime"] = Ok cl
    /\ size (fetch_version sets_A ["runtime"] "3.0")
       + sum_total_removed (cl_summary cl)
       = size (fetch_version sets_A ["runtime"] "1.0")
         + sum_total_added (cl_summary cl).
Proof.
  assert (exists cl,
            changelog_of_range sets_A ["1.0"; "2.0"; "3.0"] ["runtime"] = Ok cl)
    as (cl & Hcl).
  { eexists. vm_compute. reflexivity. }
  exists cl. split; [exact Hcl|].
  destruct (changelog_totals_balance sets_A ["1.0"; "2.0"; "3.0"] ["runtime"]
              cl Hcl) as ((first & newest & Hf & Hl & Hbal) & _).
  injection Hf as <-. injection Hl as <-. exact Hbal.
Defined.

(** X14: net changes against the two ends of the range.  A symbol of
    [net_new] is in the set of the last version and not in that of the
    first; a symbol of [net_removed] is in the set of the first version and
    not in that of the last.  Conversely a symbol the last version has and
    the first lacks is added by some entry, and one the first has and the
    last lacks is removed by some entry (it is listed in [all_added],
    respectively [all_removed], though not always in the net list). *)
Theorem net_changes_between_ends
    (symbols : string -> string -> gset string)
    (versions api_types : list string) (cl : Changelog) :
  changelog_of_range symbols versions api_types = Ok cl ->
  exists first newest,
    head versions = Some first /\ last versions = Some newest
    /\ (forall x, x ∈ sum_net_new (cl_summary cl) ->
                  x ∈ fetch_version symbols api_types newest
                  /\ x ∉ fetch_version symbols api_types first)
    /\ (forall x, x ∈ sum_net_removed (cl_summary cl) ->
                  x ∈ fetch_version symbols api_types first
                  /\ x ∉ fetch_version symbols api_types newest)
    /\ (forall x, x ∈ fetch_version symbols api_types newest ->
                  x ∉ fetch_version symbols api_types first ->
                  x ∈ sum_all_added (cl_summary cl))
    /\ (forall x, x ∈ fetch_version symbols api_types first ->
                  x ∉ fetch_version symbols api_types newest ->
                  x ∈ sum_all_removed (cl_summary cl)).
Proof.
  intros Hcl.
  destruct (changelog_of_range_shape symbols versions api_types cl Hcl)
    as (v0 & vs & Hver & Hne & He & _ & _ & Hadd & Hrem & Hnew & Hgone).
  exists v0, (default v0 (last vs)). split_and!.
  - by rewrite Hver.
  - rewrite Hver, last_cons. by destruct (last vs).
  - intros x [Ha Hr]%Hnew.
    destruct (added_never_removed (fetch_version symbols api_types) x v0 vs)
      as [Hfirst Hlast]; [by apply Hadd| |done].
    intros e Hin Hx. apply Hr, Hrem. by exists e.
  - intros x [Hr Ha]%Hgone.
    destruct (removed_never_added (fetch_version symbols api_types) x v0 vs)
      as [Hfirst Hlast]; [by apply Hrem| |done].
    intros e Hin Hx. apply Ha, Hadd. by exists e.
  - intros x Hlast Hfirst.
    destruct (decide (x ∈ sum_all_added (cl_summary cl))) as [|Hna]; [done|].
    exfalso.
    apply (never_added_stays_out (fetch_version symbols api_types) x v0 vs);
      [|done..].
    intros e Hin Hx. apply Hna, Hadd. by exists e.
  - intros x Hfirst Hlast.
    destruct (decide (x ∈ sum_all_removed (cl_summary cl))) as [|Hnr]; [done|].
    exfalso. apply Hlast.
    apply (never_removed_stays (fetch_version symbols api_types) x v0 vs);
      [|done].
    intros e Hin Hx. apply Hnr, Hrem. by exists e.
Qed.

Lemma net_changes_between_ends_scenario_B :
  exists cl,
    changelog_of_range sets_A ["1.0"; "2.0"; "3.0"] ["runtime"] = Ok cl
    /\ (forall x, x ∈ sum_net_new (cl_summary cl) ->
                  x ∈ fetch_version sets_A ["runtime"] "3.0"
                  /\ x ∉ fetch_version sets_A ["runtime"] "1.0").
Proof.
  assert (exists cl,
            changelog_of_range sets_A ["1.0"; "2.0"; "3.0"] ["runtime"] = Ok cl)
    as (cl & Hcl).
  { eexists. vm_compute. reflexivity. }
  exists cl. split; [exact Hcl|].
  destruct (net_changes_between_ends sets_A ["1.0"; "2.0"; "3.0"] ["runtime"]
              cl Hcl) as (first & newest & Hf & Hl & Hnew & _).
  injection Hf as <-. injection Hl as <-. exact Hnew.
Defined.

(** ** Page fetcher: retries *)

Section FetchLoop.
Variable net : nat -> Net.attempt.
Variable retries : nat.

Local Abbreviation post attempt slept r :=
  (attempt < Net.attempts r <= retries
   /\ Net.sleeps r = slept ++ seq (attempt + 1) (Net.attempts r - 1 - attempt)
   /\ (forall k, attempt <= k -> k + 1 < Net.attempts r ->
                 net k = Net.Interrupted \/ net k = Net.OtherError)
   /\ Net.body r = match net (Net.attempts r - 1) with
                   | Net.Body text => text
                   | _ => EmptyString
                   end
   /\ (Net.attempts r < retries ->
       net (Net.attempts r - 1) = Net.HttpFailure
       \/ exists text, net (Net.attempts r - 1) = Net.Body text)).

(** The loop left at [attempt], without a further sleep. *)
Lemma fetch_stop (attempt : nat) (slept : list nat) (text : string) :
  attempt + 1 <= retries ->
  text = match net attempt with
         | Net.Body text => text
         | _ => EmptyString
         end ->
  (attempt + 1 < retries ->
   net attempt = Net.HttpFailure \/ exists text, net attempt = Net.Body text) ->
  post attempt slept
    {| Net.body := text; Net.sleeps := slept; Net.attempts := attempt + 1 |}.
Proof.
  intros Hle Htext Hearly. cbn [Net.attempts Net.sleeps Net.body].
  replace (attempt + 1 - 1) with attempt by lia.
  replace (attempt - attempt) with 0 by lia. cbn [seq]. rewrite app_nil_r.
  split_and!; [lia|lia|done|intros; lia|done|done].
Qed.

(** The loop retried after a sleep at [attempt]. *)
Lemma fetch_retry (attempt : nat) (slept : list nat) (r : Net.fetched) :
  net attempt = Net.Interrupted \/ net attempt = Net.OtherError ->
  post (attempt + 1) (slept ++ [1 * (attempt + 1)]) r ->
  post attempt slept r.
Proof.
  intros Htr (Hn & Hs & Hk & Hb & He).
  split_and!; [lia|lia| | |done..].
  - rewrite Hs, <-app_assoc. f_equal.
    replace (Net.attempts r - 1 - attempt)
      with (S (Net.attempts r - 1 - (attempt + 1))) by lia.
    cbn [seq app]. rewrite Nat.mul_1_l. f_equal. f_equal. lia.
  - intros k Hak Hkn. destruct (decide (k = attempt)) as [->|Hne]; [done|].
    apply Hk; lia.
Qed.

Lemma fetch_loop_spec (remaining attempt : nat) (slept : list nat) :
  attempt + S remaining = retries ->
  post attempt slept (Net.fetch_loop net retries attempt (S remaining) slept).
Proof.
  revert attempt slept.
  induction remaining as [|remaining IH]; intros attempt slept Hsum;
    cbn [Net.fetch_loop]; destruct (net attempt) eqn:Hnet.
  - apply fetch_stop; [lia|by rewrite Hnet|intros; lia].
  - apply fetch_stop; [lia|by rewrite Hnet|intros; lia].
  - rewrite decide_False by lia.
    apply fetch_stop; [lia|by rewrite Hnet|intros; lia].
  - rewrite decide_False by lia.
    apply fetch_stop; [lia|by rewrite Hnet|intros; lia].
  - apply fetch_stop; [lia|by rewrite Hnet|]. intros _. right. by eexists.
  - apply fetch_stop; [lia|by rewrite Hnet|]. intros _. by left.
  - rewrite decide_True by lia.
    apply fetch_retry; [by left|]. apply IH. lia.
  - rewrite decide_True by lia.
    apply fetch_retry; [by right|]. apply IH. lia.
Qed.

End FetchLoop.

(** X15: what [fetch_url] does with a bad URL and with failing attempts.
    A URL that [Request] refuses leaves the function with a [ValueError]
    before anything is fetched.  Otherwise the function returns: it calls
    [urlopen] at most [retries] times, and at least once unless [retries]
    is 0.  Every attempt before the last one made was interrupted or failed
    with an unforeseen exception, and before retrying after attempt number
    [k] (counted from 1) it sleeps [k] seconds, so the sleeps are
    [1, 2, ..., attempts - 1].  The value returned is the text of the last
    attempt when that one succeeded and the empty string otherwise; and the
    loop stops before [retries] attempts only on a success or on an
    [HTTPError] or [URLError], which is never retried. *)
Theorem fetch_url_retries (net : nat -> Net.attempt) (retries : nat) :
  Net.fetch_url false net retries = Raise ValueError
  /\ exists r,
       Net.fetch_url true net retries = Ok r
       /\ Net.attempts r <= retries
       /\ (retries = 0 -> Net.attempts r = 0 /\ Net.body r = EmptyString)
       /\ (retries <> 0 -> 1 <= Net.attempts r)
       /\ Net.sleeps r = seq 1 (Net.attempts r - 1)
       /\ (forall k, k + 1 < Net.attempts r ->
                     net k = Net.Interrupted \/ net k = Net.OtherError)
       /\ (retries <> 0 ->
           Net.body r = match net (Net.attempts r - 1) with
                        | Net.Body text => text
                        | _ => EmptyString
                        end)
       /\ (Net.attempts r < retries ->
           net (Net.attempts r - 1) = Net.HttpFailure
           \/ exists text, net (Net.attempts r - 1) = Net.Body text).
Proof.
  split; [done|]. unfold Net.fetch_url. eexists. split; [reflexivity|].
  destruct retries as [|remaining].
  { cbn. split_and!; try done; intros; lia. }
  destruct (fetch_loop_spec net (S remaining) remaining 0 [])
    as (Hn & Hs & Hk & Hb & He); [lia|]. cbn zeta in *.
  split_and!; [lia|done|lia| | |done|done].
  - rewrite Hs. simpl. f_equal. lia.
  - intros k Hkn. apply Hk; lia.
Qed.

(** ** Group links of an index page *)

Section GroupLinks.

Local Abbreviation tags_t := (list (string * list (string * option string))).

Lemma feed_invariant (tags : tags_t) (links : list string) :
  NoDup links ->
  Forall (fun h => ModuleIndexParser.in_str "group__" h = true) links ->
  NoDup (ModuleIndexParser.feed tags links)
  /\ Forall (fun h => ModuleIndexParser.in_str "group__" h = true)
       (ModuleIndexParser.feed tags links)
  /\ links `prefix_of` ModuleIndexParser.feed tags links
  /\ forall h, h ∈ ModuleIndexParser.feed tags links ->
               h ∈ links
               \/ exists attrs, ("a", attrs) ∈ tags
                                /\ ModuleIndexParser.href_of attrs = Some h.
Proof.
  revert links. induction tags as [|[tag attrs] tags IH]; intros links Hnd Hall.
  { simpl. split_and!; [done..|]. by left. }
  cbn [ModuleIndexParser.feed]. unfold ModuleIndexParser.handle_starttag.
  destruct (decide (tag = "a")) as [->|Htag].
  - destruct (ModuleIndexParser.href_of attrs) as [href|] eqn:Hhref.
    + destruct (ModuleIndexParser.in_str "group__" href) eqn:Hin; simpl.
      * destruct (bool_decide_reflect (href ∈ links)) as [Hmem|Hmem]; simpl.
        -- destruct (IH links Hnd Hall) as (H1 & H2 & H3 & H4).
           split_and!; [done..|].
           intros h Hh. destruct (H4 h Hh) as [?|(a & Ha & Hh')]; [by left|].
           right. exists a. split; [by right|done].
        -- destruct (IH (links ++ [href])) as (H1 & H2 & H3 & H4).
           { apply NoDup_app. split_and!; [done| |apply NoDup_singleton].
             intros x Hx Hx'%list_elem_of_singleton. by subst x. }
           { apply Forall_app. split; [done|]. by apply Forall_singleton. }
           split_and!; [done..| |].
           ++ etrans; [|exact H3]. by apply prefix_app_r.
           ++ intros h Hh. destruct (H4 h Hh) as [Hl|(a & Ha & Hh')].
              ** apply elem_of_app in Hl as [?|Hl%list_elem_of_singleton];
                   [by left|]. subst h.
                 right. exists attrs. split; [by left|done].
              ** right. exists a. split; [by right|done].
      * destruct (IH links Hnd Hall) as (H1 & H2 & H3 & H4).
        split_and!; [done..|].
        intros h Hh. destruct (H4 h Hh) as [?|(a & Ha & Hh')]; [by left|].
        right. exists a. split; [by right|done].
    + split_and!; [done..|]. by left.
  - destruct (IH links Hnd Hall) as (H1 & H2 & H3 & H4).
    split_and!; [done..|].
    intros h Hh. destruct (H4 h Hh) as [?|(a & Ha & Hh')]; [by left|].
    right. exists a. split; [by right|done].
Qed.

Lemma feed_aborts (before after : tags_t) (attrs : list (string * option string))
    (links : list string) :
  ModuleIndexParser.href_of attrs = None ->
  ModuleIndexParser.feed (before ++ ("a", attrs) :: after) links
  = ModuleIndexParser.feed before links.
Proof.
  intros Hnone. revert links.
  induction before as [|[tag a] before IH]; intros links.
  - simpl. unfold ModuleIndexParser.handle_starttag.
    by rewrite decide_True, Hnone.
  - cbn [app ModuleIndexParser.feed].
    destruct (ModuleIndexParser.handle_starttag tag a links); [apply IH|done].
Qed.

End GroupLinks.

(** X16: the group links collected from an index page.  They are pairwise
    distinct, each contains [group__], and each is the [href] of some [a]
    tag of the page; so the first 20 of them, which are the ones fetched,
    are 20 different links at most.  An [a] tag whose [href] has no value
    ends the collection without an error: the links of the tags before it
    are kept and those after it are never seen. *)
Theorem group_links_collected
    (tags : list (string * list (string * option string))) :
  NoDup (ModuleIndexParser.feed tags [])
  /\ Forall (fun h => ModuleIndexParser.in_str "group__" h = true)
       (ModuleIndexParser.feed tags [])
  /\ (forall h, h ∈ ModuleIndexParser.feed tags [] ->
                exists attrs, ("a", attrs) ∈ tags
                              /\ ModuleIndexParser.href_of attrs = Some h)
  /\ NoDup (take 20 (ModuleIndexParser.feed tags []))
  /\ length (take 20 (ModuleIndexParser.feed tags [])) <= 20
  /\ (forall before attrs after,
        tags = before ++ ("a", attrs) :: after ->
        ModuleIndexParser.href_of attrs = None ->
        ModuleIndexParser.feed tags [] = ModuleIndexParser.feed before []).
Proof.
  destruct (feed_invariant tags []) as (Hnd & Hall & _ & Hsrc);
    [apply NoDup_nil_2|done|].
  split_and!; [done|done| | | |].
  - intros h Hh. by destruct (Hsrc h Hh) as [?%elem_of_nil|?].
  - apply (sublist_NoDup _ (ModuleIndexParser.feed tags []));
      [done|apply sublist_take].
  - rewrite length_take. lia.
  - intros before attrs after -> Hnone. by apply feed_aborts.
Qed.

(** ** CSV rendering of a changelog *)

Lemma csv_rows_entries (sets : string -> gset string) (p : string)
    (vs : list string) :
  length (mjoin (csv_rows <$> entries_from sets p vs))
  = sum_list_with vi_added_count (entries_from sets p vs)
    + sum_list_with vi_removed_count (entries_from sets p vs).
Proof.
  revert p. induction vs as [|v vs IH]; intros p; [done|].
  cbn [entries_from fmap list_fmap mjoin list_join sum_list_with].
  rewrite length_app, IH. unfold csv_rows at 1.
  rewrite length_app, !length_fmap. simpl. lia.
Qed.

(** X17: the CSV rendering of a changelog has, after its header line, one
    line per addition and one per removal: the number of lines is one more
    than [total_added + total_removed] of the summary, and every line after
    the header is the row of a symbol added or removed by some entry. *)
Theorem changelog_csv_rows
    (symbols : string -> string -> gset string)
    (versions api_types : list string) (cl : Changelog) :
  changelog_of_range symbols versions api_types = Ok cl ->
  head (format_changelog_csv_lines cl)
  = Some "version,previous_version,action,api_name"
  /\ length (format_changelog_csv_lines cl)
     = 1 + sum_total_added (cl_summary cl) + sum_total_removed (cl_summary cl)
  /\ forall row,
       row ∈ tail (format_changelog_csv_lines cl) ->
       exists e api,
         e ∈ cl_versions cl
         /\ ((api ∈ vi_added e
              /\ row = vi_version e +:+ "," +:+ previous_str e
                       +:+ ",added," +:+ api)
             \/ (api ∈ vi_removed e
                 /\ row = vi_version e +:+ "," +:+ previous_str e
                          +:+ ",removed," +:+ api)).
Proof.
  intros Hcl.
  destruct (changelog_of_range_shape symbols versions api_types cl Hcl)
    as (v0 & vs & Hver & Hne & He & Ha & Hr & _).
  unfold format_changelog_csv_lines. split_and!; [done| |].
  - cbn [length]. rewrite He, csv_rows_entries, Ha, Hr. lia.
  - cbn [tail]. intros row (rows & Hrow & (e & -> & Hin)%list_elem_of_fmap)
      %list_elem_of_join.
    unfold csv_rows in Hrow.
    apply elem_of_app in Hrow
      as [(api & -> & Hapi)%list_elem_of_fmap|(api & -> & Hapi)%list_elem_of_fmap].
    + exists e, api. split; [done|]. by left.
    + exists e, api. split; [done|]. by right.
Qed.

Lemma changelog_csv_rows_scenario_B :
  exists cl,
    changelog_of_range sets_A ["1.0"; "2.0"; "3.0"] ["runtime"] = Ok cl
    /\ length (format_changelog_csv_lines cl)
       = 1 + sum_total_added (cl_summary cl) + sum_total_removed (cl_summary cl).
Proof.
  assert (exists cl,
            changelog_of_range sets_A ["1.0"; "2.0"; "3.0"] ["runtime"] = Ok cl)
    as (cl & Hcl).
  { eexists. vm_compute. reflexivity. }
  exists cl. split; [exact Hcl|].
  exact (proj1 (proj2 (changelog_csv_rows sets_A ["1.0"; "2.0"; "3.0"]
                         ["runtime"] cl Hcl))).
Defined.

(** ** Full scan and catalog *)

Lemma filter_nil_iff {A} (P : A -> Prop) `{!forall x, Decision (P x)}
    (l : list A) :
  filter P l = [] <-> Forall (fun x => ~ P x) l.
Proof.
  split; [|apply filter_none].
  intros Hnil. apply Forall_forall. intros x Hx HP.
  by apply (filter_nil_not_elem_of P l x).
Qed.

Section FullScan.
Variable versions : list string.
Variable symbols : string -> string -> gset string.
Variables (api_name api_type : string).

Local Abbreviation present := (present_at symbols api_name api_type).

(** The result of a full scan. *)
Lemma full_scan_result :
  NoDup versions -> versions <> [] ->
  exists r newest,
    last versions = Some newest
    /\ find_api_history versions symbols api_name api_type true = Ok r
    /\ sr_present_in r = filter present versions
    /\ sr_introduced r = head (filter present versions)
    /\ (sr_removed r = None
        <-> present newest \/ filter present versions = []).
Proof.
  intros Hnd Hne.
  destruct (non_empty_snoc versions Hne) as (older & newest & Hver).
  assert (last versions = Some newest) as Hlast
    by (rewrite Hver; apply last_snoc).
  destruct (decide (present newest)) as [Hnew|Hnew].
  { destruct (find_present_full versions symbols api_name api_type older newest
                Hver Hnd Hnew) as (r & Hr & Hrem & Hp & Hi).
    exists r, newest. split_and!; [done..|]. split; [by left|done]. }
  destruct (decide (Exists present older)) as [Hex|Hnone].
  - apply Exists_exists in Hex.
    destruct (find_absent_split versions older newest symbols api_name api_type
                true Hver Hnd Hnew Hex)
      as (l0 & run & l2 & r & Hsplit & Hrun_ne & Hl2_ne & Hrun & _ & _ & Hr
          & Hrem & _ & Hf).
    destruct (Hf eq_refl) as [Hi Hp].
    exists r, newest. split_and!; [done..|]. rewrite Hrem. split.
    + by destruct l2.
    + intros [?|Hnil]; [done|]. exfalso.
      destruct Hex as (v & Hv & Hpv).
      apply (filter_nil_not_elem_of present versions v Hnil Hpv).
      rewrite Hver. apply elem_of_app. by left.
  - assert (forall v, v ∈ versions -> ~ present v) as Hno.
    { intros v Hv Hpv. rewrite Hver in Hv.
      apply elem_of_app in Hv as [Hv|Hv%list_elem_of_singleton].
      - apply Hnone, Exists_exists. by exists v.
      - by subst v. }
    destruct (find_none versions symbols api_name api_type true Hne Hno)
      as (r & Hr & Hp & Hi & Hrem).
    assert (filter present versions = []) as Hnil.
    { apply filter_none. by apply Forall_forall. }
    exists r, newest. rewrite Hnil. split_and!; [done..|]. split; [by right|done].
Qed.

Lemma fetch_version_single (v : string) :
  fetch_version symbols [api_type] v = symbols v api_type.
Proof. unfold fetch_version. simpl. apply (left_id_L ∅ (∪)). Qed.

Lemma filter_single_category :
  filter (listed (fetch_version symbols [api_type]) api_name) versions
  = filter present versions.
Proof.
  apply list_filter_iff. intros v. unfold listed, present_at.
  by rewrite fetch_version_single.
Qed.

End FullScan.

(** X18: a full scan and the catalog agree.  For one category and the same
    version list, the symbol is a key of the catalog exactly when the full
    scan finds it somewhere; then both list the same versions in
    [present_in], the catalog's [introduced] is either unset (the symbol is
    in the first version) or the [introduced] of the scan, and the status
    is ["present"] exactly when the scan leaves [removed] unset.  (The two
    [removed] fields themselves may differ: the scan names the version
    after the last one holding the symbol, the catalog the first version
    lacking it.) *)
Theorem full_scan_agrees_with_catalog
    (versions : list string) (symbols : string -> string -> gset string)
    (api_name api_type : string) (r : SearchResult) (c : Catalog) :
  NoDup versions ->
  find_api_history versions symbols api_name api_type true = Ok r ->
  catalog_of_range symbols versions [api_type] = Ok c ->
  (cat_apis c !! api_name = None <-> sr_present_in r = [])
  /\ forall info,
       cat_apis c !! api_name = Some info ->
       ai_present_in info = sr_present_in r
       /\ (ai_introduced info = None \/ ai_introduced info = sr_introduced r)
       /\ (ai_status info = "present" <-> sr_removed r = None).
Proof.
  intros Hnd Hr Hc.
  destruct (catalog_inputs_nonempty symbols versions [api_type] c Hc) as [Hne _].
  destruct (full_scan_result versions symbols api_name api_type Hnd Hne)
    as (r' & newest & Hlast & Hr' & Hp & Hi & Hrem).
  rewrite Hr in Hr'. injection Hr' as <-.
  pose proof (filter_single_category versions symbols api_name api_type) as Hfil.
  split.
  - rewrite Hp, eq_None_not_Some.
    rewrite (catalog_keys symbols versions [api_type] c Hc).
    rewrite filter_nil_iff, Forall_forall. split.
    + intros Hno v Hv Hpv. apply Hno. exists v. split; [done|].
      unfold listed. by rewrite fetch_version_single.
    + intros Hall (v & Hv & Hhas). apply (Hall v Hv).
      unfold listed in Hhas. by rewrite fetch_version_single in Hhas.
  - intros info Hinfo.
    destruct (catalog_record symbols versions [api_type] c Hc api_name info Hinfo)
      as [Hheld ->].
    split_and!.
    + by rewrite lifecycle_present_in, Hfil, Hp.
    + rewrite lifecycle_introduced, Hfil, Hi.
      destruct (decide _); [by left|by right].
    + rewrite (proj1 (lifecycle_status _ _ _ Hheld)), Hrem.
      unfold listed, present_at. rewrite Hlast. split.
      * intros (n & [= <-] & Hn). left. by rewrite <-fetch_version_single.
      * intros [Hn|Hnil].
        -- exists newest. split; [done|]. by rewrite fetch_version_single.
        -- exfalso. destruct Hheld as (v & Hv & Hhas).
           apply filter_nil_iff in Hnil. rewrite Forall_forall in Hnil.
           apply (Hnil v Hv). unfold listed in Hhas.
           by rewrite fetch_version_single in Hhas.
Qed.

Lemma full_scan_agrees_with_catalog_flicker :
  exists r c info,
    (NoDup ["1.0"; "2.0"; "3.0"; "4.0"]
     /\ find_api_history ["1.0"; "2.0"; "3.0"; "4.0"] in_1_and_3 "f" "runtime" true
        = Ok r
     /\ catalog_of_range in_1_and_3 ["1.0"; "2.0"; "3.0"; "4.0"] ["runtime"] = Ok c
     /\ cat_apis c !! "f" = Some info)
    /\ ai_present_in info = sr_present_in r
    /\ (ai_status info = "present" <-> sr_removed r = None).
Proof.
  assert (NoDup ["1.0"; "2.0"; "3.0"; "4.0"]) as Hnd.
  { apply (bool_decide_unpack _). vm_compute. exact I. }
  assert (exists r,
            find_api_history ["1.0"; "2.0"; "3.0"; "4.0"] in_1_and_3 "f"
              "runtime" true = Ok r) as (r & Hr).
  { eexists. vm_compute. reflexivity. }
  assert (exists c info,
            catalog_of_range in_1_and_3 ["1.0"; "2.0"; "3.0"; "4.0"] ["runtime"]
            = Ok c
            /\ cat_apis c !! "f" = Some info) as (c & info & Hc & Hinfo).
  { eexists _, _. split; vm_compute; reflexivity. }
  exists r, c, info. split; [by split_and!|].
  destruct (full_scan_agrees_with_catalog _ _ _ _ r c Hnd Hr Hc) as [_ Hall].
  destruct (Hall info Hinfo) as (Hp & _ & Hs). by split.
Defined.

(** ** Catalog builder: several categories *)

Lemma fetch_version_fold (symbols : string -> string -> gset string)
    (api_types : list string) (v x : string) (acc : gset string) :
  x ∈ foldl (fun apis api_type => apis ∪ symbols v api_type) acc api_types
  <-> x ∈ acc \/ exists t, t ∈ api_types /\ x ∈ symbols v t.
Proof.
  revert acc. induction api_types as [|t ts IH]; intros acc; simpl.
  { split; [by left|]. by intros [?|(t & ?%elem_of_nil & _)]. }
  rewrite IH, elem_of_union. split.
  - intros [[?|?]|(t' & Ht' & Hx)].
    + by left.
    + right. exists t. split; [by left|done].
    + right. exists t'. split; [by right|done].
  - intros [?|(t' & Ht' & Hx)].
    + by left; left.
    + apply elem_of_cons in Ht' as [Heq|Ht'].
      * subst t'. by left; right.
      * right. by exists t'.
Qed.

Lemma fetch_version_elem (symbols : string -> string -> gset string)
    (api_types : list string) (v x : string) :
  x ∈ fetch_version symbols api_types v
  <-> exists t, t ∈ api_types /\ x ∈ symbols v t.
Proof.
  unfold fetch_version. rewrite fetch_version_fold. split; [|by right].
  by intros [?%elem_of_empty|?].
Qed.

(** X19: a catalog over several categories is the catalog of their union.
    A symbol is a key exactly when some category lists it in some version
    of the range, and its [present_in] holds exactly the versions of the
    range in which some category lists it, so a symbol that moves from one
    category to another is recorded as present throughout. *)
Theorem catalog_over_categories
    (symbols : string -> string -> gset string)
    (versions api_types : list string) (c : Catalog) (api : string) :
  catalog_of_range symbols versions api_types = Ok c ->
  (is_Some (cat_apis c !! api)
   <-> exists v t, v ∈ versions /\ t ∈ api_types /\ api ∈ symbols v t)
  /\ forall info v,
       cat_apis c !! api = Some info ->
       (v ∈ ai_present_in info
        <-> v ∈ versions /\ exists t, t ∈ api_types /\ api ∈ symbols v t).
Proof.
  intros Hc. split.
  - rewrite (catalog_keys symbols versions api_types c Hc). unfold listed. split.
    + intros (v & Hv & (t & Ht & Hx)%fetch_version_elem). by exists v, t.
    + intros (v & t & Hv & Ht & Hx). exists v. split; [done|].
      apply fetch_version_elem. by exists t.
  - intros info v Hinfo.
    destruct (catalog_record symbols versions api_types c Hc api info Hinfo)
      as [_ ->].
    rewrite lifecycle_present_in, list_elem_of_filter. unfold listed.
    rewrite fetch_version_elem. tauto.
Qed.

Lemma catalog_over_categories_moved :
  exists c info,
    (catalog_of_range
       (fun v t => if decide (v = "1.0" /\ t = "runtime" \/ v = "2.0" /\ t = "driver")
                   then {["cuFoo"]} else ∅)
       ["1.0"; "2.0"] ["runtime"; "driver"] = Ok c
     /\ cat_apis c !! "cuFoo" = Some info)
    /\ forall v, v ∈ ai_present_in info <-> v ∈ ["1.0"; "2.0"].
Proof.
  assert (exists c info,
            catalog_of_range
              (fun v t => if decide (v = "1.0" /\ t = "runtime"
                                     \/ v = "2.0" /\ t = "driver")
                          then {["cuFoo"]} else ∅)
              ["1.0"; "2.0"] ["runtime"; "driver"] = Ok c
            /\ cat_apis c !! "cuFoo" = Some info) as (c & info & Hc & Hinfo).
  { eexists _, _. split; vm_compute; reflexivity. }
  exists c, info. split; [split; [exact Hc|exact Hinfo]|]. intros v.
  rewrite (proj2 (catalog_over_categories _ _ _ c "cuFoo" Hc) info v Hinfo).
  split; [by intros [? _]|]. intros Hv. split; [exact Hv|].
  apply elem_of_cons in Hv as [Hv|Hv].
  - subst v. exists "runtime". split; [by left|].
    apply (bool_decide_unpack _). vm_compute. exact I.
  - apply list_elem_of_singleton in Hv. subst v.
    exists "driver". split; [by right; left|].
    apply (bool_decide_unpack _). vm_compute. exact I.
Defined.
